(** * qoonityV2: the archive push pipeline and the model caller

    A shallow embedding of [src/github.py] ([GitHubManager]) and of
    [get_completion] / [get_response] from [src/main.py], with the
    properties of the natural-language specification stated against it.

    Python values are modelled as follows.
    - [str] is a sequence of Unicode code points: [list N].
    - [bytes] is a sequence of integers in [0, 255]: [list N].
    - A raised exception is a value of [exn]; code that may raise returns
      a [result]. The exceptions modelled derive from [Exception].
    - The outside world is a log: the requests sent to the repository
      API, and what the status widgets were asked to show. The replies of
      the API come from an oracle that sees the requests sent so far. The
      widgets are taken to work: showing something never raises.
    - Calls of [print] are left out. *)

From Stdlib Require Import Ascii String.
From Stdlib Require Import List NArith ZArith Bool Lia Arith.
From Stdlib Require Import SpecFloat.
Import ListNotations.

Set Implicit Arguments.

(** ** Text *)

Definition char := N.
Definition str := list char.

(** A Python string literal restricted to ASCII. *)
Definition py (s : string) : str := map N_of_ascii (list_ascii_of_string s).

Definition chr (a : ascii) : char := N_of_ascii a.

Fixpoint str_eqb (a b : str) : bool :=
  match a, b with
  | [], [] => true
  | x :: a', y :: b' => N.eqb x y && str_eqb a' b'
  | _, _ => false
  end.

(** ** [str.split] and [str.join] *)

Module Str.

(** [s.split(sep)] for a separator of one character. The result is never
    empty: [''.split('/') == ['']]. *)
Fixpoint split (sep : char) (s : str) : list str :=
  match s with
  | [] => [[]]
  | c :: t =>
      if N.eqb c sep then [] :: split sep t
      else match split sep t with
           | seg :: segs => (c :: seg) :: segs
           | [] => [[c]]
           end
  end.

(** [sep.join(parts)] *)
Fixpoint join (sep : str) (parts : list str) : str :=
  match parts with
  | [] => []
  | p :: ps =>
      match ps with
      | [] => p
      | _ :: _ => p ++ sep ++ join sep ps
      end
  end.

(** [s.startswith(prefix)], returning what follows the prefix. *)
Fixpoint strip_prefix (prefix s : str) : option str :=
  match prefix, s with
  | [], _ => Some s
  | p :: prefix', c :: s' => if N.eqb c p then strip_prefix prefix' s' else None
  | _ :: _, [] => None
  end.

End Str.

(** ** [GitHubManager._clean_file_path] *)

Definition slash : char := chr "/".

Definition _clean_file_path (path repo_name : str) : str :=
  let parts := Str.split slash path in
  match parts with
  | first :: rest =>
      if str_eqb first repo_name then Str.join [slash] rest else path
  | [] => path
  end.

(** ** The fragment of Python's [re] that the redaction pattern uses

    [re] is a backtracking matcher: alternatives are tried left to right,
    a greedy repetition tries the longest run first and gives characters
    back one at a time, a lazy repetition tries the shortest run first, and
    the first way of matching the whole pattern wins. The matcher below is
    written with a success continuation, which is where the backtracking
    lives. Repetition is modelled for bodies of one character class, the
    only kind the pattern has. *)

Module Re.

(** [\s] on [str] patterns: the code points for which [str.isspace] holds. *)
Definition is_space (c : char) : bool :=
  (((9 <=? c) && (c <=? 13)) || ((28 <=? c) && (c <=? 32))
   || (c =? 133) || (c =? 160) || (c =? 5760)
   || ((8192 <=? c) && (c <=? 8202))
   || (c =? 8232) || (c =? 8233) || (c =? 8239) || (c =? 8287)
   || (c =? 12288))%N.

(** [\S] *)
Definition not_space (c : char) : bool := negb (is_space c).

(** [.] without [re.DOTALL]: anything but a line feed. *)
Definition dot (c : char) : bool := negb (c =? 10)%N.

(** The character set of double quote (34) and single quote (39). *)
Definition quote (c : char) : bool := ((c =? 34) || (c =? 39))%N.

Inductive re : Type :=
| Eps
| Chr (c : char)
| Cls (p : char -> bool)
| Cat (a b : re)
| Alt (a b : re)
| Star (p : char -> bool)
| StarLazy (p : char -> bool)
| Plus (p : char -> bool)
| Grp (n : nat) (a : re).

(** A literal word. *)
Definition word (w : str) : re := fold_right (fun c r => Cat (Chr c) r) Eps w.

(** Captured groups, the most recent binding first. *)
Definition caps := list (nat * str).

Fixpoint group (g : caps) (n : nat) : option str :=
  match g with
  | [] => None
  | (m, s) :: g' => if Nat.eqb m n then Some s else group g' n
  end.

Section Engine.

Variable A : Type.

Definition cont := str -> caps -> option A.

(** [p*]: as many as possible, then fewer. *)
Fixpoint greedy (p : char -> bool) (s : str) (g : caps) (k : cont) : option A :=
  match s with
  | c :: t =>
      if p c then
        match greedy p t g k with
        | Some r => Some r
        | None => k s g
        end
      else k s g
  | [] => k s g
  end.

(** [p*?]: as few as possible, then more. *)
Fixpoint reluctant (p : char -> bool) (s : str) (g : caps) (k : cont) : option A :=
  match k s g with
  | Some r => Some r
  | None =>
      match s with
      | c :: t => if p c then reluctant p t g k else None
      | [] => None
      end
  end.

Fixpoint run (r : re) (s : str) (g : caps) (k : cont) : option A :=
  match r with
  | Eps => k s g
  | Chr c =>
      match s with
      | x :: t => if N.eqb x c then k t g else None
      | [] => None
      end
  | Cls p =>
      match s with
      | x :: t => if p x then k t g else None
      | [] => None
      end
  | Cat a b => run a s g (fun s' g' => run b s' g' k)
  | Alt a b =>
      match run a s g k with
      | Some r => Some r
      | None => run b s g k
      end
  | Star p => greedy p s g k
  | StarLazy p => reluctant p s g k
  | Plus p =>
      match s with
      | x :: t => if p x then greedy p t g k else None
      | [] => None
      end
  | Grp n a =>
      run a s g
        (fun s' g' => k s' ((n, firstn (length s - length s') s) :: g'))
  end.

End Engine.

(** A match object: the groups, and the text after the match. *)
Record found := { groups : caps; after : str }.

(** [pattern.match(s)]: a match that starts at the beginning of [s]. *)
Definition match_at (r : re) (s : str) : option found :=
  run r s [] (fun s' g => Some {| groups := g; after := s' |}).

(** A replacement template: literal text and group references. *)
Inductive piece := Text (s : str) | Backref (n : nat).
Definition template := list piece.

(** [match.expand(template)]; a group that did not take part is empty. *)
Definition expand (tmpl : template) (m : found) : str :=
  flat_map (fun p =>
    match p with
    | Text s => s
    | Backref n => match group (groups m) n with Some s => s | None => [] end
    end) tmpl.

(** [pattern.finditer(s)] with the text between the matches: the leftmost
    match first, the scan resuming where it ended. [skip] counts the
    characters of [s] that still belong to the match found last. A match
    is looked for at [c :: t] only; the pattern of this file needs one
    character at least, so nothing is looked for at the end of the text,
    and the rule of [re] for empty matches is kept to its simplest case:
    the match is reported and the character kept. *)
Inductive item : Type :=
| Keep (c : char)
| Replace (m : found).

Fixpoint scan_from (r : re) (skip : nat) (s : str) : list item :=
  match s with
  | [] => []
  | c :: t =>
      match skip with
      | S n => scan_from r n t
      | O =>
          match match_at r s with
          | Some m =>
              match length s - length (after m) with
              | O => Replace m :: Keep c :: scan_from r 0 t
              | S n => Replace m :: scan_from r n t
              end
          | None => Keep c :: scan_from r 0 t
          end
      end
  end.

Definition scan (r : re) (s : str) : list item := scan_from r 0 s.

(** [pattern.sub(template, s)]: the text between the matches is kept, each
    match gives way to its expansion. *)
Definition sub (r : re) (tmpl : template) (s : str) : str :=
  flat_map (fun i =>
    match i with
    | Keep c => [c]
    | Replace m => expand tmpl m
    end) (scan r s).

End Re.

(** ** [GitHubManager._clean_code_content] *)

Definition dquote : str := [34%N].

Definition sensitive_var : str := py "authKey".

(** The dict [replacements], in insertion order. *)
Definition replacements : list (str * str) :=
  [ (py ".kt",   py "System.getenv(" ++ dquote ++ py "REPLACEMENT_KEY" ++ dquote ++ py ")");
    (py ".java", py "System.getenv(" ++ dquote ++ py "REPLACEMENT_KEY" ++ dquote ++ py ")");
    (py ".py",   py "os.getenv(" ++ dquote ++ py "REPLACEMENT_KEY" ++ dquote ++ py ")");
    (py ".js",   py "process.env.REPLACEMENT_KEY");
    (py ".ts",   py "process.env.REPLACEMENT_KEY") ].

(** [d.get(key)] on a dict with [str] keys. *)
Fixpoint dict_get (V : Type) (d : list (str * V)) (key : str) : option V :=
  match d with
  | [] => None
  | (k, v) :: d' => if str_eqb k key then Some v else dict_get d' key
  end.

(** The compiled pattern: group 1 is [authKey\s*=\s*]; group 2 is either
    a character of the quote set, [.*?] and a character of the quote set
    again, or else [\S+]. The quote set holds the double and the single
    quote, and the closing quote need not be the opening one. *)
Definition pattern : Re.re :=
  Re.Cat
    (Re.Grp 1
       (Re.Cat (Re.word sensitive_var)
          (Re.Cat (Re.Star Re.is_space)
             (Re.Cat (Re.Chr (chr "="))
                (Re.Star Re.is_space)))))
    (Re.Grp 2
       (Re.Alt
          (Re.Cat (Re.Cls Re.quote)
             (Re.Cat (Re.StarLazy Re.dot) (Re.Cls Re.quote)))
          (Re.Plus Re.not_space))).

(** [rf'\1{replacement}']: none of the replacements holds a backslash, so
    the template is the reference to group 1 and the literal text. *)
Definition redaction_template (replacement : str) : Re.template :=
  [Re.Backref 1; Re.Text replacement].

(** The walrus test [if replacement := replacements.get(file_extension)]
    fails on [None] and on the empty string. *)
Definition _clean_code_content (content file_extension : str) : str :=
  match dict_get replacements file_extension with
  | Some replacement =>
      match replacement with
      | _ :: _ => Re.sub pattern (redaction_template replacement) content
      | [] => content
      end
  | None => content
  end.

(** ** Floating point

    [int / int] is Python's true division: the IEEE 754 binary64 number
    nearest to the quotient. Both operands below are counts of bytes; they
    are below [2^53], so each converts to a binary64 number without
    rounding and the division of the two conversions is that nearest
    number. The operations are the Standard Library's specification of
    binary64 arithmetic. *)

Module Float64.

Definition prec : Z := 53.
Definition emax : Z := 1024.

Definition float := spec_float.

(** [float(z)] *)
Definition of_int (z : Z) : float := binary_normalize prec emax z 0 false.

Definition div (x y : float) : float := SFdiv prec emax x y.

Definition ltb (x y : float) : bool := SFltb x y.

(** The literal [0.7]: the binary64 number [0x1.6666666666666p-1], which
    is [6305039478318694 * 2^-53], just below seven tenths. *)
Definition lit_0_7 : float := S754_finite false 6305039478318694 (-53).

End Float64.

(** ** [GitHubManager._is_binary] *)

Definition bytes := list N.

(** [32 <= b <= 127 or b in (9, 10, 13)] *)
Definition is_text_char (b : N) : bool :=
  (((32 <=? b) && (b <=? 127)) || (b =? 9) || (b =? 10) || (b =? 13))%N.

Definition has_null (content : bytes) : bool := existsb (N.eqb 0) content.

Definition text_chars (content : bytes) : nat :=
  List.length (filter is_text_char content).

Definition _is_binary (content : bytes) : bool :=
  if has_null content then true
  else
    match content with
    | [] => false
    | _ :: _ =>
        Float64.ltb
          (Float64.div (Float64.of_int (Z.of_nat (text_chars content)))
                       (Float64.of_int (Z.of_nat (List.length content))))
          Float64.lit_0_7
    end.

(** ** Exceptions and effects *)

(** The classes of exception the two modules can meet; all of them derive
    from [Exception]. [RequestException] stands for the class of
    [requests.exceptions] and its subclasses ([HTTPError] among them). *)
Inductive exn : Type :=
| RequestException (msg : str)
| BadZipFile
| UnboundLocalError (name : str)
| TypeError (msg : str)
| KeyError (key : str)
| ClientError (message : str)
| UnicodeEncodeError
| OtherError (msg : str).

Inductive result (A : Type) : Type :=
| Ok (a : A)
| Raise (e : exn).

Arguments Ok {A} a.
Arguments Raise {A} e.

Definition is_RequestException (e : exn) : bool :=
  match e with RequestException _ => true | _ => false end.

Definition is_BadZipFile (e : exn) : bool :=
  match e with BadZipFile => true | _ => false end.

(** *** The repository API *)

Inductive request : Type :=
| PostRepo (name : str) (private : bool)
| PutContents (repo_owner repo_name file_path : str)
              (message content encoding : str).

(** What [requests] hands back: [status_error] says that
    [raise_for_status] raises, [html_url] is the outcome of
    [response.json()['html_url']]. *)
Record response : Type :=
  { status_error : bool; html_url : result str }.

Inductive reply : Type :=
| Answered (r : response)
| Failed (e : exn).

Definition is_post (r : request) : bool :=
  match r with PostRepo _ _ => true | PutContents _ _ _ _ _ _ => false end.

(** *** The status widgets *)

Inductive message : Type :=
| HeaderFile | HeaderStatus | HeaderProgress
| CreatingRepository (repo_name : str)
| RepositoryCreationFailed
| FilePath (file_path : str)
| Analyzing | DetectedBinary | ProcessingText | FallbackToBinary | Uploading
| Uploaded | Skipped
| FailedWith (e : exn)
| PushCompleted (success_count error_count : nat) (repo_owner repo_name : str)
| InvalidZip
| ZipError (e : exn).

Inductive level : Type := Markdown | Info | Warning | Error | Success.

(** A placeholder is the status cell of the row opened for a file. *)
Inductive placeholder : Type := Placeholder (file_path : str).

Inductive ui_event : Type :=
| Columns
| Shown (l : level) (m : message)
| Cell (p : placeholder) (l : level) (m : message)
| NewPlaceholder (p : placeholder)
| NewProgressBar
| Progress (current_file total_files : nat)
| ProgressEmpty.

(** *** Archives *)

(** A [ZipInfo] with the outcome of [zip_ref.read(file_info)]. [is_dir]
    is the value of [file_info.is_dir()] for an entry whose name is not
    empty; on an empty name [is_dir()] raises [IndexError] up to Python
    3.11, which is not modelled. *)
Record ZipInfo : Type :=
  { filename : str; is_dir : bool; read : result bytes }.

(** *** The collaborators *)

Class Collaborators : Type :=
  { (** the reply of the repository API to a request, given the requests
        sent before it *)
    http : list request -> request -> reply;
    (** [zipfile.ZipFile(io.BytesIO(b), 'r').infolist()]; [None] when the
        constructor raises [BadZipFile]. The constructor can also raise
        [NotImplementedError] (a version of the format that is not
        supported) and [UnicodeDecodeError] (a name that does not
        decode); these are not modelled: what is proved of a push is
        proved of an archive that opens or that raises [BadZipFile]. *)
    ZipFile : bytes -> option (list ZipInfo);
    (** [base64.b64encode(b).decode('ascii')] *)
    b64encode : bytes -> str;
    (** [b.decode('utf-8')]; [None] for [UnicodeDecodeError] *)
    utf8_decode : bytes -> option str;
    (** [s.encode('utf-8')], for a text that holds no surrogate; see
        [encodable] *)
    utf8_encode : str -> bytes }.

(** *** The monad: a log of requests, a log of what was shown, and a
    result or an exception *)

Record world : Type :=
  { sent : list request; shown : list ui_event }.

Definition M (A : Type) : Type := world -> result A * world.

Definition ret {A} (a : A) : M A := fun w => (Ok a, w).

Definition raise {A} (e : exn) : M A := fun w => (Raise e, w).

Definition bind {A B} (m : M A) (k : A -> M B) : M B :=
  fun w =>
    match m w with
    | (Ok a, w') => k a w'
    | (Raise e, w') => (Raise e, w')
    end.

Declare Scope py_scope.
Delimit Scope py_scope with py.
Notation "x <- m ;; k" := (bind m (fun x => k))
  (at level 61, m at next level, right associativity) : py_scope.
Notation "m ;; k" := (bind m (fun _ => k))
  (at level 61, right associativity) : py_scope.
Local Open Scope py_scope.

(** [try: body except ...: handler]; [handler e] is [None] when no
    [except] clause takes [e], which then goes on upwards. *)
Definition try_except {A} (body : M A) (handler : exn -> option (M A)) : M A :=
  fun w =>
    match body w with
    | (Ok a, w') => (Ok a, w')
    | (Raise e, w') =>
        match handler e with
        | Some h => h w'
        | None => (Raise e, w')
        end
    end.

Definition lift {A} (r : result A) : M A := fun w => (r, w).

Definition show (e : ui_event) : M unit :=
  fun w => (Ok tt, {| sent := sent w; shown := shown w ++ [e] |}).

(** [if widget: ...] *)
Definition when {W} (widget : option W) (m : W -> M unit) : M unit :=
  match widget with
  | Some x => m x
  | None => ret tt
  end.

(** The truth value of an optional string: [None] and [''] are false. *)
Definition truthy (s : option str) : bool :=
  match s with
  | Some (_ :: _) => true
  | _ => false
  end.

(** ** [os.path.splitext(p)[1]] on POSIX

    The extension starts at the last dot of the last path component,
    leading dots of that component not counted. *)

Fixpoint drop_while (p : char -> bool) (s : str) : str :=
  match s with
  | c :: t => if p c then drop_while p t else s
  | [] => []
  end.

(** The suffix of [s] that starts at its last [c], if [c] occurs. *)
Fixpoint from_last (c : char) (s : str) : option str :=
  match s with
  | [] => None
  | x :: t =>
      match from_last c t with
      | Some r => Some r
      | None => if N.eqb x c then Some s else None
      end
  end.

Definition splitext_ext (p : str) : str :=
  let component := last (Str.split slash p) [] in
  match from_last (chr ".") (drop_while (N.eqb (chr ".")) component) with
  | Some ext => ext
  | None => []
  end.

(** ** Texts that UTF-8 encodes

    A [str] can hold a code point of the surrogate range, D800 to DFFF;
    [s.encode('utf-8')] raises [UnicodeEncodeError] for such a text and
    encodes every other one. *)

Definition is_surrogate (c : char) : bool :=
  ((55296 <=? c) && (c <=? 57343))%N.

Definition encodable (s : str) : bool :=
  forallb (fun c => negb (is_surrogate c)) s.

(** ** The push pipeline of [GitHubManager] *)

Section Pipeline.

Context `{Collaborators}.

(** [requests.post] and [requests.put]: the request is logged, the reply
    comes from the API. *)
Definition send (r : request) : M response :=
  fun w =>
    let w' := {| sent := sent w ++ [r]; shown := shown w |} in
    match http (sent w) r with
    | Answered resp => (Ok resp, w')
    | Failed e => (Raise e, w')
    end.

Definition raise_for_status (r : response) : M unit :=
  if status_error r then raise (RequestException (py "HTTPError")) else ret tt.

Definition except_RequestException {A} (fallback : A) (e : exn) : option (M A) :=
  if is_RequestException e then Some (ret fallback) else None.

Definition create_repository (repo_name : str) (private : bool) : M (option str) :=
  try_except
    (resp <- send (PostRepo repo_name private) ;;
     raise_for_status resp ;;
     url <- lift (html_url resp) ;;
     ret (Some url))
    (except_RequestException None).

(** [create_file] sends the text encoded as UTF-8 and then as base64.
    The request data are built before the [try] statement, lines 57 to
    61: when the text does not encode, [UnicodeEncodeError] leaves the
    function and nothing is sent. *)
Definition create_file
    (repo_owner repo_name file_path content message : str) : M bool :=
  if encodable content then
    try_except
      (resp <- send (PutContents repo_owner repo_name file_path message
                       (b64encode (utf8_encode content)) (py "base64")) ;;
       raise_for_status resp ;;
       ret true)
      (except_RequestException false)
  else raise UnicodeEncodeError.

Definition create_file_with_encoding
    (repo_owner repo_name file_path content encoding message : str) : M bool :=
  try_except
    (resp <- send (PutContents repo_owner repo_name file_path
                     message content encoding) ;;
     raise_for_status resp ;;
     ret true)
    (except_RequestException false).

Definition cell (l : level) (m : message) (p : placeholder) : M unit :=
  show (Cell p l m).

(** The text encoded on line 225 is what a strict decoding gave, with
    values replaced by ASCII expressions: it holds no surrogate, and its
    encoding does not fail. *)
Definition _process_file (repo_owner repo_name : str) (file_info : ZipInfo)
    (commit_message : str) (status_placeholder : option placeholder) : M bool :=
  let file_path := _clean_file_path (filename file_info) repo_name in
  content <- lift (read file_info) ;;
  when status_placeholder (cell Info Analyzing) ;;
  encoded_content <-
    (if _is_binary content then
       when status_placeholder (cell Info DetectedBinary) ;;
       ret (b64encode content)
     else
       when status_placeholder (cell Info ProcessingText) ;;
       match utf8_decode content with
       | Some decoded_content =>
           let file_ext := splitext_ext file_path in
           let cleaned_content := _clean_code_content decoded_content file_ext in
           ret (b64encode (utf8_encode cleaned_content))
       | None =>
           when status_placeholder (cell Warning FallbackToBinary) ;;
           ret (b64encode content)
       end) ;;
  when status_placeholder (cell Info Uploading) ;;
  create_file_with_encoding repo_owner repo_name file_path encoded_content
    (py "base64") commit_message.

(** The local variables of [push_zip_to_repo] that the loop changes.
    [status_placeholder] is [None] as long as nothing was assigned to it. *)
Record locals : Type :=
  { current_file : nat;
    success_count : nat;
    error_count : nat;
    status_placeholder : option placeholder }.

Definition initial_locals : locals :=
  {| current_file := 0; success_count := 0; error_count := 0;
     status_placeholder := None |}.

Definition count_success (l : locals) : locals :=
  {| current_file := current_file l; success_count := S (success_count l);
     error_count := error_count l; status_placeholder := status_placeholder l |}.

Definition count_error (l : locals) : locals :=
  {| current_file := current_file l; success_count := success_count l;
     error_count := S (error_count l); status_placeholder := status_placeholder l |}.

Definition next_file (l : locals) : locals :=
  {| current_file := S (current_file l); success_count := success_count l;
     error_count := error_count l; status_placeholder := status_placeholder l |}.

Definition assign_placeholder (p : placeholder) (l : locals) : locals :=
  {| current_file := current_file l; success_count := success_count l;
     error_count := error_count l; status_placeholder := Some p |}.

(** Reading the local variable [status_placeholder]. *)
Definition load_status_placeholder (l : locals) : M placeholder :=
  match status_placeholder l with
  | Some p => ret p
  | None => raise (UnboundLocalError (py "status_placeholder"))
  end.

(** [if status_container: status_placeholder.<level>(...)] *)
Definition report {W} (status_container : option W) (l : locals)
    (lv : level) (m : message) : M unit :=
  when status_container (fun _ => when (status_placeholder l) (cell lv m)).

(** The call on lines 156 and 157: its last argument is read from the
    local variable first. *)
Definition call_process_file (repo_owner repo_name : str) (file_info : ZipInfo)
    (commit_message : str) (l : locals) : M bool :=
  p <- load_status_placeholder l ;;
  _process_file repo_owner repo_name file_info commit_message (Some p).

(** The [try] statement inside the loop, lines 154 to 172. *)
Definition attempt_file {W} (repo_owner repo_name : str) (file_info : ZipInfo)
    (commit_message : str) (status_container : option W) (l : locals) : M locals :=
  try_except
    (success <- call_process_file repo_owner repo_name file_info
                  commit_message l ;;
     if success : bool then
       let l := count_success l in
       report status_container l Success Uploaded ;;
       ret l
     else
       let l := count_error l in
       report status_container l Warning Skipped ;;
       ret l)
    (fun e =>
       let l := count_error l in
       Some (report status_container l Error (FailedWith e) ;;
             ret l)).

(** Lines 143 to 152: the progress bar moves and the row of the file is
    opened, when there is a container. The progress value
    [min(current_file / total_files, 1.0)] is logged as the two counts. *)
Definition open_row {W} (status_container : option W) (total_files : nat)
    (file_path : str) (l : locals) : M locals :=
  when status_container
    (fun _ => show (Progress (current_file l) total_files)) ;;
  match status_container with
  | Some _ =>
      show Columns ;;
      show (Shown Markdown (FilePath file_path)) ;;
      show (NewPlaceholder (Placeholder file_path)) ;;
      ret (assign_placeholder (Placeholder file_path) l)
  | None => ret l
  end.

(** One turn of [for file_info in zip_ref.infolist()]. *)
Definition loop_body {W} (repo_owner repo_name commit_message : str)
    (status_container : option W) (total_files : nat)
    (file_info : ZipInfo) (l : locals) : M locals :=
  if is_dir file_info then ret l
  else
    let l := next_file l in
    let file_path := _clean_file_path (filename file_info) repo_name in
    match file_path with
    | [] => ret l
    | _ :: _ =>
        l <- open_row status_container total_files file_path l ;;
        attempt_file repo_owner repo_name file_info commit_message
          status_container l
    end.

Fixpoint for_each {W} (repo_owner repo_name commit_message : str)
    (status_container : option W) (total_files : nat)
    (infolist : list ZipInfo) (l : locals) : M locals :=
  match infolist with
  | [] => ret l
  | file_info :: later =>
      l' <- loop_body repo_owner repo_name commit_message status_container
              total_files file_info l ;;
      for_each repo_owner repo_name commit_message status_container
        total_files later l'
  end.

(** [zipfile.ZipFile(io.BytesIO(zip_content), 'r')] followed by
    [infolist()]. *)
Definition open_zip (zip_content : bytes) : M (list ZipInfo) :=
  match ZipFile zip_content with
  | Some infolist => ret infolist
  | None => raise BadZipFile
  end.

Definition count_files (infolist : list ZipInfo) : nat :=
  List.length (filter (fun f => negb (is_dir f)) infolist).

Definition push_zip_to_repo {W} (repo_owner repo_name : str)
    (zip_content : bytes) (commit_message : str)
    (status_container : option W) : M bool :=
  when status_container
    (fun _ => show Columns ;;
              show (Shown Markdown HeaderFile) ;;
              show (Shown Markdown HeaderStatus) ;;
              show (Shown Markdown HeaderProgress)) ;;
  infolist <- open_zip zip_content ;;
  let total_files := count_files infolist in
  when status_container
    (fun _ => show (Shown Info (CreatingRepository repo_name))) ;;
  created <- create_repository repo_name false ;;
  if negb (truthy created) then
    when status_container
      (fun _ => show (Shown Error RepositoryCreationFailed)) ;;
    ret false
  else
    try_except
      (infolist <- open_zip zip_content ;;
       when status_container (fun _ => show NewProgressBar) ;;
       l <- for_each repo_owner repo_name commit_message status_container
              total_files infolist initial_locals ;;
       when status_container
         (fun _ => show ProgressEmpty ;;
                   show (Shown Success
                           (PushCompleted (success_count l) (error_count l)
                              repo_owner repo_name))) ;;
       ret true)
      (fun e =>
         if is_BadZipFile e then
           Some (when status_container (fun _ => show (Shown Error InvalidZip)) ;;
                 ret false)
         else
           Some (when status_container (fun _ => show (Shown Error (ZipError e))) ;;
                 ret false)).

End Pipeline.

(** ** [main.py]: the call of the model *)

(** Python values as they come out of a JSON document. A dict keeps its
    items in insertion order. *)
#[warnings="-register-all"]
Inductive pyval : Type :=
| PyNone
| PyBool (b : bool)
| PyInt (z : Z)
| PyFloat (f : spec_float)
| PyStr (s : str)
| PyList (l : list pyval)
| PyDict (d : list (str * pyval)).

(** [v[key]] for a [str] key. *)
Definition getitem (v : pyval) (key : str) : result pyval :=
  match v with
  | PyDict d =>
      match dict_get d key with
      | Some x => Ok x
      | None => Raise (KeyError key)
      end
  | _ => Raise (TypeError (py "not subscriptable with a str"))
  end.

(** [needle in s] on strings. *)
Fixpoint is_substring (needle s : str) : bool :=
  match Str.strip_prefix needle s with
  | Some _ => true
  | None =>
      match s with
      | [] => false
      | _ :: t => is_substring needle t
      end
  end.

Definition is_PyStr (key : str) (v : pyval) : bool :=
  match v with
  | PyStr s => str_eqb s key
  | _ => false
  end.

(** [key in v] for a [str] key. *)
Definition contains (key : str) (v : pyval) : result bool :=
  match v with
  | PyDict d =>
      Ok (match dict_get d key with Some _ => true | None => false end)
  | PyList l => Ok (existsb (is_PyStr key) l)
  | PyStr s => Ok (is_substring key s)
  | _ => Raise (TypeError (py "argument is not iterable"))
  end.

(** [iter(v)] run to its end. *)
Definition elements (v : pyval) : result (list pyval) :=
  match v with
  | PyList l => Ok l
  | PyDict d => Ok (map (fun kv => PyStr (fst kv)) d)
  | PyStr s => Ok (map (fun c => PyStr [c]) s)
  | _ => Raise (TypeError (py "object is not iterable"))
  end.

(** [next((block for block in blocks if key in block), None)] *)
Fixpoint first_with (key : str) (blocks : list pyval) : result pyval :=
  match blocks with
  | [] => Ok PyNone
  | block :: later =>
      match contains key block with
      | Ok true => Ok block
      | Ok false => first_with key later
      | Raise e => Raise e
      end
  end.

(** The truth value of a Python value. A NaN is true, the zeros are
    false. *)
Definition py_truthy (v : pyval) : bool :=
  match v with
  | PyNone => false
  | PyBool b => b
  | PyInt z => negb (Z.eqb z 0)
  | PyFloat f => match f with S754_zero _ => false | _ => true end
  | PyStr s => match s with [] => false | _ :: _ => true end
  | PyList l => match l with [] => false | _ :: _ => true end
  | PyDict d => match d with [] => false | _ :: _ => true end
  end.

Record chat_message : Type := { role : str; content : str }.

(** The keyword arguments of [bedrock.converse]. [toolConfig] always holds
    [tool_list], the schemas of [application_design] and
    [generic_request]; the temperature is always [0.0]. *)
Record converse_params : Type :=
  { modelId : str;
    user_text : str;
    system_text : option str }.

Class Bedrock : Type :=
  { (** the outcome of [bedrock.converse] on these keyword arguments *)
    converse : converse_params -> result pyval;
    (** [qoonity_head], imported from the module [qooneous] *)
    qoonity_head : str }.

Definition model_id : str := py "anthropic.claude-3-5-sonnet-20240620-v1:0".

(** [chat_history[-3:] if len(chat_history) > 3 else chat_history] *)
Definition recent_messages (chat_history : list chat_message) : list chat_message :=
  if 3 <? List.length chat_history
  then skipn (List.length chat_history - 3) chat_history
  else chat_history.

Definition history_context (chat_history : option (list chat_message)) : str :=
  match chat_history with
  | Some (m :: ms) =>
      flat_map (fun message =>
                  role message ++ py ": " ++ content message ++ [10%N])
               (recent_messages (m :: ms))
  | _ => []
  end.

Definition full_prompt (prompt : str) (chat_history : option (list chat_message)) : str :=
  match history_context chat_history with
  | [] => prompt
  | c :: h => (c :: h) ++ [10%N] ++ prompt
  end.

Definition bind_result {A B} (r : result A) (k : A -> result B) : result B :=
  match r with
  | Ok a => k a
  | Raise e => Raise e
  end.

Notation "x <~ r ;; k" := (bind_result r (fun x => k))
  (at level 61, r at next level, right associativity) : py_scope.

Definition generic_request (response_message : pyval) : pyval :=
  PyDict [ (py "request_type", PyStr (py "generic_request"));
           (py "response", response_message) ].

Section Model.

Context `{Bedrock}.

(** The body of the [try] statement of [get_completion]. *)
Definition read_reply (params : converse_params) : result pyval :=
  response <~ converse params ;;
  output <~ getitem response (py "output") ;;
  response_message <~ getitem output (py "message") ;;
  response_content_blocks <~ getitem response_message (py "content") ;;
  blocks <~ elements response_content_blocks ;;
  content_block <~ first_with (py "toolUse") blocks ;;
  tool_use_block <~ getitem content_block (py "toolUse") ;;
  tool_result_dict <~ getitem tool_use_block (py "input") ;;
  has_response <~ contains (py "response") tool_result_dict ;;
  if has_response : bool then Ok tool_result_dict
  else Ok (generic_request response_message).

(** [converse_api_params]; the key [system] is set for a system prompt
    that is neither [None] nor empty. *)
Definition converse_api_params (prompt : str)
    (chat_history : option (list chat_message))
    (system_prompt : option str) : converse_params :=
  {| modelId := model_id;
     user_text := full_prompt prompt chat_history;
     system_text :=
       match system_prompt with
       | Some (c :: p) => Some (c :: p)
       | _ => None
       end |}.

(** [except ClientError as err]: the message is printed, [None] is
    returned. The error response of a [ClientError] always holds
    [Error.Message], which is what [message] carries. *)
Definition get_completion (prompt : str)
    (chat_history : option (list chat_message))
    (system_prompt : option str) : result pyval :=
  match read_reply (converse_api_params prompt chat_history system_prompt) with
  | Raise (ClientError message) => Ok PyNone
  | r => r
  end.

(** [get_response] overwrites its [system_prompt] with [qoonity_head];
    [except Exception] prints and falls off the end of the function, which
    returns [None]. *)
Definition get_response (prompt : str)
    (chat_history : option (list chat_message))
    (system_prompt : option str) : result pyval :=
  match get_completion prompt chat_history (Some qoonity_head) with
  | Ok response => if py_truthy response then Ok response else Ok PyNone
  | Raise e => Ok PyNone
  end.

End Model.

(** * Vocabulary of the specification *)

Local Open Scope py_scope.

Unset Implicit Arguments.

(** [s] holds no [c]. *)
Definition free_of (c : char) (s : str) : bool := negb (existsb (N.eqb c) s).

(** The entries that the push attempts: the files whose normalized path
    is not empty. *)
Definition is_attempted (repo_name : str) (file_info : ZipInfo) : bool :=
  negb (is_dir file_info) &&
  match _clean_file_path (filename file_info) repo_name with
  | [] => false
  | _ :: _ => true
  end.

Definition attempted (repo_name : str) (infolist : list ZipInfo) : nat :=
  List.length (filter (is_attempted repo_name) infolist).

(** The world after one more request, and after more was shown. *)
Definition logged (w : world) (r : request) : world :=
  {| sent := sent w ++ [r]; shown := shown w |}.

Definition showing (w : world) (evs : list ui_event) : world :=
  {| sent := sent w; shown := shown w ++ evs |}.

(** What the status cell of a file shows when its outcome is reported. *)
Definition reported {W} (status_container : option W) (l : locals)
    (lv : level) (m : message) : list ui_event :=
  match status_container, status_placeholder l with
  | Some _, Some p => [Cell p lv m]
  | _, _ => []
  end.

(** The local variables once the row of a file is opened, and what
    opening it shows. *)
Definition opened {W} (status_container : option W) (file_path : str)
    (l : locals) : locals :=
  match status_container with
  | Some _ => assign_placeholder (Placeholder file_path) l
  | None => l
  end.

Definition row_events {W} (status_container : option W) (total_files : nat)
    (file_path : str) (l : locals) : list ui_event :=
  match status_container with
  | Some _ =>
      [ Progress (current_file l) total_files; Columns;
        Shown Markdown (FilePath file_path);
        NewPlaceholder (Placeholder file_path) ]
  | None => []
  end.

(** What is shown before the archive is opened, and up to the abort when
    the repository cannot be created. *)
Definition header_events {W} (status_container : option W) : list ui_event :=
  match status_container with
  | Some _ =>
      [ Columns; Shown Markdown HeaderFile; Shown Markdown HeaderStatus;
        Shown Markdown HeaderProgress ]
  | None => []
  end.

Definition abort_events {W} (status_container : option W) (repo_name : str)
    : list ui_event :=
  match status_container with
  | Some _ =>
      header_events status_container ++
      [ Shown Info (CreatingRepository repo_name);
        Shown Error RepositoryCreationFailed ]
  | None => []
  end.

(** ** A small world for the examples

    An archive of a directory, a file that cannot be read and a file that
    can; an API that accepts every request, and one that refuses to create
    the repository. The codecs of the examples copy their input. *)

Definition demo_unreadable : ZipInfo :=
  {| filename := py "myrepo/app.py"; is_dir := false;
     read := Raise (OtherError (py "Bad CRC-32")) |}.

Definition demo_readable : ZipInfo :=
  {| filename := py "myrepo/logo.png"; is_dir := false;
     read := Ok [137; 80; 78; 71; 0]%N |}.

Definition demo_archive : list ZipInfo :=
  [ {| filename := py "myrepo/"; is_dir := true; read := Ok [] |};
    demo_unreadable; demo_readable ].

Definition demo_url : str := py "https://github.com/me/myrepo".

Definition demo_zip (b : bytes) : option (list ZipInfo) :=
  match b with
  | 80%N :: 75%N :: _ => Some demo_archive
  | _ => None
  end.

Definition demo : Collaborators :=
  {| http := fun _ _ =>
       Answered {| status_error := false; html_url := Ok demo_url |};
     ZipFile := demo_zip;
     b64encode := fun b => b;
     utf8_decode := fun b => Some b;
     utf8_encode := fun s => s |}.

Definition demo_refusing : Collaborators :=
  {| http := fun _ r =>
       if is_post r
       then Answered {| status_error := true; html_url := Ok demo_url |}
       else Answered {| status_error := false; html_url := Ok demo_url |};
     ZipFile := demo_zip;
     b64encode := fun b => b;
     utf8_decode := fun b => Some b;
     utf8_encode := fun s => s |}.

Definition empty_world : world := {| sent := []; shown := [] |}.

(** A bundle of a directory, a text file with a secret and a binary file;
    an API that refuses the upload of [notes.txt]. *)

Definition bundle_secret : str :=
  py "authKey = " ++ dquote ++ py "abc123" ++ dquote ++ [10%N].

Definition bundle : list ZipInfo :=
  [ {| filename := py "myrepo/"; is_dir := true; read := Ok [] |};
    {| filename := py "myrepo/src/config.py"; is_dir := false;
       read := Ok bundle_secret |};
    {| filename := py "myrepo/notes.txt"; is_dir := false;
       read := Ok (py "hello") |};
    {| filename := py "myrepo/logo.png"; is_dir := false;
       read := Ok [137; 80; 78; 71; 0]%N |} ].

Definition refuses_notes (r : request) : bool :=
  match r with
  | PutContents _ _ file_path _ _ _ => str_eqb file_path (py "notes.txt")
  | PostRepo _ _ => false
  end.

Definition bundle_world : Collaborators :=
  {| http := fun _ r =>
       Answered {| status_error := refuses_notes r; html_url := Ok demo_url |};
     ZipFile := fun _ => Some bundle;
     b64encode := fun b => b;
     utf8_decode := fun b => Some b;
     utf8_encode := fun s => s |}.

(** A reply of the model with a text block and a tool-use block, and the
    model behind it; a model whose call fails. *)

Definition demo_message (input : pyval) : pyval :=
  PyDict [ (py "role", PyStr (py "assistant"));
           (py "content",
            PyList [ PyDict [(py "text", PyStr (py "Here is the design."))];
                     PyDict [(py "toolUse",
                              PyDict [ (py "name", PyStr (py "application_design"));
                                       (py "input", input) ])] ]) ].

Definition demo_reply (input : pyval) : pyval :=
  PyDict [ (py "output", PyDict [(py "message", demo_message input)]) ].

Definition demo_bedrock (input : pyval) : Bedrock :=
  {| converse := fun _ => Ok (demo_reply input);
     qoonity_head := py "You are Qoonity." |}.

Definition demo_failing_bedrock : Bedrock :=
  {| converse := fun _ => Raise (ClientError (py "Throttled"));
     qoonity_head := py "You are Qoonity." |}.

Definition demo_design : list (str * pyval) :=
  [ (py "request_type", PyStr (py "application_design"));
    (py "entities", PyList []) ].

Definition demo_answer : list (str * pyval) :=
  [ (py "request_type", PyStr (py "generic_request"));
    (py "response", PyStr (py "Hello.")) ].

(** ** Redaction, in the words of the specification *)

Definition equals_sign : char := chr "=".

(** Optional whitespace. *)
Definition blank (w : str) : bool := forallb Re.is_space w.

(** The text is over, or whitespace comes next. *)
Definition starts_blank (s : str) : bool :=
  match s with
  | [] => true
  | c :: _ => Re.is_space c
  end.

(** The left-hand side: [authKey], optional whitespace, the equals sign,
    optional whitespace. *)
Inductive left_hand_side : str -> Prop :=
| lhs_intro w1 w2 :
    blank w1 = true -> blank w2 = true ->
    left_hand_side (sensitive_var ++ w1 ++ equals_sign :: w2).

(** A quoted literal, non-greedy: a quote character, then the shortest
    text that a quote character ends, all on one line. The two quote
    characters are the double or the single quote, each of them either. *)
Inductive quoted : str -> Prop :=
| quoted_intro q1 body q2 :
    Re.quote q1 = true -> Re.quote q2 = true ->
    forallb (fun c => Re.dot c && negb (Re.quote c)) body = true ->
    quoted (q1 :: body ++ [q2]).

(** The value [v] of an assignment, [rest] being the text after it: a
    quoted literal, or else, where no quoted literal starts, a single token
    free of whitespace that goes as far as the whitespace or the end of the
    text. *)
Inductive value_of : str -> str -> Prop :=
| value_quoted v rest :
    quoted v -> value_of v rest
| value_token v rest :
    v <> [] ->
    forallb Re.not_space v = true ->
    starts_blank rest = true ->
    (forall q r, quoted q -> q ++ r <> v ++ rest) ->
    value_of v rest.

(** [s] starts with a match of the pattern: left-hand side [lhs], value
    [v], and [rest] after them. *)
Definition occurrence (s lhs v rest : str) : Prop :=
  s = lhs ++ v ++ rest /\ left_hand_side lhs /\ value_of v rest.

Definition occurs (s : str) : Prop :=
  exists lhs v rest, occurrence s lhs v rest.

(** [redacted R s out]: [out] is [s] with the value of every match replaced
    by [R], the matches being taken from left to right without overlap;
    the left-hand sides and the text outside the matches are kept. *)
Inductive redacted (R : str) : str -> str -> Prop :=
| redacted_end : redacted R [] []
| redacted_keep c t out :
    ~ occurs (c :: t) ->
    redacted R t out ->
    redacted R (c :: t) (c :: out)
| redacted_match s lhs v rest out :
    occurrence s lhs v rest ->
    redacted R rest out ->
    redacted R s (lhs ++ R ++ out).

(** A character that is neither whitespace nor the equals sign, as the
    characters of an identifier are. *)
Definition plain_char (c : char) : bool :=
  Re.not_space c && negb (N.eqb c equals_sign).

(** The fixed set of file-type hints. *)
Definition hints : list str :=
  [py ".kt"; py ".java"; py ".py"; py ".js"; py ".ts"].

Definition is_hint (file_extension : str) : bool :=
  existsb (fun h => str_eqb h file_extension) hints.

(** Every value that the redaction replaces in [s] is followed by
    whitespace or ends the text. *)
Definition well_delimited (s : str) : bool :=
  forallb (fun i =>
    match i with
    | Re.Keep _ => true
    | Re.Replace m => starts_blank (Re.after m)
    end) (Re.scan pattern s).

(** ** The pattern read directly

    What the backtracking matcher finds at the start of a text, written
    without backtracking. *)

Fixpoint take_while (p : char -> bool) (s : str) : str :=
  match s with
  | c :: t => if p c then c :: take_while p t else []
  | [] => []
  end.

(** After an opening quote: the text up to the closing quote, that quote
    included, and the text after it. *)
Fixpoint close_quote (s : str) : option (str * str) :=
  match s with
  | [] => None
  | c :: t =>
      if Re.quote c then Some ([c], t)
      else if Re.dot c then
        match close_quote t with
        | Some (b, r) => Some (c :: b, r)
        | None => None
        end
      else None
  end.

Definition token (s : str) : option (str * str) :=
  match s with
  | c :: t =>
      if Re.not_space c
      then Some (c :: take_while Re.not_space t, drop_while Re.not_space t)
      else None
  | [] => None
  end.

Definition value (s : str) : option (str * str) :=
  match s with
  | c :: t =>
      if Re.quote c then
        match close_quote t with
        | Some (b, r) => Some (c :: b, r)
        | None => token s
        end
      else token s
  | [] => None
  end.

(** Left-hand side, value and remainder of the match at the start of [s]. *)
Definition hit (s : str) : option (str * str * str) :=
  match Str.strip_prefix sensitive_var s with
  | None => None
  | Some s1 =>
      match drop_while Re.is_space s1 with
      | c :: s2 =>
          if N.eqb c equals_sign then
            match value (drop_while Re.is_space s2) with
            | Some (v, rest) =>
                Some (sensitive_var ++ take_while Re.is_space s1
                        ++ c :: take_while Re.is_space s2, v, rest)
            | None => None
            end
          else None
      | [] => None
      end
  end.

Definition found_of (h : str * str * str) : Re.found :=
  let '(lhs, v, rest) := h in
  {| Re.groups := [(2, v); (1, lhs)]; Re.after := rest |}.

(** Whether a match starts at the start of a text, as three loops: the
    word, the whitespace before the equals sign, the whitespace after. *)
Fixpoint after_equals (s : str) : bool :=
  match s with
  | c :: t => if Re.is_space c then after_equals t else true
  | [] => false
  end.

Fixpoint before_equals (s : str) : bool :=
  match s with
  | c :: t =>
      if Re.is_space c then before_equals t
      else if N.eqb c equals_sign then after_equals t
      else false
  | [] => false
  end.

Fixpoint spelled (w s : str) : bool :=
  match w with
  | [] => before_equals s
  | x :: w' =>
      match s with
      | c :: t => N.eqb c x && spelled w' t
      | [] => false
      end
  end.

(** The substitution that [_clean_code_content] runs for a replacement
    [R]. *)
Definition redact (R : str) (s : str) : str :=
  Re.sub pattern (redaction_template R) s.

(** A token free of whitespace that no quote starts; the replacements
    are such tokens. *)
Definition plain_token (R : str) : bool :=
  match R with
  | x :: _ => negb (Re.quote x) && forallb Re.not_space R
  | [] => false
  end.

Definition letter_a : char := chr "a".

(** ** Binary64 rounding, for the classifier *)

Local Open Scope Z_scope.

(** The second half of [binary_round_aux]: rounding to nearest even and
    the normalization after it. *)
Definition round_tail (m : Z) (l : location) (e : Z) : spec_float :=
  let '(mrs, e') := shr_fexp 53 1024 (round_nearest_even m l) e loc_Exact in
  match shr_m mrs with
  | Z0 => S754_zero false
  | Zpos m' => if e' <=? 1024 - 53 then S754_finite false m' e'
               else S754_infinity false
  | Zneg _ => S754_nan
  end.

(** What a location says of a remainder [num] over [den]. *)
Definition loc_of (num den : Z) (l : location) : Prop :=
  match l with
  | loc_Exact => num = 0
  | loc_Inexact c => 0 < num /\ (2 * num ?= den) = c
  end.

(** The mantissa of the literal [0.7]. *)
Definition mantissa_0_7 : Z := 6305039478318694.

(** [a] bytes of the letter A followed by [b] bytes of value 200. *)
Definition mixed (a b : N) : bytes :=
  repeat 65%N (N.to_nat a) ++ repeat 200%N (N.to_nat b).

Local Close Scope Z_scope.

(** * Vocabulary of the further properties *)

(** ** Paths and texts *)

Definition full_stop : char := chr ".".

(** A directory prefix: nothing, or a text that ends in a slash. *)
Definition is_directory_prefix (pre : str) : bool :=
  match rev pre with
  | [] => true
  | c :: _ => N.eqb c slash
  end.

(** The number of line feeds of a text. *)
Definition line_feeds (s : str) : nat := List.length (filter (N.eqb 10) s).

(** ** Uploads *)

(** What an upload returns, by the reply of the API: the handler of
    [RequestException] turns a failure of the request and a reply with an
    error status into [False]; any other exception goes on upwards. *)
Definition upload_result (r : reply) : result bool :=
  match r with
  | Answered resp => Ok (negb (status_error resp))
  | Failed e => if is_RequestException e then Ok false else Raise e
  end.

Section Uploads.

Context `{Collaborators}.

(** The text that [_process_file] uploads for the bytes of an entry:
    lines 213 to 231 without the status cells. *)
Definition encoded_content (file_path : str) (content : bytes) : str :=
  if _is_binary content then b64encode content
  else
    match utf8_decode content with
    | Some decoded_content =>
        let file_ext := splitext_ext file_path in
        b64encode (utf8_encode (_clean_code_content decoded_content file_ext))
    | None => b64encode content
    end.

(** The request of lines 236 to 238 for an entry whose bytes are
    [content]. *)
Definition upload_request (repo_owner repo_name commit_message : str)
    (file_info : ZipInfo) (content : bytes) : request :=
  let file_path := _clean_file_path (filename file_info) repo_name in
  PutContents repo_owner repo_name file_path commit_message
    (encoded_content file_path content) (py "base64").

(** The uploads that an entry of the archive gives rise to: one for a file
    that the push attempts and whose bytes can be read, none otherwise. *)
Definition uploads_of (repo_owner repo_name commit_message : str)
    (file_info : ZipInfo) : list request :=
  if is_attempted repo_name file_info then
    match read file_info with
    | Ok content =>
        [upload_request repo_owner repo_name commit_message file_info content]
    | Raise _ => []
    end
  else [].

(** What [_process_file] shows in the status cell of the file. *)
Definition process_events (status_placeholder : option placeholder)
    (content : bytes) : list ui_event :=
  match status_placeholder with
  | Some p =>
      [Cell p Info Analyzing]
      ++ (if _is_binary content then [Cell p Info DetectedBinary]
          else
            Cell p Info ProcessingText ::
            match utf8_decode content with
            | Some _ => []
            | None => [Cell p Warning FallbackToBinary]
            end)
      ++ [Cell p Info Uploading]
  | None => []
  end.

(** How many of the requests [reqs], sent one after the other after the
    requests [history], the API accepts. *)
Fixpoint accepted (history reqs : list request) : nat :=
  match reqs with
  | [] => 0
  | req :: later =>
      match upload_result (http history req) with
      | Ok true => 1
      | _ => 0
      end + accepted (history ++ [req]) later
  end.

End Uploads.

(** An event of the loop over the entries: the progress bar at a count
    between [lo], exclusive, and [hi] out of [total_files], or a row of a
    file and what its cell shows. *)
Definition loop_event (total_files lo hi : nat) (ev : ui_event) : bool :=
  match ev with
  | Progress c t => Nat.eqb t total_files && Nat.ltb lo c && Nat.leb c hi
  | Columns | NewPlaceholder _ | Cell _ _ _ => true
  | Shown Markdown (FilePath _) => true
  | _ => false
  end.

(** The reports of the two outer handlers of the push. *)
Definition is_zip_report (ev : ui_event) : bool :=
  match ev with
  | Shown Error InvalidZip | Shown Error (ZipError _) => true
  | _ => false
  end.

(** The progress bar at a count between one and the total. *)
Definition within_total (ev : ui_event) : bool :=
  match ev with
  | Progress c t => Nat.leb 1 c && Nat.leb c t
  | _ => true
  end.

(** ** More of the small world of the examples

    Two entries of the bundle by name, a file that is named as the
    repository, and an API whose reply to the creation holds no address. *)

Definition bundle_config : ZipInfo :=
  {| filename := py "myrepo/src/config.py"; is_dir := false;
     read := Ok bundle_secret |}.

Definition bundle_logo : ZipInfo :=
  {| filename := py "myrepo/logo.png"; is_dir := false;
     read := Ok [137; 80; 78; 71; 0]%N |}.

Definition named_as_repository : ZipInfo :=
  {| filename := py "myrepo"; is_dir := false; read := Ok (py "#!/bin/sh") |}.

Definition demo_no_address : Collaborators :=
  {| http := fun _ _ =>
       Answered {| status_error := false;
                   html_url := Raise (KeyError (py "html_url")) |};
     ZipFile := demo_zip;
     b64encode := fun b => b;
     utf8_decode := fun b => Some b;
     utf8_encode := fun s => s |}.

(** ** The prompt *)

(** The line that a message of the history adds to the prompt. *)
Definition history_line (message : chat_message) : str :=
  role message ++ py ": " ++ content message ++ [10%N].

(** A history of five messages, and a model that answers with text
    only. *)
Definition demo_history : list chat_message :=
  [ {| role := py "user"; content := py "one" |};
    {| role := py "assistant"; content := py "two" |};
    {| role := py "user"; content := py "three" |};
    {| role := py "assistant"; content := py "four" |};
    {| role := py "user"; content := py "five" |} ].

Definition text_only_message : pyval :=
  PyDict [ (py "role", PyStr (py "assistant"));
           (py "content", PyList [PyDict [(py "text", PyStr (py "Hi"))]]) ].

Definition text_only_bedrock : Bedrock :=
  {| converse := fun _ =>
       Ok (PyDict [(py "output", PyDict [(py "message", text_only_message)])]);
     qoonity_head := py "You are Qoonity." |}.
(** * Properties *)

Lemma str_eqb_spec a b : reflect (a = b) (str_eqb a b).
Proof.
  revert b; induction a as [|x a IH]; intros [|y b]; simpl;
    try (constructor; congruence).
  destruct (N.eqb_spec x y) as [->|Hne]; simpl.
  - destruct (IH b) as [->|Hne]; constructor; congruence.
  - constructor; congruence.
Qed.

(** ** Path normalization *)

Section Paths.

Lemma free_of_cons c x s :
  free_of c (x :: s) = true -> x <> c /\ free_of c s = true.
Proof.
  unfold free_of; simpl. rewrite negb_orb, andb_true_iff.
  intros [Hx Hs]; split; [|exact Hs].
  intros ->. now rewrite N.eqb_refl in Hx.
Qed.

Lemma split_nonempty sep s : Str.split sep s <> [].
Proof.
  destruct s as [|c t]; simpl; [discriminate|].
  destruct (N.eqb c sep); [discriminate|].
  destruct (Str.split sep t); discriminate.
Qed.

Lemma split_segment sep seg :
  free_of sep seg = true -> Str.split sep seg = [seg].
Proof.
  induction seg as [|c t IH]; intros Hfree; simpl; [reflexivity|].
  apply free_of_cons in Hfree as [Hc Ht].
  destruct (N.eqb_spec c sep) as [->|_]; [congruence|].
  now rewrite IH.
Qed.

Lemma split_app sep seg rest :
  free_of sep seg = true ->
  Str.split sep (seg ++ sep :: rest) = seg :: Str.split sep rest.
Proof.
  induction seg as [|c t IH]; intros Hfree; simpl.
  - now rewrite N.eqb_refl.
  - apply free_of_cons in Hfree as [Hc Ht].
    destruct (N.eqb_spec c sep) as [->|_]; [congruence|].
    now rewrite IH.
Qed.

(** Splitting undoes joining when no segment holds the separator. *)
Lemma split_join sep segs :
  segs <> [] -> forallb (free_of sep) segs = true ->
  Str.split sep (Str.join [sep] segs) = segs.
Proof.
  induction segs as [|p ps IH]; intros Hne Hall; [congruence|].
  simpl in Hall. apply andb_true_iff in Hall as [Hp Hps].
  destruct ps as [|q qs].
  - simpl. now apply split_segment.
  - change (Str.join [sep] (p :: q :: qs))
      with (p ++ sep :: Str.join [sep] (q :: qs)).
    rewrite split_app by assumption.
    rewrite IH; [reflexivity|discriminate|assumption].
Qed.

(** Joining undoes splitting, always. *)
Lemma join_split sep s : Str.join [sep] (Str.split sep s) = s.
Proof.
  induction s as [|c t IH]; simpl; [reflexivity|].
  destruct (N.eqb_spec c sep) as [->|Hne].
  - destruct (Str.split sep t) as [|seg segs] eqn:E.
    + now destruct (split_nonempty sep t).
    + simpl in *. now rewrite IH.
  - destruct (Str.split sep t) as [|seg segs] eqn:E.
    + now destruct (split_nonempty sep t).
    + simpl in *. destruct segs; simpl in *; now rewrite <- IH.
Qed.

(** The segments that [split] finds hold no separator. *)
Lemma split_free sep s : forallb (free_of sep) (Str.split sep s) = true.
Proof.
  induction s as [|c t IH]; simpl; [reflexivity|].
  destruct (N.eqb_spec c sep) as [->|Hne]; [exact IH|].
  destruct (Str.split sep t) as [|seg segs]; simpl in *.
  - unfold free_of; simpl.
    destruct (N.eqb_spec sep c); [congruence|reflexivity].
  - apply andb_true_iff in IH as [Hseg Hsegs].
    rewrite Hsegs, andb_true_r.
    unfold free_of in *; simpl.
    destruct (N.eqb_spec sep c); [congruence|exact Hseg].
Qed.

(** C7. Path normalization: a path is a non-empty sequence of segments
    that hold no slash, joined by slashes. When the first segment equals
    the repository name the result is the remaining segments joined by
    slashes; otherwise the result is the path itself. *)
Theorem clean_file_path_segments (segs : list str) (repo_name : str) :
  segs <> [] ->
  forallb (free_of slash) segs = true ->
  _clean_file_path (Str.join [slash] segs) repo_name
  = if str_eqb (hd [] segs) repo_name
    then Str.join [slash] (tl segs)
    else Str.join [slash] segs.
Proof.
  intros Hne Hfree. unfold _clean_file_path.
  rewrite split_join by assumption.
  destruct segs as [|first rest]; [congruence|reflexivity].
Qed.

Lemma clean_file_path_segments_witness :
  let segs := [py "myrepo"; py "src"; py "App.kt"] in
  segs <> [] /\ forallb (free_of slash) segs = true /\
  _clean_file_path (py "myrepo/src/App.kt") (py "myrepo") = py "src/App.kt".
Proof.
  split; [discriminate|]. split; [reflexivity|].
  exact (clean_file_path_segments
           [py "myrepo"; py "src"; py "App.kt"] (py "myrepo")
           ltac:(discriminate) eq_refl).
Defined.

(** Every path is such a sequence of segments, in one way only. *)
Lemma path_segments (path : str) :
  Str.split slash path <> [] /\
  forallb (free_of slash) (Str.split slash path) = true /\
  Str.join [slash] (Str.split slash path) = path.
Proof.
  split; [apply split_nonempty|]. split; [apply split_free|apply join_split].
Qed.

Example clean_file_path_other :
  _clean_file_path (py "other/App.kt") (py "myrepo") = py "other/App.kt".
Proof. reflexivity. Qed.

End Paths.

(** ** Binary64 division of two counts *)

Local Open Scope Z_scope.

Lemma digits2_pos_bounds p :
  2 ^ (Zpos (digits2_pos p) - 1) <= Zpos p < 2 ^ Zpos (digits2_pos p).
Proof.
  induction p as [p IH|p IH|]; cbn [digits2_pos].
  - rewrite Pos2Z.inj_succ.
    replace (Z.succ (Zpos (digits2_pos p)) - 1) with (Z.succ (Zpos (digits2_pos p) - 1)) by lia.
    rewrite !Z.pow_succ_r by lia. lia.
  - rewrite Pos2Z.inj_succ.
    replace (Z.succ (Zpos (digits2_pos p)) - 1) with (Z.succ (Zpos (digits2_pos p) - 1)) by lia.
    rewrite !Z.pow_succ_r by lia. lia.
  - simpl. lia.
Qed.

Lemma digits_of_range p d :
  2 ^ (d - 1) <= Zpos p < 2 ^ d -> Zpos (digits2_pos p) = d.
Proof.
  intros [Hlo Hhi]. pose proof (digits2_pos_bounds p) as [Hlo' Hhi'].
  set (d' := Zpos (digits2_pos p)) in *.
  destruct (Z.lt_trichotomy d' d) as [Hlt|[Heq|Hgt]]; [|exact Heq|].
  - assert (2 ^ d' <= 2 ^ (d - 1)) by (apply Z.pow_le_mono_r; lia). lia.
  - assert (2 ^ d <= 2 ^ (d' - 1)) by (apply Z.pow_le_mono_r; lia). lia.
Qed.

Lemma Zdigits2_53 m : 2 ^ 52 <= m < 2 ^ 53 -> Zdigits2 m = 53.
Proof.
  intros Hm. destruct m as [|p|p]; try lia. simpl. now apply digits_of_range.
Qed.

Lemma Zdigits2_54 m : 2 ^ 53 <= m < 2 ^ 54 -> Zdigits2 m = 54.
Proof.
  intros Hm. destruct m as [|p|p]; try lia. simpl. now apply digits_of_range.
Qed.

(** A mantissa of 53 digits with exact location is left as it is. *)
Lemma round_canonical m e :
  2 ^ 52 <= Zpos m < 2 ^ 53 -> -1021 <= e <= 971 ->
  binary_round_aux 53 1024 false (Zpos m) e loc_Exact = S754_finite false m e.
Proof.
  intros Hm He. unfold binary_round_aux, shr_fexp.
  rewrite (Zdigits2_53 (Zpos m) Hm).
  unfold fexp, emin.
  replace (Z.max (53 + e - 53) (3 - 1024 - 53) - e) with 0 by lia.
  cbn [shr shr_record_of_loc shr_m loc_of_shr_record round_nearest_even].
  rewrite (Zdigits2_53 (Zpos m) Hm).
  replace (Z.max (53 + e - 53) (3 - 1024 - 53) - e) with 0 by lia.
  cbn [shr shr_m].
  destruct (Z.leb_spec e (1024 - 53)); [reflexivity|lia].
Qed.
Lemma binary_round_aux_tail m e l :
  binary_round_aux 53 1024 false m e l
  = let '(mrs, e') := shr_fexp 53 1024 m e l in
    round_tail (shr_m mrs) (loc_of_shr_record mrs) e'.
Proof.
  unfold binary_round_aux, round_tail.
  now destruct (shr_fexp 53 1024 m e l) as [mrs e'].
Qed.

Lemma loc_record m l : loc_of_shr_record (shr_record_of_loc m l) = l.
Proof. now destruct l as [|[| |]]. Qed.

Lemma shr_m_record m l : shr_m (shr_record_of_loc m l) = m.
Proof. now destruct l as [|[| |]]. Qed.

Lemma shr_fexp_53 m e l :
  2 ^ 52 <= m < 2 ^ 53 -> -1074 <= e ->
  shr_fexp 53 1024 m e l = (shr_record_of_loc m l, e).
Proof.
  intros Hm He. unfold shr_fexp. rewrite (Zdigits2_53 m Hm).
  unfold fexp, emin.
  replace (Z.max (53 + e - 53) (3 - 1024 - 53) - e) with 0 by lia.
  reflexivity.
Qed.

Lemma shr_fexp_54 m e l :
  2 ^ 53 <= m < 2 ^ 54 -> -1075 <= e ->
  shr_fexp 53 1024 m e l = (shr_1 (shr_record_of_loc m l), e + 1).
Proof.
  intros Hm He. unfold shr_fexp. rewrite (Zdigits2_54 m Hm).
  unfold fexp, emin.
  replace (Z.max (54 + e - 53) (3 - 1024 - 53) - e) with 1 by lia.
  reflexivity.
Qed.

Lemma half_below q num den :
  0 <= num -> 2 * num <= den ->
  (2 * q - 1) * den <= 2 * (q * den + num) <= (2 * q + 1) * den.
Proof. intros. split; ring_simplify; lia. Qed.

Lemma half_above q num den :
  num < den -> den <= 2 * num ->
  (2 * (q + 1) - 1) * den <= 2 * (q * den + num) <= (2 * (q + 1) + 1) * den.
Proof. intros. split; ring_simplify; lia. Qed.

(** Rounding a mantissa of 53 digits to nearest: the mantissa that comes
    out is within one half of the mantissa and its remainder, the exponent
    one higher when the rounding carries. *)
Lemma round_tail_53 q l e num den :
  2 ^ 52 <= q < 2 ^ 53 -> -1074 <= e <= 970 ->
  0 <= num < den -> loc_of num den l ->
  exists M j,
    round_tail q l e = S754_finite false M (e + j) /\
    0 <= j <= 1 /\
    2 ^ 52 <= Zpos M < 2 ^ 53 /\
    (2 * Zpos M - 1) * 2 ^ j * den <= 2 * (q * den + num)
      <= (2 * Zpos M + 1) * 2 ^ j * den.
Proof.
  intros Hq He Hnum Hl.
  set (M0 := round_nearest_even q l).
  assert (HM0 : (M0 = q \/ M0 = q + 1) /\
                (2 * M0 - 1) * den <= 2 * (q * den + num) <= (2 * M0 + 1) * den).
  { unfold M0. destruct l as [|[| |]]; cbn [round_nearest_even loc_of] in *.
    - subst num. split; [now left|apply half_below; lia].
    - destruct Hl as [Hpos Hc]. apply Z.compare_eq in Hc.
      destruct (Z.even q);
        (split; [tauto|first [apply half_below; lia|apply half_above; lia]]).
    - destruct Hl as [Hpos Hc]. rewrite Z.compare_lt_iff in Hc.
      split; [now left|apply half_below; lia].
    - destruct Hl as [Hpos Hc]. rewrite Z.compare_gt_iff in Hc.
      split; [now right|apply half_above; lia]. }
  destruct HM0 as [Hcase Hbound]. unfold round_tail. fold M0.
  destruct (Z_lt_le_dec M0 (2 ^ 53)) as [Hlt|Hge].
  - rewrite shr_fexp_53 by lia. cbn [shr_m shr_record_of_loc].
    destruct M0 as [|M|M]; try lia.
    exists M, 0. rewrite Z.add_0_r.
    destruct (Z.leb_spec e (1024 - 53)); [|lia].
    repeat split; try lia. all: rewrite Z.pow_0_r, Z.mul_1_r; lia.
  - assert (E : M0 = 2 ^ 53) by lia. rewrite E in *.
    rewrite shr_fexp_54 by lia.
    change (shr_m (shr_1 (shr_record_of_loc (2 ^ 53) loc_Exact)))
      with (Zpos (2 ^ 52)).
    cbv iota.
    exists (2 ^ 52)%positive, 1.
    destruct (Z.leb_spec (e + 1) (1024 - 53)); [|lia].
    repeat split; lia.
Qed.

Lemma shr_1_loc q l num den :
  0 < q -> 0 <= num < den -> loc_of num den l ->
  exists b,
    (b = 0 \/ b = 1) /\
    q = 2 * shr_m (shr_1 (shr_record_of_loc q l)) + b /\
    loc_of (b * den + num) (2 * den)
      (loc_of_shr_record (shr_1 (shr_record_of_loc q l))).
Proof.
  intros Hq Hnum Hl.
  destruct l as [|c]; cbn [loc_of] in Hl.
  - subst num.
    destruct q as [|[p|p|]|p]; try lia;
      cbn [shr_record_of_loc shr_1 orb shr_m loc_of_shr_record loc_of].
    + exists 1. split; [now right|]. split; [lia|]. split; [lia|].
      apply Z.compare_eq_iff. lia.
    + exists 0. split; [now left|]. split; lia.
    + exists 1. split; [now right|]. split; [lia|]. split; [lia|].
      apply Z.compare_eq_iff. lia.
  - destruct Hl as [Hpos Hc].
    assert (Hs : forall m,
              shr_1 (shr_record_of_loc m (loc_Inexact c))
              = shr_1 {| shr_m := m; shr_r := false; shr_s := true |})
      by (intros m; now destruct c, m as [|[?|?|]|[?|?|]]).
    rewrite Hs. clear Hs Hc c.
    destruct q as [|[p|p|]|p]; try lia;
      cbn [shr_1 orb shr_m loc_of_shr_record loc_of].
    + exists 1. split; [now right|]. split; [lia|]. split; [lia|].
      apply Z.compare_gt_iff. lia.
    + exists 0. split; [now left|]. split; [lia|]. split; [lia|].
      apply Z.compare_lt_iff. lia.
    + exists 1. split; [now right|]. split; [lia|]. split; [lia|].
      apply Z.compare_gt_iff. lia.
Qed.

Lemma new_location_spec den num :
  0 <= num < den -> loc_of num den (new_location den num).
Proof.
  intros Hnum. unfold new_location, new_location_even, new_location_odd.
  destruct (Z.even den) eqn:Ev; destruct (Z.eqb_spec num 0) as [E|E];
    cbn [loc_of]; try assumption; (split; [lia|]).
  - reflexivity.
  - assert (Hodd : Z.odd den = true) by (now rewrite <- Z.negb_even, Ev).
    apply Z.odd_spec in Hodd as [h Hh].
    destruct (Z.compare_spec (2 * num + 1) den) as [C|C|C];
      [apply Z.compare_lt_iff|apply Z.compare_lt_iff|apply Z.compare_gt_iff];
      lia.
Qed.

(** Division of two positive binary64 numbers in canonical form: the
    quotient is the canonical number whose mantissa is within one half of
    the exact one. *)
Lemma div_error m1 e1 m2 e2 :
  2 ^ 52 <= Zpos m1 < 2 ^ 53 -> 2 ^ 52 <= Zpos m2 < 2 ^ 53 ->
  -52 <= e1 <= 0 -> -52 <= e2 <= 0 ->
  exists M j,
    SFdiv 53 1024 (S754_finite false m1 e1) (S754_finite false m2 e2)
    = S754_finite false M (e1 - e2 - 53 + j) /\
    0 <= j <= 2 /\
    2 ^ 52 <= Zpos M < 2 ^ 53 /\
    (2 * Zpos M - 1) * 2 ^ j * Zpos m2 <= 2 ^ 54 * Zpos m1
      <= (2 * Zpos M + 1) * 2 ^ j * Zpos m2.
Proof.
  intros H1 H2 He1 He2.
  unfold SFdiv, SFdiv_core_binary.
  rewrite (Zdigits2_53 _ H1), (Zdigits2_53 _ H2).
  unfold fexp, emin.
  replace (Z.min (Z.max (53 + e1 - (53 + e2) - 53) (3 - 1024 - 53)) (e1 - e2))
    with (e1 - e2 - 53) by lia.
  replace (e1 - e2 - (e1 - e2 - 53)) with 53 by lia.
  cbv iota. rewrite Z.shiftl_mul_pow2 by lia.
  pose proof (Z_div_mod (Zpos m1 * 2 ^ 53) (Zpos m2) ltac:(lia)) as Hdiv.
  destruct (Z.div_eucl (Zpos m1 * 2 ^ 53) (Zpos m2)) as [q r].
  destruct Hdiv as [Hqr Hr]. cbn [xorb].
  pose proof (new_location_spec (Zpos m2) r Hr) as Hloc.
  set (l := new_location (Zpos m2) r) in *. clearbody l.
  set (e := e1 - e2 - 53).
  assert (Hq : 2 ^ 52 <= q < 2 ^ 54) by nia.
  rewrite binary_round_aux_tail.
  destruct (Z_lt_le_dec q (2 ^ 53)) as [Hlt|Hge].
  - rewrite shr_fexp_53 by lia. rewrite shr_m_record, loc_record.
    destruct (round_tail_53 q l e r (Zpos m2) ltac:(lia) ltac:(lia) Hr Hloc)
      as (M & j & E & Hj & HM & Hb).
    exists M, j. rewrite E. repeat split; try lia.
  - rewrite shr_fexp_54 by lia.
    destruct (shr_1_loc q l r (Zpos m2) ltac:(lia) Hr Hloc)
      as (b & Hb & Hq2 & Hloc').
    set (mrs := shr_1 (shr_record_of_loc q l)) in *. clearbody mrs.
    destruct (round_tail_53 (shr_m mrs) (loc_of_shr_record mrs) (e + 1)
                (b * Zpos m2 + r) (2 * Zpos m2)
                ltac:(lia) ltac:(lia) ltac:(nia) Hloc')
      as (M & j & E & Hj & HM & Hbd).
    exists M, (1 + j). rewrite E.
    replace (e + 1 + j) with (e + (1 + j)) by lia.
    rewrite Z.pow_add_r by lia. change (2 ^ 1) with 2.
    repeat split; try lia; nia.
Qed.

Lemma iter_xO p d : Zpos (Pos.iter xO p d) = Zpos p * 2 ^ Zpos d.
Proof.
  induction d as [|d IH] using Pos.peano_ind.
  - simpl. lia.
  - rewrite Pos.iter_succ, Pos2Z.inj_xO, IH, Pos2Z.inj_succ,
      Z.pow_succ_r by lia. lia.
Qed.

(** [float(z)] for a positive integer below [2^53]: no rounding. *)
Lemma of_int_canonical z :
  0 < z < 2 ^ 53 ->
  exists m a,
    Float64.of_int z = S754_finite false m (- a) /\
    0 <= a <= 52 /\
    Zpos m = z * 2 ^ a /\
    2 ^ 52 <= Zpos m < 2 ^ 53.
Proof.
  intros Hz. destruct z as [|p|p]; try lia.
  unfold Float64.of_int, Float64.prec, Float64.emax, binary_normalize,
    binary_round, shl_align.
  pose proof (digits2_pos_bounds p) as Hd.
  set (d := Zpos (digits2_pos p)) in *.
  assert (Hd53 : 1 <= d <= 53).
  { split; [unfold d; lia|].
    destruct (Z_le_gt_dec d 53) as [|Hgt]; [assumption|].
    assert (2 ^ 53 <= 2 ^ (d - 1)) by (apply Z.pow_le_mono_r; lia). lia. }
  unfold fexp, emin.
  replace (Z.max (d + 0 - 53) (3 - 1024 - 53) - 0) with (d - 53) by lia.
  replace (Z.max (d + 0 - 53) (3 - 1024 - 53)) with (d - 53) by lia.
  destruct (d - 53) as [|x|x] eqn:Ex; try lia.
  - exists p, 0. assert (d = 53) by lia.
    assert (Hp : 2 ^ 52 <= Zpos p < 2 ^ 53).
    { replace 52 with (d - 1) by lia. replace 53 with d by lia. exact Hd. }
    rewrite round_canonical by (try exact Hp; lia).
    repeat split; try lia.
  - exists (Pos.iter xO p x), (Zpos x).
    assert (Hp : 2 ^ 52 <= Zpos (Pos.iter xO p x) < 2 ^ 53).
    { rewrite iter_xO.
      assert (E52 : 2 ^ 52 = 2 ^ (d - 1) * 2 ^ Zpos x)
        by (rewrite <- Z.pow_add_r by lia; f_equal; lia).
      assert (E53 : 2 ^ 53 = 2 ^ d * 2 ^ Zpos x)
        by (rewrite <- Z.pow_add_r by lia; f_equal; lia).
      rewrite E52, E53.
      assert (0 < 2 ^ Zpos x) by (apply Z.pow_pos_nonneg; lia).
      split; [apply Z.mul_le_mono_nonneg_r; lia
             |apply Z.mul_lt_mono_pos_r; lia]. }
    rewrite round_canonical by (try exact Hp; lia).
    change (Zneg x) with (- Zpos x).
    repeat split; try lia. apply iter_xO.
Qed.

Lemma of_int_zero : Float64.of_int 0 = S754_zero false.
Proof. reflexivity. Qed.

Lemma cancel_le P a b : 0 < P -> a * P <= b * P -> a <= b.
Proof. intros HP H. apply Z.mul_le_mono_pos_r in H; assumption. Qed.

(** The three ways the quotient compares with the literal. *)
Lemma quotient_small k n M P T :
  0 <= k -> 0 < n -> 0 < P -> 1 <= T -> M < 2 ^ 53 ->
  2 ^ 54 * (k * (2 * P * T)) <= (2 * M + 1) * (n * P) ->
  10 * k < 7 * n.
Proof.
  intros Hk Hn HP HT HM H.
  assert (H1 : 2 ^ 55 * (k * T) <= (2 * M + 1) * n).
  { apply (cancel_le P); [assumption|]. 
    replace (2 ^ 55 * (k * T) * P) with (2 ^ 54 * (k * (2 * P * T))) by ring.
    replace ((2 * M + 1) * n * P) with ((2 * M + 1) * (n * P)) by ring.
    exact H. }
  assert (H2 : (2 * M + 1) * n <= (2 ^ 54 - 1) * n)
    by (apply Z.mul_le_mono_nonneg_r; lia).
  assert (H3 : k * 1 <= k * T) by (apply Z.mul_le_mono_nonneg_l; lia).
  lia.
Qed.

Lemma quotient_large k n M P T :
  0 <= k -> 0 < n -> 0 < P -> 1 <= T -> 2 ^ 52 <= M ->
  (2 * M - 1) * (n * (2 * P * T)) <= 2 ^ 54 * (k * P) ->
  7 * n <= 10 * k.
Proof.
  intros Hk Hn HP HT HM H.
  assert (H1 : (2 * M - 1) * (n * T) <= 2 ^ 53 * k).
  { apply (cancel_le (2 * P)); [lia|].
    replace ((2 * M - 1) * (n * T) * (2 * P))
      with ((2 * M - 1) * (n * (2 * P * T))) by ring.
    replace (2 ^ 53 * k * (2 * P)) with (2 ^ 54 * (k * P)) by ring.
    exact H. }
  assert (H2 : (2 ^ 53 - 1) * (n * T) <= (2 * M - 1) * (n * T)).
  { apply Z.mul_le_mono_nonneg_r; [|lia].
    apply Z.mul_nonneg_nonneg; lia. }
  assert (H3 : n * 1 <= n * T) by (apply Z.mul_le_mono_nonneg_l; lia).
  lia.
Qed.

Lemma quotient_level k n M P :
  0 <= k -> 0 < n <= 10 ^ 15 -> 0 < P ->
  (2 * M - 1) * (n * P) <= 2 ^ 54 * (k * P) <= (2 * M + 1) * (n * P) ->
  (M <? mantissa_0_7) = (10 * k <? 7 * n).
Proof.
  intros Hk Hn HP [Hlo Hhi].
  assert (Hlo' : (2 * M - 1) * n <= 2 ^ 54 * k).
  { apply (cancel_le P); [assumption|].
    now replace ((2 * M - 1) * n * P) with ((2 * M - 1) * (n * P)) by ring;
      replace (2 ^ 54 * k * P) with (2 ^ 54 * (k * P)) by ring. }
  assert (Hhi' : 2 ^ 54 * k <= (2 * M + 1) * n).
  { apply (cancel_le P); [assumption|].
    now replace ((2 * M + 1) * n * P) with ((2 * M + 1) * (n * P)) by ring;
      replace (2 ^ 54 * k * P) with (2 ^ 54 * (k * P)) by ring. }
  unfold mantissa_0_7.
  destruct (Z.ltb_spec M 6305039478318694) as [HM|HM];
    destruct (Z.ltb_spec (10 * k) (7 * n)) as [Hr|Hr]; try reflexivity; exfalso.
  - assert ((2 * M + 1) * n <= (2 * 6305039478318694 - 1) * n)
      by (apply Z.mul_le_mono_nonneg_r; lia).
    lia.
  - assert ((2 * 6305039478318694 - 1) * n <= (2 * M - 1) * n)
      by (apply Z.mul_le_mono_nonneg_r; lia).
    lia.
Qed.

(** Python's [k / n < 0.7] on counts of bytes: for at most [10^15] bytes
    the binary64 comparison agrees with the comparison of the exact ratio
    with seven tenths. *)
Lemma true_div_below k n :
  0 <= k <= n -> 0 < n <= 10 ^ 15 ->
  Float64.ltb (Float64.div (Float64.of_int k) (Float64.of_int n))
    Float64.lit_0_7
  = (10 * k <? 7 * n).
Proof.
  intros Hk Hn.
  destruct (of_int_canonical n ltac:(lia)) as (m2 & a2 & E2 & Ha2 & Hm2 & Hr2).
  rewrite E2.
  destruct (Z.eq_dec k 0) as [->|Hk0].
  { rewrite of_int_zero.
    change (Float64.ltb (Float64.div _ _) _) with true.
    symmetry. apply Z.ltb_lt. lia. }
  destruct (of_int_canonical k ltac:(lia)) as (m1 & a1 & E1 & Ha1 & Hm1 & Hr1).
  rewrite E1. unfold Float64.div, Float64.prec, Float64.emax.
  destruct (div_error m1 (- a1) m2 (- a2) Hr1 Hr2 ltac:(lia) ltac:(lia))
    as (M & j & E & Hj & HM & Hb).
  rewrite E. unfold Float64.ltb, SFltb, Float64.lit_0_7, SFcompare.
  rewrite Hm1, Hm2 in Hb.
  assert (HP1 : 0 < 2 ^ a1) by (apply Z.pow_pos_nonneg; lia).
  assert (HP2 : 0 < 2 ^ a2) by (apply Z.pow_pos_nonneg; lia).
  assert (HPj : 0 < 2 ^ j) by (apply Z.pow_pos_nonneg; lia).
  destruct (Z.compare_spec (- a1 - - a2 - 53 + j) (-53)) as [C|C|C].
  - (* same exponent *)
    assert (Ea : a1 = a2 + j) by lia.
    rewrite Pos.compare_cont_spec. cbn [Pos.switch_Eq].
    rewrite <- (quotient_level k n (Zpos M) (2 ^ j * 2 ^ a2)); try lia.
    + unfold mantissa_0_7, Z.ltb. cbn [Z.compare].
      now destruct (M ?= 6305039478318694)%positive.
    + rewrite Ea, Z.pow_add_r in Hb by lia.
      destruct Hb as [Hlo Hhi]. split.
      * replace ((2 * Zpos M - 1) * (n * (2 ^ j * 2 ^ a2)))
          with ((2 * Zpos M - 1) * 2 ^ j * (n * 2 ^ a2)) by ring.
        replace (2 ^ 54 * (k * (2 ^ j * 2 ^ a2)))
          with (2 ^ 54 * (k * (2 ^ a2 * 2 ^ j))) by ring.
        exact Hlo.
      * replace ((2 * Zpos M + 1) * (n * (2 ^ j * 2 ^ a2)))
          with ((2 * Zpos M + 1) * 2 ^ j * (n * 2 ^ a2)) by ring.
        replace (2 ^ 54 * (k * (2 ^ j * 2 ^ a2)))
          with (2 ^ 54 * (k * (2 ^ a2 * 2 ^ j))) by ring.
        exact Hhi.
  - (* a lower exponent *)
    assert (Ea : a1 = (a2 + j) + 1 + (a1 - a2 - j - 1)) by lia.
    assert (HT : 1 <= 2 ^ (a1 - a2 - j - 1))
      by (change 1 with (2 ^ 0) at 1; apply Z.pow_le_mono_r; lia).
    destruct (Z.ltb_spec (10 * k) (7 * n)) as [|Hr]; [reflexivity|exfalso].
    apply (Z.lt_irrefl (7 * n)). apply Z.le_lt_trans with (10 * k); [exact Hr|].
    apply (quotient_small k n (Zpos M) (2 ^ j * 2 ^ a2) (2 ^ (a1 - a2 - j - 1)));
      try lia.
    destruct Hb as [_ Hhi].
    rewrite Ea, !Z.pow_add_r in Hhi by lia. change (2 ^ 1) with 2 in Hhi.
    replace (2 ^ 54 * (k * (2 * (2 ^ j * 2 ^ a2) * 2 ^ (a1 - a2 - j - 1))))
      with (2 ^ 54 * (k * (2 ^ a2 * 2 ^ j * 2 * 2 ^ (a1 - a2 - j - 1)))) by ring.
    replace ((2 * Zpos M + 1) * (n * (2 ^ j * 2 ^ a2)))
      with ((2 * Zpos M + 1) * 2 ^ j * (n * 2 ^ a2)) by ring.
    exact Hhi.
  - (* a higher exponent *)
    assert (Ea : a2 + j = a1 + 1 + (a2 + j - a1 - 1)) by lia.
    assert (HT : 1 <= 2 ^ (a2 + j - a1 - 1))
      by (change 1 with (2 ^ 0) at 1; apply Z.pow_le_mono_r; lia).
    destruct (Z.ltb_spec (10 * k) (7 * n)) as [Hr|]; [exfalso|reflexivity].
    apply (Z.lt_irrefl (10 * k)). apply Z.lt_le_trans with (7 * n); [exact Hr|].
    apply (quotient_large k n (Zpos M) (2 ^ a1) (2 ^ (a2 + j - a1 - 1)));
      try lia.
    destruct Hb as [Hlo _].
    replace ((2 * Zpos M - 1) * 2 ^ j * (n * 2 ^ a2))
      with ((2 * Zpos M - 1) * (n * 2 ^ (a2 + j))) in Hlo
      by (rewrite Z.pow_add_r by lia; ring).
    rewrite Ea, !Z.pow_add_r in Hlo by lia. change (2 ^ 1) with 2 in Hlo.
    replace ((2 * Zpos M - 1) * (n * (2 * 2 ^ a1 * 2 ^ (a2 + j - a1 - 1))))
      with ((2 * Zpos M - 1) * (n * (2 ^ a1 * 2 * 2 ^ (a2 + j - a1 - 1)))) by ring.
    exact Hlo.
Qed.

(** ** The classifier *)

(** The literal is the binary64 number nearest to seven tenths. *)
Example lit_0_7_nearest :
  Float64.div (Float64.of_int 7) (Float64.of_int 10) = Float64.lit_0_7.
Proof. vm_compute. reflexivity. Qed.

Lemma is_text_char_spec b :
  is_text_char b = true
  <-> (32 <= b <= 127 \/ b = 9 \/ b = 10 \/ b = 13)%N.
Proof.
  unfold is_text_char.
  rewrite !orb_true_iff, andb_true_iff, !N.leb_le, !N.eqb_eq. tauto.
Qed.

Lemma has_null_spec content : has_null content = true <-> In 0%N content.
Proof.
  unfold has_null. rewrite existsb_exists. split.
  - intros (x & Hin & Hx). apply N.eqb_eq in Hx. now subst x.
  - intros Hin. exists 0%N. split; [assumption|reflexivity].
Qed.

Lemma text_chars_le content : (text_chars content <= List.length content)%nat.
Proof. unfold text_chars. apply filter_length_le. Qed.

Lemma is_binary_unfold content :
  has_null content = false -> content <> [] ->
  _is_binary content
  = Float64.ltb
      (Float64.div (Float64.of_int (Z.of_nat (text_chars content)))
                   (Float64.of_int (Z.of_nat (List.length content))))
      Float64.lit_0_7.
Proof.
  intros Hnull Hne. unfold _is_binary. rewrite Hnull.
  destruct content; [congruence|reflexivity].
Qed.

(** C4. [_is_binary] returns true for every byte sequence that holds a
    zero byte, and false for the empty sequence. For every non-empty
    sequence without a zero byte it returns true exactly when the fraction
    of its bytes that are printable ASCII (32 to 127) or tab (9), line
    feed (10) or carriage return (13) is strictly below seven tenths; a
    fraction of seven tenths or more classifies as text. The sequence is
    taken to have at most [10^15] bytes, a bound of the model: it is far
    above what a [bytes] object can hold, and below it the binary64
    quotient of line 79 compares with the literal as the exact fraction
    compares with seven tenths. *)
Theorem is_binary_spec (content : bytes) :
  (In 0%N content -> _is_binary content = true) /\
  (content = [] -> _is_binary content = false) /\
  (~ In 0%N content -> content <> [] ->
   Z.of_nat (List.length content) <= 10 ^ 15 ->
     (_is_binary content = true
      <-> 10 * Z.of_nat (text_chars content) < 7 * Z.of_nat (List.length content)))
  /\ (forall b, is_text_char b = true
                <-> (32 <= b <= 127 \/ b = 9 \/ b = 10 \/ b = 13)%N).
Proof.
  split; [|split; [|split]].
  - intros Hin. apply has_null_spec in Hin. unfold _is_binary. now rewrite Hin.
  - intros ->. reflexivity.
  - intros Hnull Hne Hlen.
    assert (Hn : has_null content = false).
    { destruct (has_null content) eqn:E; [|reflexivity].
      now apply has_null_spec in E. }
    rewrite (is_binary_unfold content Hn Hne).
    pose proof (text_chars_le content) as Hle.
    assert (0 < Z.of_nat (List.length content)).
    { destruct content; [congruence|]. simpl List.length. lia. }
    rewrite true_div_below by lia.
    apply Z.ltb_lt.
  - apply is_text_char_spec.
Qed.

Lemma is_binary_spec_witness :
  let content := repeat 65%N 7 ++ repeat 200%N 3 in
  Z.of_nat (List.length content) <= 10 ^ 15 /\
  _is_binary content = false /\
  _is_binary (repeat 65%N 6 ++ repeat 200%N 4) = true.
Proof.
  cbv zeta. split; [vm_compute; discriminate|].
  split.
  - destruct (is_binary_spec (repeat 65%N 7 ++ repeat 200%N 3))
      as (_ & _ & H & _).
    destruct (_is_binary (repeat 65%N 7 ++ repeat 200%N 3)); [|reflexivity].
    exfalso.
    assert (Hlt := proj1 (H ltac:(cbn; intuition discriminate)
                            ltac:(discriminate)
                            ltac:(vm_compute; discriminate)) eq_refl).
    vm_compute in Hlt. discriminate Hlt.
  - vm_compute. reflexivity.
Defined.

Lemma existsb_repeat {A} (f : A -> bool) x n :
  f x = false -> existsb f (repeat x n) = false.
Proof. intros Hx. induction n; simpl; [reflexivity|now rewrite Hx]. Qed.

Lemma filter_repeat_true {A} (f : A -> bool) x n :
  f x = true -> filter f (repeat x n) = repeat x n.
Proof. intros Hx. induction n; simpl; [reflexivity|now rewrite Hx, IHn]. Qed.

Lemma filter_repeat_false {A} (f : A -> bool) x n :
  f x = false -> filter f (repeat x n) = [].
Proof. intros Hx. induction n; simpl; [reflexivity|now rewrite Hx]. Qed.

Lemma mixed_counts a b :
  has_null (mixed a b) = false /\
  Z.of_nat (text_chars (mixed a b)) = Z.of_N a /\
  Z.of_nat (List.length (mixed a b)) = Z.of_N a + Z.of_N b.
Proof.
  unfold mixed, has_null, text_chars. split; [|split].
  - rewrite existsb_app, !existsb_repeat by reflexivity. reflexivity.
  - rewrite filter_app, filter_repeat_true, filter_repeat_false by reflexivity.
    rewrite app_nil_r, repeat_length. apply N_nat_Z.
  - rewrite length_app, !repeat_length, Nat2Z.inj_add, !N_nat_Z. reflexivity.
Qed.

Lemma mixed_is_binary a b :
  (0 < a)%N ->
  mixed a b <> [] /\
  _is_binary (mixed a b)
  = Float64.ltb
      (Float64.div (Float64.of_int (Z.of_N a))
                   (Float64.of_int (Z.of_N a + Z.of_N b)))
      Float64.lit_0_7.
Proof.
  intros Ha. destruct (mixed_counts a b) as (Hn & Ht & Hl).
  assert (Hne : mixed a b <> []).
  { intros E. rewrite E in Hl. simpl in Hl. lia. }
  split; [exact Hne|].
  now rewrite (is_binary_unfold _ Hn Hne), Ht, Hl.
Qed.

(** Why the model has its bound: of 2,000,000,000,000,003 bytes without
    a zero byte, more than any run can hold, 1,400,000,000,000,002 are
    printable. The fraction is below seven tenths, but the binary64
    quotient of the two counts is the number nearest to it, which is the
    literal [0.7] itself, and the comparison is false. *)
Remark quotient_rounds_up_beyond_bound :
  has_null (mixed 1400000000000002 600000000000001) = false /\
  mixed 1400000000000002 600000000000001 <> [] /\
  10 * Z.of_nat (text_chars (mixed 1400000000000002 600000000000001))
  < 7 * Z.of_nat (List.length (mixed 1400000000000002 600000000000001)) /\
  _is_binary (mixed 1400000000000002 600000000000001) = false.
Proof.
  destruct (mixed_counts 1400000000000002 600000000000001) as (Hn & Ht & Hl).
  destruct (mixed_is_binary 1400000000000002 600000000000001 eq_refl)
    as (Hne & Hb).
  split; [exact Hn|]. split; [exact Hne|]. split.
  - rewrite Ht, Hl. reflexivity.
  - rewrite Hb. vm_compute. reflexivity.
Qed.

Local Close Scope Z_scope.

(** ** The matcher *)

Section EngineFacts.

Variable A : Type.
Implicit Types (k : Re.cont A) (p : char -> bool) (s : str) (g : Re.caps).

Lemma strip_prefix_app w s s1 :
  Str.strip_prefix w s = Some s1 -> s = w ++ s1.
Proof.
  revert s; induction w as [|x w IH]; intros [|c t]; simpl; try congruence.
  destruct (N.eqb_spec c x) as [->|_]; [|discriminate].
  intros E. now rewrite (IH _ E).
Qed.

Lemma strip_prefix_of_app w s : Str.strip_prefix w (w ++ s) = Some s.
Proof. induction w; simpl; [reflexivity|]. now rewrite N.eqb_refl. Qed.

Lemma take_drop_while p s : take_while p s ++ drop_while p s = s.
Proof.
  induction s as [|c t IH]; simpl; [reflexivity|].
  destruct (p c); simpl; [now rewrite IH|reflexivity].
Qed.

Lemma take_while_all p s : forallb p (take_while p s) = true.
Proof.
  induction s as [|c t IH]; simpl; [reflexivity|].
  destruct (p c) eqn:E; simpl; [now rewrite E|reflexivity].
Qed.

Lemma drop_while_head p s c t : drop_while p s = c :: t -> p c = false.
Proof.
  induction s as [|x s IH]; simpl; [discriminate|].
  destruct (p x) eqn:E; [exact IH|]. intros [= <- <-]. exact E.
Qed.

Lemma take_while_app p w s :
  forallb p w = true -> take_while p (w ++ s) = w ++ take_while p s.
Proof.
  induction w as [|x w IH]; simpl; [reflexivity|].
  rewrite andb_true_iff. intros [-> Hw]. now rewrite IH.
Qed.

Lemma drop_while_app p w s :
  forallb p w = true -> drop_while p (w ++ s) = drop_while p s.
Proof.
  induction w as [|x w IH]; simpl; [reflexivity|].
  rewrite andb_true_iff. intros [-> Hw]. now rewrite IH.
Qed.

Lemma firstn_prefix (a b : str) :
  firstn (List.length (a ++ b) - List.length b) (a ++ b) = a.
Proof.
  rewrite length_app, Nat.add_sub.
  rewrite firstn_app, Nat.sub_diag, firstn_all. simpl. apply app_nil_r.
Qed.

(** A literal word matches by comparing characters. *)
Lemma run_word w s g k :
  Re.run (Re.word w) s g k
  = match Str.strip_prefix w s with
    | Some s' => k s' g
    | None => None
    end.
Proof.
  revert s; induction w as [|x w IH]; intros s; simpl; [reflexivity|].
  destruct s as [|c t]; [reflexivity|].
  destruct (N.eqb c x); [apply IH|reflexivity].
Qed.

(** A greedy run gives nothing back when what follows cannot start with a
    character of the run. *)
Lemma greedy_commit p s g k :
  (forall c t g', p c = true -> k (c :: t) g' = None) ->
  Re.greedy p s g k = k (drop_while p s) g.
Proof.
  intros Hk. induction s as [|c t IH]; simpl; [reflexivity|].
  destruct (p c) eqn:E; [|reflexivity].
  rewrite IH, (Hk c t g E). now destruct (k (drop_while p t) g).
Qed.

(** Nor when what follows always succeeds. *)
Lemma greedy_total p s g k :
  (forall s' g', k s' g' <> None) ->
  Re.greedy p s g k = k (drop_while p s) g.
Proof.
  intros Hk. induction s as [|c t IH]; simpl; [reflexivity|].
  destruct (p c) eqn:E; [|reflexivity].
  rewrite IH. destruct (k (drop_while p t) g) eqn:K; [reflexivity|].
  now destruct (Hk _ _ K).
Qed.

(** The lazy run before the closing quote stops at the first quote. *)
Lemma reluctant_close s g k :
  (forall s' g', k s' g' <> None) ->
  Re.reluctant Re.dot s g
    (fun s' g' =>
       match s' with
       | [] => None
       | x :: t => if Re.quote x then k t g' else None
       end)
  = match close_quote s with
    | Some (_, r) => k r g
    | None => None
    end.
Proof.
  intros Hk.
  induction s as [|c t IH]; [reflexivity|].
  cbn [Re.reluctant close_quote].
  destruct (Re.quote c) eqn:Q.
  - destruct (k t g) eqn:E; [reflexivity|]. now destruct (Hk _ _ E).
  - destruct (Re.dot c); [|reflexivity].
    rewrite IH. now destruct (close_quote t) as [[b r]|].
Qed.

Lemma close_quote_app s b r : close_quote s = Some (b, r) -> s = b ++ r.
Proof.
  revert b r; induction s as [|c t IH]; intros b r; simpl; [discriminate|].
  destruct (Re.quote c); [now intros [= <- <-]|].
  destruct (Re.dot c); [|discriminate].
  destruct (close_quote t) as [[b' r']|]; [|discriminate].
  intros [= <- <-]. simpl. now rewrite <- (IH b' r').
Qed.

End EngineFacts.

(** ** What the pattern finds at the start of a text *)

Lemma space_not_quote x : Re.is_space x = true -> Re.quote x = false.
Proof.
  intros Hx. unfold Re.quote.
  destruct (N.eqb_spec x 34) as [->|]; [discriminate Hx|].
  destruct (N.eqb_spec x 39) as [->|]; [discriminate Hx|reflexivity].
Qed.

Lemma firstn_split (s a b : str) :
  s = a ++ b -> firstn (List.length s - List.length b) s = a.
Proof. intros ->. apply firstn_prefix. Qed.

Lemma token_run x t lhs :
  (if Re.not_space x
   then
    Re.greedy Re.not_space t [(1, lhs)]
      (fun (s' : str) (g' : Re.caps) =>
       Some
         {|
           Re.groups :=
             (2, firstn (List.length (x :: t) - List.length s') (x :: t)) :: g';
           Re.after := s'
         |})
   else None) =
  option_map found_of
    match token (x :: t) with
    | Some (v, rest) => Some (lhs, v, rest)
    | None => None
    end.
Proof.
  unfold token. destruct (Re.not_space x); [|reflexivity].
  rewrite greedy_total by discriminate.
  rewrite (firstn_split (x :: t) (x :: take_while Re.not_space t)); [reflexivity|].
  simpl. now rewrite take_drop_while.
Qed.

Lemma match_at_hit s :
  Re.match_at pattern s = option_map found_of (hit s).
Proof.
  unfold Re.match_at, pattern. cbn [Re.run].
  rewrite run_word. unfold hit.
  destruct (Str.strip_prefix sensitive_var s) as [s1|] eqn:E1; [|reflexivity].
  rewrite greedy_commit.
  2:{ intros c t g' Hc. cbn [Re.run].
      destruct (N.eqb_spec c (chr "=")) as [->|]; [discriminate Hc|reflexivity]. }
  cbn [Re.run].
  destruct (drop_while Re.is_space s1) as [|c s2] eqn:E2; [reflexivity|].
  fold equals_sign.
  destruct (N.eqb c equals_sign) eqn:Ec; [|reflexivity].
  rewrite greedy_commit.
  2:{ intros x t g' Hx. cbn [Re.run]. unfold Re.not_space.
      now rewrite Hx, (space_not_quote _ Hx). }
  cbn [Re.run].
  assert (Hs : s = (sensitive_var ++ take_while Re.is_space s1
                      ++ c :: take_while Re.is_space s2)
                   ++ drop_while Re.is_space s2).
  { rewrite (strip_prefix_app _ _ _ E1) at 1.
    rewrite <- (take_drop_while Re.is_space s1) at 1. rewrite E2.
    rewrite <- (take_drop_while Re.is_space s2) at 1.
    now rewrite <- !app_assoc. }
  set (lhs := sensitive_var ++ _ ++ _) in *.
  set (s3 := drop_while Re.is_space s2) in *.
  clearbody lhs s3. subst s. rewrite firstn_prefix.
  destruct s3 as [|x t]; [reflexivity|].
  unfold value. destruct (Re.quote x) eqn:Q.
  - rewrite reluctant_close by discriminate.
    destruct (close_quote t) as [[b r]|] eqn:C.
    + apply close_quote_app in C. subst t.
      change (x :: b ++ r) with ((x :: b) ++ r).
      now rewrite firstn_prefix.
    + apply token_run.
  - apply token_run.
Qed.

Lemma value_app s v rest :
  value s = Some (v, rest) -> s = v ++ rest /\ v <> [].
Proof.
  assert (Htok : token s = Some (v, rest) -> s = v ++ rest /\ v <> []).
  { unfold token. destruct s as [|c t]; [discriminate|].
    destruct (Re.not_space c); [|discriminate].
    intros [= <- <-]. simpl. rewrite take_drop_while. split; [reflexivity|discriminate]. }
  unfold value. destruct s as [|c t]; [discriminate|].
  destruct (Re.quote c); [|exact Htok].
  destruct (close_quote t) as [[b r]|] eqn:C; [|exact Htok].
  intros [= <- <-]. apply close_quote_app in C. subst t.
  split; [reflexivity|discriminate].
Qed.

Lemma hit_app s lhs v rest :
  hit s = Some (lhs, v, rest) -> s = lhs ++ v ++ rest /\ v <> [].
Proof.
  unfold hit.
  destruct (Str.strip_prefix sensitive_var s) as [s1|] eqn:E1; [|discriminate].
  destruct (drop_while Re.is_space s1) as [|c s2] eqn:E2; [discriminate|].
  destruct (N.eqb c equals_sign); [|discriminate].
  destruct (value (drop_while Re.is_space s2)) as [[v' rest']|] eqn:V; [|discriminate].
  intros [= <- <- <-]. apply value_app in V as [V Hv]. split; [|exact Hv].
  rewrite (strip_prefix_app _ _ _ E1).
  rewrite <- (take_drop_while Re.is_space s1) at 1. rewrite E2.
  rewrite <- (take_drop_while Re.is_space s2) at 1. rewrite V.
  cbn. now rewrite <- app_assoc.
Qed.

Lemma scan_from_skip r n s :
  Re.scan_from r n s = Re.scan_from r 0 (skipn n s).
Proof.
  revert n; induction s as [|c t IH]; intros [|n]; try reflexivity.
  simpl. apply IH.
Qed.

Lemma scan_hit s h :
  hit s = Some h ->
  Re.scan pattern s
  = Re.Replace (found_of h) :: Re.scan pattern (Re.after (found_of h)).
Proof.
  destruct h as [[lhs v] rest]. intros Hh.
  pose proof (match_at_hit s) as Hm. rewrite Hh in Hm. simpl in Hm.
  apply hit_app in Hh as [Hs Hv].
  unfold Re.scan. destruct s as [|c t].
  { destruct lhs; [destruct v; [congruence|discriminate]|discriminate]. }
  cbn [Re.scan_from]. rewrite Hm. cbn [Re.after found_of].
  rewrite Hs, app_assoc, length_app, Nat.add_sub.
  destruct (List.length (lhs ++ v)) as [|n] eqn:L.
  { apply length_zero_iff_nil in L. destruct lhs; [simpl in L; congruence|discriminate]. }
  rewrite scan_from_skip. f_equal. f_equal.
  change (skipn n t) with (skipn (S n) (c :: t)).
  rewrite Hs, app_assoc, <- L, skipn_app, Nat.sub_diag, skipn_all. reflexivity.
Qed.

Lemma scan_keep c t :
  hit (c :: t) = None ->
  Re.scan pattern (c :: t) = Re.Keep c :: Re.scan pattern t.
Proof.
  intros Hh. unfold Re.scan. cbn [Re.scan_from].
  now rewrite match_at_hit, Hh.
Qed.

Lemma redact_hit R s lhs v rest :
  hit s = Some (lhs, v, rest) ->
  redact R s = lhs ++ R ++ redact R rest.
Proof.
  intros Hh. unfold redact, Re.sub. rewrite (scan_hit _ _ Hh).
  simpl. now rewrite app_nil_r, <- app_assoc.
Qed.

Lemma redact_keep R c t :
  hit (c :: t) = None -> redact R (c :: t) = c :: redact R t.
Proof.
  intros Hh. unfold redact, Re.sub. now rewrite (scan_keep _ _ Hh).
Qed.

Lemma quote_not_space x : Re.quote x = true -> Re.is_space x = false.
Proof.
  intros Q. destruct (Re.is_space x) eqn:E; [|reflexivity].
  rewrite (space_not_quote _ E) in Q. discriminate.
Qed.

Lemma not_space_iff x : Re.not_space x = true <-> Re.is_space x = false.
Proof. unfold Re.not_space. now destruct (Re.is_space x). Qed.

(** A run stops at once where the text is over or the next character is
    not of the run. *)
Lemma take_while_stop p s :
  match s with [] => True | c :: _ => p c = false end ->
  take_while p s = [] /\ drop_while p s = s.
Proof. destruct s as [|c t]; simpl; [now split|]. now intros ->. Qed.

Lemma close_quote_quoted t b r q1 :
  Re.quote q1 = true ->
  close_quote t = Some (b, r) -> quoted (q1 :: b) /\ t = b ++ r.
Proof.
  intros Q1 C. split; [|now apply close_quote_app].
  revert b r C. induction t as [|c t IH]; intros b r; simpl; [discriminate|].
  destruct (Re.quote c) eqn:Q.
  - intros [= <- <-]. now apply (quoted_intro q1 [] c).
  - destruct (Re.dot c) eqn:D; [|discriminate].
    destruct (close_quote t) as [[b' r']|]; [|discriminate].
    intros [= <- <-]. specialize (IH b' r' eq_refl).
    inversion IH as [q body q2 _ Q2 Hbody [Eq Eb]].
    apply (quoted_intro q1 (c :: body) q2); try assumption.
    simpl. now rewrite D, Q, Hbody.
Qed.

Lemma close_quote_of_quoted body q2 r :
  forallb (fun c => Re.dot c && negb (Re.quote c)) body = true ->
  Re.quote q2 = true ->
  close_quote (body ++ q2 :: r) = Some (body ++ [q2], r).
Proof.
  intros Hb Q2. induction body as [|c body IH]; simpl.
  - now rewrite Q2.
  - simpl in Hb. apply andb_true_iff in Hb as [Hc Hb].
    apply andb_true_iff in Hc as [D Q]. apply negb_true_iff in Q.
    now rewrite Q, D, IH.
Qed.

Lemma value_sound s v rest : value s = Some (v, rest) -> value_of v rest.
Proof.
  assert (Htok : forall x t, s = x :: t ->
            (forall q r, quoted q -> q ++ r <> x :: t) ->
            token s = Some (v, rest) -> value_of v rest).
  { intros x t -> Hq. unfold token.
    destruct (Re.not_space x) eqn:Hx; [|discriminate].
    intros [= <- <-]. apply value_token.
    - discriminate.
    - simpl. now rewrite Hx, take_while_all.
    - destruct (drop_while Re.not_space t) as [|c r] eqn:E; [reflexivity|].
      apply drop_while_head in E. simpl.
      unfold Re.not_space in E. now destruct (Re.is_space c).
    - intros q r Hquoted. simpl. rewrite take_drop_while. now apply Hq. }
  unfold value. destruct s as [|x t]; [discriminate|].
  destruct (Re.quote x) eqn:Q.
  - destruct (close_quote t) as [[b r]|] eqn:C.
    + intros [= <- <-]. apply value_quoted.
      now apply (close_quote_quoted t b r x Q).
    + apply (Htok x t eq_refl).
      intros q r Hquoted E. destruct Hquoted as [q1 body q2 Q1 Q2 Hbody].
      simpl in E. injection E as -> E. subst t.
      rewrite <- app_assoc in C. simpl in C.
      now rewrite close_quote_of_quoted in C.
  - apply (Htok x t eq_refl).
    intros q r Hquoted E. destruct Hquoted as [q1 body q2 Q1 Q2 Hbody].
    simpl in E. injection E as -> E. congruence.
Qed.

Lemma hit_sound s lhs v rest :
  hit s = Some (lhs, v, rest) -> occurrence s lhs v rest.
Proof.
  intros Hh. pose proof (hit_app _ _ _ _ Hh) as [Hs _].
  split; [exact Hs|]. revert Hh. unfold hit.
  destruct (Str.strip_prefix sensitive_var s) as [s1|] eqn:E1; [|discriminate].
  destruct (drop_while Re.is_space s1) as [|c s2] eqn:E2; [discriminate|].
  destruct (N.eqb_spec c equals_sign) as [->|]; [|discriminate].
  destruct (value (drop_while Re.is_space s2)) as [[v' rest']|] eqn:V; [|discriminate].
  intros Hh. injection Hh as <- <- <-. split.
  - apply lhs_intro; apply take_while_all.
  - now apply value_sound in V.
Qed.

Lemma value_of_head v rest :
  value_of v rest -> exists x v', v = x :: v' /\ Re.is_space x = false.
Proof.
  intros [v0 rest0 Hq | v0 rest0 Hne Hns _ _].
  - destruct Hq as [q1 body q2 Q1 _ _].
    exists q1, (body ++ [q2]). split; [reflexivity|now apply quote_not_space].
  - destruct v0 as [|x v']; [congruence|]. exists x, v'. split; [reflexivity|].
    simpl in Hns. apply andb_true_iff in Hns as [Hx _]. now apply not_space_iff.
Qed.

Lemma starts_blank_stop rest :
  starts_blank rest = true ->
  match rest with [] => True | c :: _ => Re.not_space c = false end.
Proof.
  destruct rest as [|c r]; simpl; [trivial|].
  intros E. unfold Re.not_space. now rewrite E.
Qed.

Lemma value_complete v rest :
  value_of v rest -> value (v ++ rest) = Some (v, rest).
Proof.
  intros [v0 rest0 Hq | v0 rest0 Hne Hns Hrest Hnq].
  - destruct Hq as [q1 body q2 Q1 Q2 Hbody]. simpl. rewrite Q1.
    rewrite <- app_assoc. simpl.
    now rewrite close_quote_of_quoted.
  - destruct v0 as [|x v']; [congruence|].
    simpl in Hns. apply andb_true_iff in Hns as [Hx Hv'].
    assert (Htok : token ((x :: v') ++ rest0) = Some (x :: v', rest0)).
    { simpl. rewrite Hx.
      rewrite take_while_app, drop_while_app by assumption.
      destruct (take_while_stop Re.not_space rest0 (starts_blank_stop _ Hrest))
        as [-> ->].
      now rewrite app_nil_r. }
    unfold value. cbn [app]. destruct (Re.quote x) eqn:Q; [|exact Htok].
    destruct (close_quote (v' ++ rest0)) as [[b r]|] eqn:C; [|exact Htok].
    destruct (close_quote_quoted _ _ _ x Q C) as [Hquoted E].
    exfalso. apply (Hnq (x :: b) r Hquoted). simpl. now rewrite E.
Qed.

Lemma hit_complete s lhs v rest :
  occurrence s lhs v rest -> hit s = Some (lhs, v, rest).
Proof.
  intros (-> & Hlhs & Hv). destruct Hlhs as [w1 w2 Hw1 Hw2].
  pose proof (value_complete _ _ Hv) as Hval.
  destruct (value_of_head _ _ Hv) as (x & v' & -> & Hx).
  unfold hit. rewrite <- !app_assoc, strip_prefix_of_app.
  unfold blank in *.
  rewrite take_while_app, drop_while_app by assumption.
  cbn [app drop_while take_while].
  change (Re.is_space equals_sign) with false. cbv iota.
  rewrite N.eqb_refl.
  rewrite take_while_app, drop_while_app by assumption.
  cbn [app drop_while take_while]. rewrite Hx.
  cbn [app] in Hval. rewrite Hval. now rewrite !app_nil_r.
Qed.

(** The direct reading and the words of the specification agree. *)
Lemma hit_iff_occurrence s lhs v rest :
  hit s = Some (lhs, v, rest) <-> occurrence s lhs v rest.
Proof. split; [apply hit_sound|apply hit_complete]. Qed.

Lemma no_hit_no_occurrence s : hit s = None -> ~ occurs s.
Proof.
  intros Hh (lhs & v & rest & Ho). apply hit_complete in Ho. congruence.
Qed.

(** A text starts with one match at most. *)
Lemma occurrence_unique s lhs v rest lhs' v' rest' :
  occurrence s lhs v rest -> occurrence s lhs' v' rest' ->
  lhs = lhs' /\ v = v' /\ rest = rest'.
Proof.
  intros H1 H2. apply hit_complete in H1, H2. rewrite H1 in H2.
  now injection H2 as -> -> ->.
Qed.

Lemma redact_redacted R s : redacted R s (redact R s).
Proof.
  remember (List.length s) as n eqn:Hn.
  revert s Hn. induction n as [n IH] using lt_wf_ind. intros s Hn.
  destruct s as [|c t]; [apply redacted_end|].
  destruct (hit (c :: t)) as [[[lhs v] rest]|] eqn:Hh.
  - rewrite (redact_hit R _ _ _ _ Hh).
    apply (redacted_match R (c :: t) lhs v rest); [now apply hit_sound|].
    apply (IH (List.length rest)); [|reflexivity].
    apply hit_app in Hh as [Hs Hv]. subst n. rewrite Hs, !length_app.
    destruct v; [congruence|simpl; lia].
  - rewrite (redact_keep R _ _ Hh).
    apply redacted_keep; [now apply no_hit_no_occurrence|].
    apply (IH (List.length t)); [subst n; simpl; lia|reflexivity].
Qed.


Lemma replacement_cases ext :
  if is_hint ext
  then exists R, dict_get replacements ext = Some R /\
                 In R (map snd replacements)
  else dict_get replacements ext = None.
Proof.
  unfold is_hint, hints, replacements. cbn [existsb dict_get map snd].
  repeat match goal with
  | |- context [str_eqb ?k ext] => destruct (str_eqb k ext); cbn [orb]
  end; try reflexivity; eexists; (split; [reflexivity|]); cbn; tauto.
Qed.

(** ** Redaction *)

Lemma replacement_plain R :
  In R (map snd replacements) -> plain_token R = true.
Proof.
  cbn [map snd replacements].
  intros [<-|[<-|[<-|[<-|[<-|[]]]]]]; reflexivity.
Qed.

Lemma clean_code_content_redact content ext R :
  dict_get replacements ext = Some R ->
  plain_token R = true /\ _clean_code_content content ext = redact R content.
Proof.
  intros E. pose proof (replacement_cases ext) as Hc.
  destruct (is_hint ext); [|congruence].
  destruct Hc as (R' & E' & Hin). rewrite E in E'. injection E' as <-.
  pose proof (replacement_plain R Hin) as Hp. split; [exact Hp|].
  unfold _clean_code_content. rewrite E.
  destruct R; [discriminate Hp|reflexivity].
Qed.


(** *** Inside a longer identifier *)

Lemma strip_prefix_inside w a b s1 :
  Str.strip_prefix w (a ++ b) = Some s1 ->
  List.length w < List.length a ->
  exists x a', s1 = x :: a' ++ b /\ In x a.
Proof.
  revert a; induction w as [|y w IH]; intros a; simpl.
  - intros [= <-] Hl. destruct a as [|x a]; [simpl in Hl; lia|].
    exists x, a. split; [reflexivity|now left].
  - destruct a as [|x a]; [simpl; lia|]. simpl.
    destruct (N.eqb x y); [|discriminate].
    intros E Hl. destruct (IH a E ltac:(lia)) as (x' & a' & -> & Hin).
    exists x', a'. split; [reflexivity|now right].
Qed.

Lemma no_hit_inside p ps tl :
  forallb plain_char (p :: ps) = true ->
  hit ((p :: ps) ++ sensitive_var ++ tl) = None.
Proof.
  intros Hp. unfold hit. rewrite app_assoc.
  destruct (Str.strip_prefix _ _) as [s1|] eqn:E; [|reflexivity].
  apply strip_prefix_inside in E as (x & a' & -> & Hin).
  2:{ rewrite length_app. simpl. lia. }
  assert (Hx : plain_char x = true).
  { apply in_app_or in Hin as [Hin|Hin].
    - rewrite forallb_forall in Hp. now apply Hp.
    - cbn in Hin. intuition (subst; reflexivity). }
  unfold plain_char in Hx. apply andb_true_iff in Hx as [Hs He].
  apply not_space_iff in Hs. apply negb_true_iff in He.
  cbn [drop_while]. now rewrite Hs, He.
Qed.

(** C10. The pattern is not anchored at a word boundary: when [authKey] is
    only the end of a longer identifier, the characters [prefix] before it
    being neither whitespace nor equals signs, the match inside the
    identifier is still found; for a hint of the fixed set the value
    assigned is replaced by the hint's expression, the prefix and the
    left-hand side are kept, and the redaction goes on after the value. *)
Theorem redaction_inside_identifier
    (file_extension R prefix lhs v rest : str) :
  dict_get replacements file_extension = Some R ->
  forallb plain_char prefix = true ->
  occurrence (lhs ++ v ++ rest) lhs v rest ->
  _clean_code_content (prefix ++ lhs ++ v ++ rest) file_extension
  = prefix ++ lhs ++ R ++ _clean_code_content rest file_extension.
Proof.
  intros E Hp Ho.
  destruct (clean_code_content_redact (prefix ++ lhs ++ v ++ rest) _ _ E)
    as [_ ->].
  destruct (clean_code_content_redact rest _ _ E) as [_ ->].
  induction prefix as [|p ps IH].
  - apply (redact_hit R _ lhs v rest). now apply hit_complete.
  - cbn [app]. rewrite redact_keep.
    + f_equal. apply IH. simpl in Hp. now apply andb_true_iff in Hp.
    + destruct Ho as (_ & Hlhs & _). destruct Hlhs as [w1 w2 _ _].
      rewrite <- !app_assoc. now apply (no_hit_inside p ps).
Qed.

Lemma redaction_inside_identifier_witness :
  let R := py "os.getenv(" ++ dquote ++ py "REPLACEMENT_KEY" ++ dquote ++ py ")" in
  let v := dquote ++ py "secret" ++ dquote in
  dict_get replacements (py ".py") = Some R /\
  forallb plain_char (py "my") = true /\
  occurrence (py "authKey = " ++ v ++ []) (py "authKey = ") v [] /\
  _clean_code_content (py "myauthKey = " ++ v) (py ".py")
  = py "myauthKey = " ++ R.
Proof.
  assert (Ho : occurrence
                 (py "authKey = " ++ (dquote ++ py "secret" ++ dquote) ++ [])
                 (py "authKey = ") (dquote ++ py "secret" ++ dquote) []).
  { apply hit_sound. vm_compute. reflexivity. }
  split; [reflexivity|]. split; [reflexivity|]. split; [exact Ho|].
  exact (redaction_inside_identifier (py ".py")
           (py "os.getenv(" ++ dquote ++ py "REPLACEMENT_KEY" ++ dquote ++ py ")")
           (py "my") (py "authKey = ") (dquote ++ py "secret" ++ dquote) []
           eq_refl eq_refl Ho).
Defined.

(** ** Redacting twice *)

Lemma after_equals_spec s :
  after_equals s = match drop_while Re.is_space s with [] => false | _ => true end.
Proof.
  induction s as [|c t IH]; simpl; [reflexivity|].
  destruct (Re.is_space c); [exact IH|reflexivity].
Qed.

Lemma before_equals_spec s :
  before_equals s
  = match drop_while Re.is_space s with
    | c :: t => N.eqb c equals_sign && after_equals t
    | [] => false
    end.
Proof.
  induction s as [|c t IH]; simpl; [reflexivity|].
  destruct (Re.is_space c); [exact IH|].
  now destruct (N.eqb c equals_sign).
Qed.

Lemma spelled_spec w s :
  spelled w s
  = match Str.strip_prefix w s with
    | Some s1 => before_equals s1
    | None => false
    end.
Proof.
  revert s; induction w as [|x w IH]; intros s; simpl; [reflexivity|].
  destruct s as [|c t]; [reflexivity|].
  destruct (N.eqb c x); simpl; [apply IH|reflexivity].
Qed.

Lemma value_some x t : Re.is_space x = false -> value (x :: t) <> None.
Proof.
  intros Hx. unfold value, token, Re.not_space. rewrite Hx. simpl.
  destruct (Re.quote x); [|discriminate].
  destruct (close_quote t) as [[b r]|]; discriminate.
Qed.

(** A match starts where the three loops say so. *)
Lemma spelled_hit s :
  spelled sensitive_var s = match hit s with Some _ => true | None => false end.
Proof.
  rewrite spelled_spec. unfold hit.
  destruct (Str.strip_prefix sensitive_var s) as [s1|]; [|reflexivity].
  rewrite before_equals_spec.
  destruct (drop_while Re.is_space s1) as [|c s2]; [reflexivity|].
  destruct (N.eqb c equals_sign); [|reflexivity]. simpl.
  rewrite after_equals_spec.
  destruct (drop_while Re.is_space s2) as [|x t] eqn:E; [reflexivity|].
  apply drop_while_head in E.
  pose proof (value_some x t E) as Hv.
  destruct (value (x :: t)) as [[v rest]|]; [reflexivity|congruence].
Qed.

Lemma hit_starts_a s h : hit s = Some h -> exists t, s = letter_a :: t.
Proof.
  unfold hit.
  destruct (Str.strip_prefix sensitive_var s) as [s1|] eqn:E; [|discriminate].
  intros _. apply strip_prefix_app in E. subst s. eexists. reflexivity.
Qed.

(** Redaction starts no match: what the loops accept after it, they
    accepted before. *)
Lemma redact_preserves_loops R s :
  (after_equals (redact R s) = true -> after_equals s = true) /\
  (before_equals (redact R s) = true -> before_equals s = true) /\
  (forall w, free_of letter_a w = true ->
     spelled w (redact R s) = true -> spelled w s = true).
Proof.
  remember (List.length s) as n eqn:Hn.
  revert s Hn. induction n as [n IH] using lt_wf_ind. intros s Hn.
  destruct s as [|c t]; [now repeat split|].
  destruct (hit (c :: t)) as [[[lhs v] rest]|] eqn:Hh.
  - destruct (hit_starts_a _ _ Hh) as [t' [= -> ->]].
    rewrite (redact_hit R _ _ _ _ Hh).
    apply hit_sound in Hh as (_ & Hlhs & _). destruct Hlhs as [w1 w2 _ _].
    cbn [app sensitive_var py map list_ascii_of_string].
    split; [|split].
    + reflexivity.
    + intros H. cbn in H. discriminate H.
    + intros w Hw. destruct w as [|x w]; [intros H; cbn in H; discriminate H|].
      apply free_of_cons in Hw as [Hx _]. cbn [spelled].
      destruct (N.eqb_spec (N_of_ascii "a") x) as [E|_]; [|discriminate].
      now destruct Hx.
  - rewrite (redact_keep R _ _ Hh).
    destruct (IH (List.length t) ltac:(subst n; simpl; lia) t eq_refl)
      as (Ha & Hb & Hw).
    repeat split.
    + simpl. destruct (Re.is_space c); [exact Ha|reflexivity].
    + simpl. destruct (Re.is_space c); [exact Hb|].
      destruct (N.eqb c equals_sign); [exact Ha|discriminate].
    + intros w Hfree. destruct w as [|x w]; simpl.
      * destruct (Re.is_space c); [exact Hb|].
        destruct (N.eqb c equals_sign); [exact Ha|discriminate].
      * apply free_of_cons in Hfree as [_ Hfree].
        destruct (N.eqb c x); simpl; [now apply Hw|discriminate].
Qed.

Lemma well_delimited_hit s lhs v rest :
  hit s = Some (lhs, v, rest) ->
  well_delimited s = starts_blank rest && well_delimited rest.
Proof.
  intros Hh. unfold well_delimited. now rewrite (scan_hit _ _ Hh).
Qed.

Lemma well_delimited_keep c t :
  hit (c :: t) = None -> well_delimited (c :: t) = well_delimited t.
Proof.
  intros Hh. unfold well_delimited. now rewrite (scan_keep _ _ Hh).
Qed.

Lemma redact_starts_blank R s :
  starts_blank s = true -> starts_blank (redact R s) = true.
Proof.
  destruct s as [|x r]; [reflexivity|]. simpl. intros Hx.
  destruct (hit (x :: r)) as [h|] eqn:Hh.
  - destruct (hit_starts_a _ _ Hh) as [t [= -> ->]]. discriminate Hx.
  - now rewrite (redact_keep R _ _ Hh).
Qed.

(** After the redaction the same left-hand side has the replacement for
    its value. *)
Lemma hit_replaced s lhs v rest R out :
  hit s = Some (lhs, v, rest) ->
  plain_token R = true ->
  starts_blank out = true ->
  hit (lhs ++ R ++ out) = Some (lhs, R, out).
Proof.
  intros Hh HR Hout. apply hit_sound in Hh as (_ & Hlhs & _).
  apply hit_complete. split; [reflexivity|]. split; [exact Hlhs|].
  destruct R as [|x R]; [discriminate HR|].
  simpl in HR. apply andb_true_iff in HR as [Hq Hns].
  apply value_token; try assumption; [discriminate|].
  intros q r Hquoted E. destruct Hquoted as [q1 body q2 Q1 _ _].
  simpl in E. injection E as -> _. now rewrite Q1 in Hq.
Qed.

Lemma no_hit_after_redact R c t :
  hit (c :: t) = None -> hit (c :: redact R t) = None.
Proof.
  intros Hh.
  pose proof (spelled_hit (c :: redact R t)) as H1.
  pose proof (spelled_hit (c :: t)) as H2. rewrite Hh in H2.
  destruct (hit (c :: redact R t)); [|reflexivity].
  exfalso. change sensitive_var with (letter_a :: py "uthKey") in H1, H2.
  cbn [spelled] in H1, H2.
  apply andb_true_iff in H1 as [Hc H1]. rewrite Hc in H2. cbn [andb] in H2.
  destruct (redact_preserves_loops R t) as (_ & _ & Hw).
  rewrite (Hw (py "uthKey") eq_refl H1) in H2. discriminate H2.
Qed.

Lemma redact_idempotent R s :
  plain_token R = true ->
  well_delimited s = true ->
  redact R (redact R s) = redact R s.
Proof.
  intros HR.
  remember (List.length s) as n eqn:Hn.
  revert s Hn. induction n as [n IH] using lt_wf_ind. intros s Hn Hwd.
  destruct s as [|c t]; [reflexivity|].
  destruct (hit (c :: t)) as [[[lhs v] rest]|] eqn:Hh.
  - rewrite (well_delimited_hit _ _ _ _ Hh) in Hwd.
    apply andb_true_iff in Hwd as [Hrest Hwd].
    rewrite (redact_hit R _ _ _ _ Hh).
    rewrite (redact_hit R _ lhs R (redact R rest)).
    + do 2 f_equal. apply (IH (List.length rest)); [|reflexivity|exact Hwd].
      apply hit_app in Hh as [Hs Hv]. subst n. rewrite Hs, !length_app.
      destruct v; [congruence|simpl; lia].
    + apply (hit_replaced _ _ _ _ _ _ Hh HR).
      now apply redact_starts_blank.
  - rewrite (well_delimited_keep _ _ Hh) in Hwd.
    rewrite (redact_keep R _ _ Hh).
    pose proof (no_hit_after_redact R c t Hh) as Hno.
    rewrite (redact_keep R _ _ Hno). f_equal.
    apply (IH (List.length t)); [subst n; simpl; lia|reflexivity|exact Hwd].
Qed.

Lemma redact_starts_text R s :
  starts_blank s = false -> starts_blank (redact R s) = false.
Proof.
  destruct s as [|x r]; [discriminate|]. simpl. intros Hx.
  destruct (hit (x :: r)) as [[[lhs v] rest]|] eqn:Hh.
  - rewrite (redact_hit R _ _ _ _ Hh).
    apply hit_sound in Hh as (_ & Hlhs & _). destruct Hlhs as [w1 w2 _ _].
    reflexivity.
  - now rewrite (redact_keep R _ _ Hh).
Qed.

(** After the redaction, a value that text follows is read together with
    that text. *)
Lemma hit_swallows s lhs v rest R y B :
  hit s = Some (lhs, v, rest) ->
  plain_token R = true ->
  Re.is_space y = false ->
  hit (lhs ++ R ++ y :: B)
  = Some (lhs, R ++ y :: take_while Re.not_space B, drop_while Re.not_space B).
Proof.
  intros Hh HR Hy. apply hit_sound in Hh as (_ & Hlhs & _).
  apply hit_complete. split; [|split; [exact Hlhs|]].
  - rewrite <- (take_drop_while Re.not_space B) at 1.
    now rewrite <- !app_assoc.
  - destruct R as [|x R]; [discriminate HR|].
    simpl in HR. apply andb_true_iff in HR as [Hq Hns].
    apply andb_true_iff in Hns as [Hx Hns].
    apply value_token.
    + discriminate.
    + cbn [app forallb]. rewrite Hx, forallb_app, Hns. cbn [forallb].
      apply not_space_iff in Hy. now rewrite Hy, take_while_all.
    + destruct (drop_while Re.not_space B) as [|c r] eqn:E; [reflexivity|].
      apply drop_while_head in E. simpl.
      unfold Re.not_space in E. now destruct (Re.is_space c).
    + intros q r Hquoted E. destruct Hquoted as [q1 body q2 Q1 _ _].
      simpl in E. injection E as -> _. now rewrite Q1 in Hq.
Qed.

Lemma redact_idempotent_only R s :
  plain_token R = true ->
  redact R (redact R s) = redact R s ->
  well_delimited s = true.
Proof.
  intros HR.
  remember (List.length s) as n eqn:Hn.
  revert s Hn. induction n as [n IH] using lt_wf_ind. intros s Hn Hid.
  destruct s as [|c t]; [reflexivity|].
  destruct (hit (c :: t)) as [[[lhs v] rest]|] eqn:Hh.
  - rewrite (well_delimited_hit _ _ _ _ Hh).
    rewrite (redact_hit R _ _ _ _ Hh) in Hid.
    assert (Hlen : List.length rest < n).
    { apply hit_app in Hh as [Hs Hv]. subst n. rewrite Hs, !length_app.
      destruct v; [congruence|simpl; lia]. }
    destruct (starts_blank rest) eqn:Hrest; cbn [andb].
    + rewrite (redact_hit R _ lhs R (redact R rest)) in Hid.
      2:{ apply (hit_replaced _ _ _ _ _ _ Hh HR).
          now apply redact_starts_blank. }
      apply app_inv_head in Hid. apply app_inv_head in Hid.
      now apply (IH (List.length rest) Hlen rest).
    + exfalso. pose proof (redact_starts_text R rest Hrest) as Hy.
      destruct (redact R rest) as [|y B] eqn:Eout; [discriminate Hy|].
      simpl in Hy.
      rewrite (redact_hit R _ _ _ _ (hit_swallows _ _ _ _ R y B Hh HR Hy))
        in Hid.
      apply app_inv_head in Hid. apply app_inv_head in Hid.
      assert (Hb : starts_blank (redact R (drop_while Re.not_space B)) = true).
      { apply redact_starts_blank.
        destruct (drop_while Re.not_space B) as [|c' r] eqn:E; [reflexivity|].
        apply drop_while_head in E. simpl.
        unfold Re.not_space in E. now destruct (Re.is_space c'). }
      rewrite Hid in Hb. simpl in Hb. congruence.
  - rewrite (well_delimited_keep _ _ Hh).
    rewrite (redact_keep R _ _ Hh) in Hid.
    rewrite (redact_keep R _ _ (no_hit_after_redact R c t Hh)) in Hid.
    injection Hid as Hid.
    apply (IH (List.length t)); [subst n; simpl; lia|reflexivity|exact Hid].
Qed.

(** C6, as amended. Redaction is idempotent on a text, that is, applying
    [_clean_code_content] twice yields what applying it once yields,
    exactly when the file-type hint is outside the fixed set or each value
    that the redaction replaces in the text is followed by whitespace or
    ends the text. *)
Theorem redaction_idempotent_iff_delimited (content file_extension : str) :
  _clean_code_content (_clean_code_content content file_extension)
    file_extension
  = _clean_code_content content file_extension
  <-> is_hint file_extension = false \/ well_delimited content = true.
Proof.
  pose proof (replacement_cases file_extension) as Hc.
  destruct (is_hint file_extension).
  - destruct Hc as (R & E & _).
    destruct (clean_code_content_redact content _ _ E) as [HR ->].
    destruct (clean_code_content_redact (redact R content) _ _ E) as [_ ->].
    split.
    + intros Hid. right. now apply (redact_idempotent_only R).
    + intros [Hyp|Hwd]; [discriminate Hyp|]. now apply redact_idempotent.
  - split; [now left|]. intros _.
    unfold _clean_code_content. now rewrite Hc.
Qed.

Lemma redaction_idempotent_iff_delimited_witness :
  let text := py "authKey = " ++ dquote ++ py "abc123" ++ dquote in
  well_delimited text = true /\
  _clean_code_content (_clean_code_content text (py ".py")) (py ".py")
  = _clean_code_content text (py ".py").
Proof.
  split.
  - vm_compute. reflexivity.
  - apply (redaction_idempotent_iff_delimited
             (py "authKey = " ++ dquote ++ py "abc123" ++ dquote) (py ".py")).
    right. vm_compute. reflexivity.
Defined.

(** C6 as stated fails: in a [.py] file, a quoted value with text right
    after its closing quote is redacted to the replacement followed by
    that text, and the second pass takes both for one token. *)
Lemma redaction_not_idempotent :
  let getenv := py "os.getenv(" ++ dquote ++ py "REPLACEMENT_KEY" ++ dquote ++ py ")" in
  let text := py "authKey = " ++ dquote ++ py "a" ++ dquote ++ py "b" in
  _clean_code_content text (py ".py") = py "authKey = " ++ getenv ++ py "b" /\
  _clean_code_content (_clean_code_content text (py ".py")) (py ".py")
  = py "authKey = " ++ getenv /\
  _clean_code_content (_clean_code_content text (py ".py")) (py ".py")
  <> _clean_code_content text (py ".py").
Proof.
  cbv zeta. split; [vm_compute; reflexivity|].
  split; [vm_compute; reflexivity|]. vm_compute. discriminate.
Qed.

(** ** The push *)

Section PipelineFacts.

Context `{Collaborators} {W : Type}.

Variables repo_owner repo_name commit_message : str.

Implicit Types (status_container : option W) (file_info : ZipInfo).
Implicit Types (l : locals) (w : world).

Local Abbreviation call file_info :=
  (call_process_file repo_owner repo_name file_info commit_message).
Local Abbreviation attempt file_info :=
  (attempt_file repo_owner repo_name file_info commit_message).
Local Abbreviation turn := (loop_body repo_owner repo_name commit_message).
Local Abbreviation loop := (for_each repo_owner repo_name commit_message).
Local Abbreviation push zip_content :=
  (push_zip_to_repo repo_owner repo_name zip_content commit_message).
Local Abbreviation no_container := (@None W).

Lemma showing_nil w : showing w [] = w.
Proof. destruct w. unfold showing. simpl. now rewrite app_nil_r. Qed.

Lemma create_repository_world private w :
  snd (create_repository repo_name private w)
  = logged w (PostRepo repo_name private).
Proof.
  unfold create_repository, try_except, bind, send, raise_for_status, lift,
    except_RequestException, ret, raise, logged.
  destruct (http (sent w) (PostRepo repo_name private)) as [resp|e].
  - destruct (status_error resp); simpl; [reflexivity|].
    destruct (html_url resp) as [url|e]; simpl; [reflexivity|].
    destruct (is_RequestException e); reflexivity.
  - destruct (is_RequestException e); reflexivity.
Qed.

(** The reply to the creation request depends on the requests sent, not
    on what was shown. *)
Lemma create_repository_shown private w evs :
  fst (create_repository repo_name private (showing w evs))
  = fst (create_repository repo_name private w).
Proof.
  unfold create_repository, try_except, bind, send, raise_for_status, lift,
    except_RequestException, ret, raise, showing. cbn [sent shown].
  destruct (http (sent w) (PostRepo repo_name private)) as [resp|e].
  - destruct (status_error resp); simpl; [reflexivity|].
    destruct (html_url resp) as [url|e]; simpl; [reflexivity|].
    destruct (is_RequestException e); reflexivity.
  - destruct (is_RequestException e); reflexivity.
Qed.

Lemma report_eq status_container l lv m w :
  report status_container l lv m w
  = (Ok tt, showing w (reported status_container l lv m)).
Proof.
  unfold report, reported, when, cell, show, ret.
  destruct status_container; [destruct (status_placeholder l)|];
    try reflexivity; now rewrite showing_nil.
Qed.

(** The [try] statement, by the outcome of the call. *)
Lemma attempt_file_eq file_info status_container l w :
  attempt file_info status_container l w
  = match call file_info l w with
    | (Ok true, w1) =>
        (Ok (count_success l),
         showing w1 (reported status_container (count_success l)
                       Success Uploaded))
    | (Ok false, w1) =>
        (Ok (count_error l),
         showing w1 (reported status_container (count_error l)
                       Warning Skipped))
    | (Raise e, w1) =>
        (Ok (count_error l),
         showing w1 (reported status_container (count_error l)
                       Error (FailedWith e)))
    end.
Proof.
  unfold attempt_file, try_except, bind.
  destruct (call file_info l w) as [[[|]|e] w1];
    rewrite report_eq; reflexivity.
Qed.

Lemma open_row_eq status_container total_files path l w :
  open_row status_container total_files path l w
  = (Ok (opened status_container path l),
     showing w (row_events status_container total_files path l)).
Proof.
  unfold open_row, opened, row_events, bind, when, show, ret.
  destruct status_container; [|now rewrite showing_nil].
  unfold showing. cbn [sent shown]. now rewrite <- !app_assoc.
Qed.

(** The [try] statement always ends normally and counts its file once. *)
Lemma attempt_file_total file_info status_container l w :
  exists l' w',
    attempt file_info status_container l w = (Ok l', w') /\
    success_count l' + error_count l' = S (success_count l + error_count l).
Proof.
  rewrite attempt_file_eq.
  destruct (call file_info l w) as [[[|]|e] w1];
    eexists; eexists; (split; [reflexivity|simpl; lia]).
Qed.

Lemma loop_body_total status_container total_files file_info l w :
  exists l' w',
    turn status_container total_files file_info l w = (Ok l', w') /\
    success_count l' + error_count l'
    = success_count l + error_count l + attempted repo_name [file_info].
Proof.
  unfold loop_body, attempted, is_attempted. cbn [filter].
  destruct (is_dir file_info); cbn [negb andb].
  { exists l, w. split; [reflexivity|simpl; lia]. }
  destruct (_clean_file_path (filename file_info) repo_name) as [|c path].
  { exists (next_file l), w. split; [reflexivity|simpl; lia]. }
  unfold bind. rewrite open_row_eq.
  match goal with
  | |- context [attempt_file _ _ _ _ _ ?l0 ?w0] =>
      destruct (attempt_file_total file_info status_container l0 w0)
        as (l' & w' & E & Hc)
  end.
  exists l', w'. split; [exact E|]. rewrite Hc.
  unfold opened. destruct status_container; simpl; lia.
Qed.

Lemma attempted_cons file_info later :
  attempted repo_name (file_info :: later)
  = attempted repo_name [file_info] + attempted repo_name later.
Proof.
  unfold attempted. cbn [filter].
  destruct (is_attempted repo_name file_info); reflexivity.
Qed.

(** The loop always runs to its end, and counts every attempted entry
    once. *)
Lemma for_each_total status_container total_files infolist l w :
  exists l' w',
    loop status_container total_files infolist l w = (Ok l', w') /\
    success_count l' + error_count l'
    = success_count l + error_count l + attempted repo_name infolist.
Proof.
  revert l w. induction infolist as [|file_info later IH]; intros l w.
  - exists l, w. split; [reflexivity|unfold attempted; simpl; lia].
  - cbn [for_each]. unfold bind.
    destruct (loop_body_total status_container total_files file_info l w)
      as (l1 & w1 & E & Hc).
    rewrite E. destruct (IH l1 w1) as (l' & w' & E' & Hc').
    exists l', w'. split; [exact E'|]. rewrite attempted_cons. lia.
Qed.

(** C1. During the push, whatever exception the processing of one file
    raises (the call of [_process_file] on a non-directory entry whose
    normalized path is not empty, its row opened) is caught: the turn of
    the loop ends normally, the failure counter is one higher and the
    success counter unchanged, the failure is shown in the cell of the
    file when there is a container, and the loop goes on with the next
    entry in archive order; it then runs to the end of the archive, every
    later entry that the push attempts being counted once. *)
Theorem entry_failure_is_contained status_container total_files
    file_info later l w c path l0 w0 e w1 :
  is_dir file_info = false ->
  _clean_file_path (filename file_info) repo_name = c :: path ->
  open_row status_container total_files (c :: path) (next_file l) w
  = (Ok l0, w0) ->
  call file_info l0 w0 = (Raise e, w1) ->
  let l1 := count_error l0 in
  let w2 := showing w1 (reported status_container l1 Error (FailedWith e)) in
  turn status_container total_files file_info l w = (Ok l1, w2) /\
  success_count l1 = success_count l /\
  error_count l1 = S (error_count l) /\
  loop status_container total_files (file_info :: later) l w
  = loop status_container total_files later l1 w2 /\
  exists l' w',
    loop status_container total_files later l1 w2 = (Ok l', w') /\
    success_count l' + error_count l'
    = success_count l + S (error_count l) + attempted repo_name later.
Proof.
  intros Hdir Hpath Hrow Hraise l1 w2.
  assert (Hbody : turn status_container total_files file_info l w
                  = (Ok l1, w2)).
  { unfold loop_body. rewrite Hdir, Hpath. unfold bind. rewrite Hrow.
    rewrite attempt_file_eq, Hraise. reflexivity. }
  rewrite open_row_eq in Hrow. injection Hrow as <- <-.
  assert (Hs : success_count l1 = success_count l)
    by (unfold l1, opened; destruct status_container; reflexivity).
  assert (He : error_count l1 = S (error_count l))
    by (unfold l1, opened; destruct status_container; reflexivity).
  repeat split; try assumption.
  - cbn [for_each]. unfold bind. now rewrite Hbody.
  - destruct (for_each_total status_container total_files later l1 w2)
      as (l' & w' & E & Hc).
    exists l', w'. split; [exact E|]. rewrite Hc, Hs, He. lia.
Qed.

(** Without a container nothing is ever assigned to [status_placeholder],
    so the call of [_process_file] raises before it is made. *)
Lemma call_process_file_unbound file_info l w :
  status_placeholder l = None ->
  call file_info l w
  = (Raise (UnboundLocalError (py "status_placeholder")), w).
Proof.
  intros Hl. unfold call_process_file, load_status_placeholder, bind.
  now rewrite Hl.
Qed.

Lemma loop_body_no_container total_files file_info l w :
  status_placeholder l = None ->
  exists l',
    turn no_container total_files file_info l w = (Ok l', w) /\
    status_placeholder l' = None /\
    success_count l' = success_count l /\
    error_count l' = error_count l + attempted repo_name [file_info].
Proof.
  intros Hl. unfold loop_body, attempted, is_attempted. cbn [filter].
  destruct (is_dir file_info); cbn [negb andb].
  { exists l. repeat split; try assumption; simpl; lia. }
  destruct (_clean_file_path (filename file_info) repo_name) as [|c path].
  { exists (next_file l). repeat split; try assumption; simpl; lia. }
  unfold bind. rewrite open_row_eq, attempt_file_eq.
  rewrite call_process_file_unbound by exact Hl.
  cbn [opened row_events reported]. rewrite !showing_nil.
  eexists. split; [reflexivity|]. repeat split; try assumption; simpl; lia.
Qed.

Lemma for_each_no_container total_files infolist l w :
  status_placeholder l = None ->
  exists l',
    loop no_container total_files infolist l w = (Ok l', w) /\
    status_placeholder l' = None /\
    success_count l' = success_count l /\
    error_count l' = error_count l + attempted repo_name infolist.
Proof.
  revert l. induction infolist as [|file_info later IH]; intros l Hl.
  - exists l. repeat split; try assumption. unfold attempted. simpl. lia.
  - cbn [for_each]. unfold bind.
    destruct (loop_body_no_container total_files file_info l w Hl)
      as (l1 & E & Hp & Hs & He).
    rewrite E. destruct (IH l1 Hp) as (l' & E' & Hp' & Hs' & He').
    exists l'. split; [exact E'|]. repeat split; try assumption.
    + congruence.
    + rewrite attempted_cons. lia.
Qed.

(** C2. When [push_zip_to_repo] is called without a status container on
    an archive that opens and the repository is created (its address is
    not empty), the call of [_process_file] raises [UnboundLocalError], a
    [NameError], for the variable [status_placeholder] on every entry, the
    variable never having been assigned; the handler of the loop counts a
    failure for every file whose normalized path is not empty, so that the
    loop ends with no success and as many errors as such files; the only
    request sent is the creation of the repository, no file is uploaded,
    and the function returns [True] all the same. *)
Theorem push_without_container zip_content infolist url w w1 :
  ZipFile zip_content = Some infolist ->
  create_repository repo_name false w = (Ok (Some url), w1) ->
  truthy (Some url) = true ->
  push zip_content no_container w = (Ok true, w1) /\
  sent w1 = sent w ++ [PostRepo repo_name false] /\
  (forall file_info l w',
     status_placeholder l = None ->
     call file_info l w'
     = (Raise (UnboundLocalError (py "status_placeholder")), w')) /\
  exists l',
    loop no_container (count_files infolist) infolist initial_locals w1
    = (Ok l', w1) /\
    success_count l' = 0 /\
    error_count l' = attempted repo_name infolist.
Proof.
  intros Hzip Hrepo Hurl.
  destruct (for_each_no_container (count_files infolist) infolist
              initial_locals w1 eq_refl) as (l' & E & _ & Hs & He).
  split; [|split; [|split]].
  - unfold push_zip_to_repo, bind, when, open_zip, ret, try_except.
    rewrite Hzip, Hrepo, Hurl. cbn [negb]. now rewrite E.
  - pose proof (create_repository_world false w) as Hw.
    rewrite Hrepo in Hw. cbn [snd] in Hw. now subst w1.
  - intros file_info l w' Hl. now apply call_process_file_unbound.
  - exists l'. split; [exact E|]. split; [exact Hs|exact He].
Qed.

(** What is shown before the creation request when there is a container. *)
Local Abbreviation announced :=
  [Columns; Shown Markdown HeaderFile; Shown Markdown HeaderStatus;
   Shown Markdown HeaderProgress; Shown Info (CreatingRepository repo_name)].

(** Once the archive has opened and the repository is created, the push
    runs to its end and returns [True], whatever happens to the files. *)
Lemma push_runs_to_its_end zip_content status_container infolist url w :
  ZipFile zip_content = Some infolist ->
  fst (create_repository repo_name false w) = Ok (Some url) ->
  truthy (Some url) = true ->
  exists w', push zip_content status_container w = (Ok true, w').
Proof.
  intros Hzip Hrepo Hurl.
  unfold push_zip_to_repo, bind, when, open_zip, ret, try_except.
  rewrite Hzip.
  destruct status_container as [x|].
  - cbn [show sent shown].
    set (w0 := {| sent := sent w; shown := _ |}).
    assert (E0 : w0 = showing w announced).
    { unfold w0, showing. f_equal. now rewrite <- !app_assoc. }
    pose proof (create_repository_shown false w announced) as Hf.
    rewrite <- E0, Hrepo in Hf.
    destruct (create_repository repo_name false w0) as [r w1].
    cbn [fst] in Hf. subst r. rewrite Hurl. cbn [negb].
    match goal with
    | |- context [for_each _ _ _ ?sc ?n ?fs ?l ?w] =>
        destruct (for_each_total sc n fs l w) as (l' & w' & E & _);
        rewrite E
    end.
    eexists. reflexivity.
  - destruct (create_repository repo_name false w) as [r w1].
    cbn [fst] in Hrepo. subst r. rewrite Hurl. cbn [negb].
    destruct (for_each_total no_container (count_files infolist)
                infolist initial_locals w1) as (l' & w' & E & _).
    rewrite E. eexists. reflexivity.
Qed.

(** C3. When the creation of the repository fails (the provisioner
    returns no address) on an archive that opens, the push returns [False]
    at once: the creation request is the only request sent, so no file is
    written; the loop over the entries is not entered, so nothing is
    counted; and what is shown stops at the failure of the creation, no
    tally of the push being produced. *)
Theorem creation_failure_aborts zip_content status_container infolist w :
  ZipFile zip_content = Some infolist ->
  fst (create_repository repo_name false w) = Ok None ->
  push zip_content status_container w
  = (Ok false,
     {| sent := sent w ++ [PostRepo repo_name false];
        shown := shown w ++ abort_events status_container repo_name |}).
Proof.
  intros Hzip Hrepo.
  unfold push_zip_to_repo, bind, when, open_zip, ret.
  rewrite Hzip.
  destruct status_container as [x|].
  - cbn [show sent shown].
    set (w0 := {| sent := sent w; shown := _ |}).
    pose proof (create_repository_shown false w announced) as Hf.
    pose proof (create_repository_world false w0) as Hw.
    assert (E0 : w0 = showing w announced).
    { unfold w0, showing. f_equal. now rewrite <- !app_assoc. }
    rewrite <- E0, Hrepo in Hf.
    destruct (create_repository repo_name false w0) as [r w1].
    cbn [fst snd] in Hf, Hw. subst r w1. cbn [truthy negb].
    unfold logged, w0. cbn [sent shown]. f_equal. f_equal.
    unfold abort_events, header_events. now rewrite <- !app_assoc.
  - pose proof (create_repository_world false w) as Hw.
    destruct (create_repository repo_name false w) as [r w1].
    cbn [fst snd] in Hrepo, Hw. subst r w1. cbn [truthy negb].
    unfold logged, abort_events. now rewrite app_nil_r.
Qed.

(** C8. When the bytes are not a ZIP archive, the push ends with the
    format error [BadZipFile], raised by the first opening of the archive;
    nothing was sent before: no repository is created and no file is
    written. *)
Theorem invalid_archive_aborts zip_content status_container w :
  ZipFile zip_content = None ->
  push zip_content status_container w
  = (Raise BadZipFile,
     {| sent := sent w;
        shown := shown w ++ header_events status_container |}).
Proof.
  intros Hzip.
  unfold push_zip_to_repo, bind, when, open_zip, ret, raise.
  rewrite Hzip.
  destruct status_container as [x|]; cbn [show sent shown header_events].
  - now rewrite <- !app_assoc.
  - destruct w; simpl. now rewrite app_nil_r.
Qed.

End PipelineFacts.

Lemma entry_failure_is_contained_witness :
  let path := py "app.py" in
  let l := next_file initial_locals in
  let l0 := opened (Some tt) path l in
  let w0 := showing empty_world (row_events (Some tt) 2 path l) in
  let e := OtherError (py "Bad CRC-32") in
  is_dir demo_unreadable = false /\
  _clean_file_path (filename demo_unreadable) (py "myrepo") = path /\
  @open_row unit (Some tt) 2 path l empty_world = (Ok l0, w0) /\
  @call_process_file demo (py "me") (py "myrepo") demo_unreadable
    (py "Initial commit") l0 w0 = (Raise e, w0) /\
  exists l' w',
    @for_each demo unit (py "me") (py "myrepo") (py "Initial commit")
      (Some tt) 2 [demo_unreadable; demo_readable] initial_locals empty_world
    = (Ok l', w') /\
    success_count l' = 1 /\ error_count l' = 1.
Proof.
  cbv zeta.
  split; [reflexivity|]. split; [reflexivity|]. split; [reflexivity|].
  split; [reflexivity|].
  destruct (@entry_failure_is_contained demo unit (py "me") (py "myrepo")
              (py "Initial commit") (Some tt) 2 demo_unreadable
              [demo_readable] initial_locals empty_world
              (chr "a") (py "pp.py") _ _ _ _
              eq_refl eq_refl eq_refl eq_refl)
    as (_ & _ & _ & Hloop & _).
  rewrite Hloop. eexists. eexists. split; [vm_compute; reflexivity|].
  split; reflexivity.
Defined.

Lemma push_without_container_witness :
  let w1 := logged empty_world (PostRepo (py "myrepo") false) in
  @ZipFile demo [80; 75; 3; 4]%N = Some demo_archive /\
  @create_repository demo (py "myrepo") false empty_world
  = (Ok (Some demo_url), w1) /\
  truthy (Some demo_url) = true /\
  @push_zip_to_repo demo unit (py "me") (py "myrepo") [80; 75; 3; 4]%N
    (py "Initial commit") None empty_world = (Ok true, w1).
Proof.
  cbv zeta.
  split; [reflexivity|]. split; [reflexivity|]. split; [reflexivity|].
  exact (proj1 (@push_without_container demo unit (py "me") (py "myrepo")
                  (py "Initial commit") [80; 75; 3; 4]%N demo_archive
                  demo_url empty_world _ eq_refl eq_refl eq_refl)).
Defined.

Lemma creation_failure_aborts_witness :
  @ZipFile demo_refusing [80; 75; 3; 4]%N = Some demo_archive /\
  fst (@create_repository demo_refusing (py "myrepo") false empty_world)
  = Ok None /\
  @push_zip_to_repo demo_refusing unit (py "me") (py "myrepo")
    [80; 75; 3; 4]%N (py "Initial commit") (Some tt) empty_world
  = (Ok false,
     {| sent := [PostRepo (py "myrepo") false];
        shown := abort_events (Some tt) (py "myrepo") |}).
Proof.
  split; [reflexivity|]. split; [reflexivity|].
  exact (@creation_failure_aborts demo_refusing unit (py "me") (py "myrepo")
           (py "Initial commit") [80; 75; 3; 4]%N (Some tt) demo_archive
           empty_world eq_refl eq_refl).
Defined.

Lemma invalid_archive_aborts_witness :
  @ZipFile demo [1; 2; 3]%N = None /\
  @push_zip_to_repo demo unit (py "me") (py "myrepo") [1; 2; 3]%N
    (py "Initial commit") None empty_world
  = (Raise BadZipFile, empty_world).
Proof.
  split; [reflexivity|].
  exact (@invalid_archive_aborts demo unit (py "me") (py "myrepo")
           (py "Initial commit") [1; 2; 3]%N None empty_world eq_refl).
Defined.

(** A push from end to end: the directory is not counted, the secret is
    redacted before the upload, the binary file goes up as it is, and the
    upload that the API refuses is counted as an error while the others
    succeed. *)
Example push_bundle :
  let getenv :=
    py "os.getenv(" ++ dquote ++ py "REPLACEMENT_KEY" ++ dquote ++ py ")" in
  let run :=
    @push_zip_to_repo bundle_world unit (py "me") (py "myrepo") []
      (py "Initial commit") (Some tt) empty_world in
  fst run = Ok true /\
  sent (snd run)
  = [ PostRepo (py "myrepo") false;
      PutContents (py "me") (py "myrepo") (py "src/config.py")
        (py "Initial commit") (py "authKey = " ++ getenv ++ [10%N])
        (py "base64");
      PutContents (py "me") (py "myrepo") (py "notes.txt")
        (py "Initial commit") (py "hello") (py "base64");
      PutContents (py "me") (py "myrepo") (py "logo.png")
        (py "Initial commit") [137; 80; 78; 71; 0]%N (py "base64") ] /\
  last (shown (snd run)) Columns
  = Shown Success (PushCompleted 2 1 (py "me") (py "myrepo")).
Proof. cbv zeta. repeat split; vm_compute; reflexivity. Qed.

(** ** The call of the model *)

Section ModelFacts.

Context `{Bedrock}.

Lemma first_with_found key skipped block later :
  Forall (fun b => contains key b = Ok false) skipped ->
  contains key block = Ok true ->
  first_with key (skipped ++ block :: later) = Ok block.
Proof.
  intros Hs Hb. induction Hs as [|b skipped Hb' _ IH]; simpl.
  - now rewrite Hb.
  - now rewrite Hb'.
Qed.

(** C9, as amended. Any client error of the model call is caught:
    [get_completion] returns [None] and raises nothing. For a reply whose
    content is a list of blocks, the first block holding a tool invocation
    is looked up; when the input of that invocation is an object with a
    [response] key, [get_completion] returns that input; when it is an
    object without one, [get_completion] returns a [generic_request] that
    wraps the raw message. *)
Theorem get_completion_outcomes prompt chat_history system_prompt :
  let params := converse_api_params prompt chat_history system_prompt in
  (forall err,
     converse params = Raise (ClientError err) ->
     get_completion prompt chat_history system_prompt = Ok PyNone) /\
  (forall response output message blocks skipped block later tool_use input,
     converse params = Ok response ->
     getitem response (py "output") = Ok output ->
     getitem output (py "message") = Ok message ->
     getitem message (py "content") = Ok (PyList blocks) ->
     blocks = skipped ++ PyDict block :: later ->
     Forall (fun b => contains (py "toolUse") b = Ok false) skipped ->
     dict_get block (py "toolUse") = Some tool_use ->
     getitem tool_use (py "input") = Ok (PyDict input) ->
     get_completion prompt chat_history system_prompt
     = Ok (match dict_get input (py "response") with
           | Some _ => PyDict input
           | None => generic_request message
           end)).
Proof.
  intros params. split.
  - intros err E. unfold get_completion, read_reply. fold params.
    now rewrite E.
  - intros response output message blocks skipped block later tool_use input
      E Ho Hm Hc -> Hs Hb Hi.
    unfold get_completion, read_reply. fold params.
    rewrite E. cbn [bind_result]. rewrite Ho. cbn [bind_result].
    rewrite Hm. cbn [bind_result]. rewrite Hc. cbn [bind_result elements].
    rewrite (first_with_found _ _ _ _ Hs).
    2:{ cbn [contains]. now rewrite Hb. }
    cbn [bind_result getitem]. rewrite Hb. cbn [bind_result].
    rewrite Hi. cbn [bind_result contains].
    now destruct (dict_get input (py "response")).
Qed.

End ModelFacts.

Lemma get_completion_outcomes_witness :
  @get_completion demo_failing_bedrock (py "Design a shop") None None
  = Ok PyNone /\
  @get_completion (demo_bedrock (PyDict demo_answer)) (py "Hi") None None
  = Ok (PyDict demo_answer).
Proof.
  split.
  - exact (proj1 (@get_completion_outcomes demo_failing_bedrock
                    (py "Design a shop") None None)
                 (py "Throttled") eq_refl).
  - exact (proj2 (@get_completion_outcomes (demo_bedrock (PyDict demo_answer))
                    (py "Hi") None None)
             _ _ _ _ [PyDict [(py "text", PyStr (py "Here is the design."))]]
             _ [] _ demo_answer
             eq_refl eq_refl eq_refl eq_refl eq_refl
             (Forall_cons
                (P := fun b => contains (py "toolUse") b = Ok false)
                (PyDict [(py "text", PyStr (py "Here is the design."))])
                eq_refl (Forall_nil _))
             eq_refl eq_refl).
Defined.

(** C9 as stated fails: the input of the first tool-use block is not
    returned when it has no [response] key, as a design without its
    summary; the [generic_request] wrapping the raw message is. *)
Lemma get_completion_wraps_design :
  let input := PyDict demo_design in
  @get_completion (demo_bedrock input) (py "Design a shop") None None
  = Ok (generic_request (demo_message input)) /\
  generic_request (demo_message input) <> input.
Proof. split; [reflexivity|discriminate]. Qed.

(** Without any tool-use block the lookup on [None] raises. *)
Example get_completion_without_tool_use :
  let reply :=
    PyDict [ (py "output",
              PyDict [(py "message",
                       PyDict [(py "content",
                                PyList [PyDict [(py "text", PyStr (py "Hi"))]])])]) ] in
  let bedrock := {| converse := fun _ => Ok reply; qoonity_head := [] |} in
  @get_completion bedrock (py "Hi") None None
  = Raise (TypeError (py "not subscriptable with a str")) /\
  @get_response bedrock (py "Hi") None None = Ok PyNone.
Proof. split; reflexivity. Qed.

(** * Further properties *)

(** ** Path normalization, on the text of the path *)

Lemma split_head_free sep s first rest :
  Str.split sep s = first :: rest -> free_of sep first = true.
Proof.
  intros E. pose proof (split_free sep s) as Hall. rewrite E in Hall.
  simpl in Hall. now apply andb_true_iff in Hall as [Hfirst _].
Qed.

Lemma free_of_In c s : free_of c s = true <-> ~ In c s.
Proof.
  unfold free_of. rewrite negb_true_iff. split.
  - intros Hf Hin.
    assert (Ht : existsb (N.eqb c) s = true)
      by (apply existsb_exists; exists c; split; [exact Hin|apply N.eqb_refl]).
    congruence.
  - intros Hnot. destruct (existsb (N.eqb c) s) eqn:E; [|reflexivity].
    apply existsb_exists in E as (x & Hin & Hx). apply N.eqb_eq in Hx.
    subst x. contradiction.
Qed.

(** X1. The only thing that normalization ever removes is one leading copy
    of the repository name, with the slash that follows it when there is
    one. *)
Theorem clean_file_path_removes_one_name (path repo_name : str) :
  let cleaned := _clean_file_path path repo_name in
  cleaned = path \/
  path = repo_name ++ slash :: cleaned \/
  (path = repo_name /\ cleaned = []).
Proof.
  cbv zeta. unfold _clean_file_path.
  pose proof (join_split slash path) as Hjoin.
  destruct (Str.split slash path) as [|first rest]; [now left|].
  destruct (str_eqb_spec first repo_name) as [->|_]; [|now left].
  right. destruct rest as [|second rest].
  - right. simpl in Hjoin. now split.
  - left. rewrite <- Hjoin at 1. reflexivity.
Qed.

(** X2. A repository name that holds a slash, as [owner/name] does, is never
    removed from a path: the first segment of a path holds no slash. *)
Theorem clean_file_path_name_with_slash (path repo_name : str) :
  In slash repo_name -> _clean_file_path path repo_name = path.
Proof.
  intros Hin. unfold _clean_file_path.
  destruct (Str.split slash path) as [|first rest] eqn:E; [reflexivity|].
  destruct (str_eqb_spec first repo_name) as [->|_]; [|reflexivity].
  apply split_head_free in E. apply free_of_In in E. contradiction.
Qed.

Lemma clean_file_path_name_with_slash_witness :
  In slash (py "me/myrepo") /\
  _clean_file_path (py "me/myrepo/App.kt") (py "me/myrepo")
  = py "me/myrepo/App.kt".
Proof.
  assert (Hin : In slash (py "me/myrepo")) by (simpl; tauto).
  split; [exact Hin|].
  exact (clean_file_path_name_with_slash
           (py "me/myrepo/App.kt") (py "me/myrepo") Hin).
Defined.

(** X3. The normalized path is empty for the empty path and, when the
    repository name holds no slash, for the name itself and for the name
    followed by a slash; for no other path. *)
Theorem clean_file_path_empty_iff (path repo_name : str) :
  _clean_file_path path repo_name = [] <->
  path = [] \/
  (~ In slash repo_name /\
   (path = repo_name \/ path = repo_name ++ [slash])).
Proof.
  unfold _clean_file_path.
  pose proof (join_split slash path) as Hjoin.
  destruct (Str.split slash path) as [|first rest] eqn:E.
  { now destruct (split_nonempty slash path). }
  pose proof (split_head_free _ _ _ _ E) as Hfree. apply free_of_In in Hfree.
  destruct (str_eqb_spec first repo_name) as [->|Hne].
  - split.
    + intros Hempty. right. split; [exact Hfree|].
      destruct rest as [|second rest]; [left; now rewrite <- Hjoin|].
      right. rewrite <- Hjoin.
      change (Str.join [slash] (repo_name :: second :: rest))
        with (repo_name ++ slash :: Str.join [slash] (second :: rest)).
      now rewrite Hempty.
    + intros [->|[_ [->| ->]]].
      * simpl in E. injection E as <- <-. reflexivity.
      * rewrite split_segment in E by now apply free_of_In.
        injection E as <-. reflexivity.
      * rewrite split_app in E by now apply free_of_In.
        simpl in E. injection E as <-. reflexivity.
  - split.
    + intros ->. now left.
    + intros [->|[Hno [->| ->]]]; [reflexivity| |].
      * rewrite split_segment in E by now apply free_of_In.
        injection E as <- <-. congruence.
      * rewrite split_app in E by now apply free_of_In.
        injection E as <- <-. congruence.
Qed.

(** ** The extension of a path *)

Lemma split_last_segment sep d name :
  free_of sep name = true ->
  exists front,
    Str.split sep (d ++ sep :: name) = front ++ [name] /\ front <> [].
Proof.
  intros Hfree. induction d as [|c d (front & E & Hne)].
  - exists [[]]. cbn [app Str.split]. rewrite N.eqb_refl.
    rewrite split_segment by exact Hfree. split; [reflexivity|discriminate].
  - cbn [app Str.split]. rewrite E. destruct (N.eqb c sep).
    + exists ([] :: front). split; [reflexivity|discriminate].
    + destruct front as [|f fs]; [congruence|].
      exists ((c :: f) :: fs). split; [reflexivity|discriminate].
Qed.

Lemma directory_prefix_cases pre :
  is_directory_prefix pre = true ->
  pre = [] \/ exists d, pre = d ++ [slash].
Proof.
  unfold is_directory_prefix. intros Hpre.
  destruct (rev pre) as [|c r] eqn:E.
  - left. apply (f_equal (@rev _)) in E. now rewrite rev_involutive in E.
  - right. apply N.eqb_eq in Hpre. subst c. exists (rev r).
    apply (f_equal (@rev _)) in E. now rewrite rev_involutive in E.
Qed.

(** The last component of a path is what follows its last slash. *)
Lemma last_component pre name :
  is_directory_prefix pre = true ->
  free_of slash name = true ->
  last (Str.split slash (pre ++ name)) [] = name.
Proof.
  intros Hpre Hfree.
  destruct (directory_prefix_cases pre Hpre) as [->|(d & ->)].
  - cbn [app]. now rewrite split_segment.
  - rewrite <- app_assoc. cbn [app].
    destruct (split_last_segment slash d name Hfree) as (front & -> & _).
    apply last_last.
Qed.

Lemma from_last_none c s : free_of c s = true -> from_last c s = None.
Proof.
  induction s as [|x t IH]; [reflexivity|]. intros Hfree.
  apply free_of_cons in Hfree as [Hx Ht]. cbn [from_last].
  rewrite (IH Ht). destruct (N.eqb_spec x c); [congruence|reflexivity].
Qed.

Lemma from_last_found c a e :
  free_of c e = true -> from_last c (a ++ c :: e) = Some (c :: e).
Proof.
  intros Hfree. induction a as [|x a IH]; cbn [app from_last].
  - now rewrite (from_last_none _ _ Hfree), N.eqb_refl.
  - now rewrite IH.
Qed.

Lemma drop_while_free c s :
  free_of c s = true -> drop_while (N.eqb c) s = s.
Proof.
  destruct s as [|x t]; [reflexivity|]. intros Hfree.
  apply free_of_cons in Hfree as [Hx _]. cbn [drop_while].
  destruct (N.eqb_spec c x); [congruence|reflexivity].
Qed.

Lemma drop_while_stops p a b :
  forallb p a = false ->
  exists x a', drop_while p (a ++ b) = x :: a' ++ b.
Proof.
  induction a as [|x a IH]; [discriminate|]. cbn [forallb app drop_while].
  destruct (p x); cbn [andb]; [exact IH|].
  intros _. now exists x, a.
Qed.

(** X4. The extension under which an entry is redacted, by the name of the
    file, the last component of its path. A name without a full stop has no
    extension. A name [stem.e] whose [e] holds no full stop has the
    extension [.e], unless the stem is made of full stops only, the empty
    stem among them: a hidden file as [.py] or [.env] has no extension, and
    so is never redacted. *)
Theorem extension_by_name (pre stem e : str) :
  is_directory_prefix pre = true ->
  free_of slash stem = true ->
  free_of slash e = true ->
  free_of full_stop e = true ->
  splitext_ext (pre ++ e) = [] /\
  splitext_ext (pre ++ stem ++ full_stop :: e)
  = if forallb (N.eqb full_stop) stem then [] else full_stop :: e.
Proof.
  intros Hpre Hstem He Hdot. unfold splitext_ext. split.
  - rewrite (last_component pre e Hpre He).
    fold full_stop. rewrite drop_while_free by exact Hdot.
    now rewrite from_last_none.
  - assert (Hname : free_of slash (stem ++ full_stop :: e) = true).
    { apply free_of_In. intros Hin.
      apply in_app_or in Hin as [Hin|[Hin|Hin]].
      - now apply free_of_In in Hstem.
      - discriminate Hin.
      - now apply free_of_In in He. }
    rewrite (last_component pre _ Hpre Hname). fold full_stop.
    destruct (forallb (N.eqb full_stop) stem) eqn:Hall.
    + rewrite drop_while_app by exact Hall.
      cbn [drop_while]. rewrite N.eqb_refl.
      rewrite drop_while_free by exact Hdot.
      now rewrite from_last_none.
    + destruct (drop_while_stops _ stem (full_stop :: e) Hall)
        as (x & a' & ->).
      change (x :: a' ++ full_stop :: e)
        with ((x :: a') ++ full_stop :: e).
      now rewrite from_last_found.
Qed.

Lemma extension_by_name_witness :
  is_directory_prefix (py "src/") = true /\
  free_of slash (py "config") = true /\
  free_of slash (py "py") = true /\
  free_of full_stop (py "py") = true /\
  splitext_ext (py "src/config.py") = py ".py" /\
  splitext_ext (py "src/.py") = [].
Proof.
  do 4 (split; [reflexivity|]).
  split.
  - exact (proj2 (extension_by_name (py "src/") (py "config") (py "py")
                    eq_refl eq_refl eq_refl eq_refl)).
  - exact (proj2 (extension_by_name (py "src/") [] (py "py")
                    eq_refl eq_refl eq_refl eq_refl)).
Defined.

(** ** The classifier on text *)

(** A binary64 number divided by itself is never below the literal: the
    quotient of a finite number other than zero by itself is one, and the
    other quotients are no numbers. *)
Lemma div_self_not_below x :
  Float64.ltb (Float64.div x x) Float64.lit_0_7 = false.
Proof.
  destruct x as [s|s| |s m e]; try reflexivity.
  assert (Hqr : Z.div_eucl (2 ^ 53 * Zpos m) (Zpos m) = (2 ^ 53, 0)%Z).
  { pose proof (Z.div_mul (2 ^ 53) (Zpos m) ltac:(lia)) as Hq.
    pose proof (Z.mod_mul (2 ^ 53) (Zpos m) ltac:(lia)) as Hr.
    unfold Z.div, Z.modulo in Hq, Hr.
    destruct (Z.div_eucl (2 ^ 53 * Zpos m) (Zpos m)) as [q r].
    now subst q r. }
  assert (Hloc : new_location (Zpos m) 0 = loc_Exact).
  { unfold new_location, new_location_even, new_location_odd.
    now destruct (Z.even (Zpos m)). }
  unfold Float64.div, Float64.prec, Float64.emax, SFdiv, SFdiv_core_binary.
  rewrite xorb_nilpotent.
  replace (Zdigits2 (Zpos m) + e - (Zdigits2 (Zpos m) + e))%Z with 0%Z
    by lia.
  replace (e - e)%Z with 0%Z by lia.
  change (Z.min (fexp 53 1024 0) 0) with (-53)%Z.
  change (0 - -53)%Z with 53%Z. cbv iota.
  rewrite Z.shiftl_mul_pow2 by lia.
  rewrite (Z.mul_comm (Zpos m)), Hqr, Hloc.
  vm_compute. reflexivity.
Qed.

Lemma text_has_no_null content :
  forallb is_text_char content = true -> has_null content = false.
Proof.
  intros Htext. unfold has_null.
  destruct (existsb (N.eqb 0) content) eqn:E; [|reflexivity].
  apply existsb_exists in E as (b & Hin & Hb). apply N.eqb_eq in Hb.
  subst b. rewrite forallb_forall in Htext.
  specialize (Htext _ Hin). discriminate Htext.
Qed.

Lemma text_chars_all content :
  forallb is_text_char content = true ->
  text_chars content = List.length content.
Proof.
  intros Htext. unfold text_chars.
  induction content as [|b content IH]; [reflexivity|].
  cbn [forallb] in Htext. apply andb_true_iff in Htext as [Hb Hall].
  cbn [filter]. rewrite Hb. cbn [List.length]. now rewrite IH.
Qed.

(** X5. Content of whatever length whose every byte counts as text, being
    in the range 32 to 127 or a tab, a line feed or a carriage return, is
    never classified as binary; the empty content is among it. *)
Theorem text_is_never_binary (content : bytes) :
  forallb is_text_char content = true -> _is_binary content = false.
Proof.
  intros Htext. destruct content as [|b content]; [reflexivity|].
  rewrite is_binary_unfold by (try discriminate; now apply text_has_no_null).
  rewrite text_chars_all by exact Htext. apply div_self_not_below.
Qed.

Lemma text_is_never_binary_witness :
  forallb is_text_char (py "authKey = 1") = true /\
  _is_binary (py "authKey = 1") = false.
Proof.
  split; [reflexivity|].
  exact (text_is_never_binary (py "authKey = 1") eq_refl).
Defined.

(** ** Redaction: texts without the name, and comparisons *)

Lemma redact_without_name R s :
  is_substring sensitive_var s = false -> redact R s = s.
Proof.
  induction s as [|c t IH]; intros Hsub; [reflexivity|].
  cbn [is_substring] in Hsub.
  destruct (Str.strip_prefix sensitive_var (c :: t)) eqn:E;
    [discriminate|].
  rewrite redact_keep; [now rewrite IH|].
  unfold hit. now rewrite E.
Qed.

(** X6. A text in which [authKey] does not occur comes back unchanged,
    whatever the file-type hint. *)
Theorem text_without_name_unchanged (content file_extension : str) :
  is_substring sensitive_var content = false ->
  _clean_code_content content file_extension = content.
Proof.
  intros Hsub. pose proof (replacement_cases file_extension) as Hc.
  destruct (is_hint file_extension).
  - destruct Hc as (R & E & _).
    destruct (clean_code_content_redact content _ _ E) as [_ ->].
    now apply redact_without_name.
  - unfold _clean_code_content. now rewrite Hc.
Qed.

Lemma text_without_name_unchanged_witness :
  let content := py "apiKey = 'abc123'" in
  is_substring sensitive_var content = false /\
  _clean_code_content content (py ".py") = content.
Proof.
  split; [reflexivity|].
  exact (text_without_name_unchanged (py "apiKey = 'abc123'") (py ".py")
           eq_refl).
Defined.

(** The match that a comparison starts: the first equals sign closes the
    left-hand side, the second one starts the value. *)
Lemma hit_comparison w tail :
  blank w = true ->
  hit (sensitive_var ++ w ++ py "==" ++ tail)
  = Some (sensitive_var ++ w ++ py "=",
          equals_sign :: take_while Re.not_space tail,
          drop_while Re.not_space tail).
Proof.
  intros Hw. unfold hit, blank in *. rewrite strip_prefix_of_app.
  rewrite drop_while_app, take_while_app by exact Hw.
  cbn. now rewrite app_nil_r.
Qed.

(** X7. The pattern takes a comparison for an assignment: in [authKey == x]
    the second equals sign and what follows it up to the next whitespace are
    the value. For a hint of the fixed set they give way to the replacement,
    so that a single equals sign is left; what was compared with stays in
    the text when whitespace comes before it. *)
Theorem comparison_is_redacted (file_extension R prefix w tail : str) :
  dict_get replacements file_extension = Some R ->
  forallb plain_char prefix = true ->
  blank w = true ->
  _clean_code_content (prefix ++ sensitive_var ++ w ++ py "==" ++ tail)
    file_extension
  = prefix ++ sensitive_var ++ w ++ py "=" ++ R
    ++ _clean_code_content (drop_while Re.not_space tail) file_extension.
Proof.
  intros E Hp Hw.
  destruct (clean_code_content_redact
              (prefix ++ sensitive_var ++ w ++ py "==" ++ tail) _ _ E)
    as [_ ->].
  destruct (clean_code_content_redact (drop_while Re.not_space tail) _ _ E)
    as [_ ->].
  induction prefix as [|p ps IH].
  - cbn [app]. rewrite (redact_hit R _ _ _ _ (hit_comparison w tail Hw)).
    now rewrite <- !app_assoc.
  - cbn [app]. rewrite redact_keep.
    + f_equal. apply IH. simpl in Hp. now apply andb_true_iff in Hp.
    + now apply (no_hit_inside p ps).
Qed.

Lemma comparison_is_redacted_witness :
  let R :=
    py "os.getenv(" ++ dquote ++ py "REPLACEMENT_KEY" ++ dquote ++ py ")" in
  dict_get replacements (py ".py") = Some R /\
  forallb plain_char (py "self.") = true /\
  blank (py " ") = true /\
  _clean_code_content
    (py "self." ++ sensitive_var ++ py " " ++ py "==" ++ py " other:")
    (py ".py")
  = py "self." ++ sensitive_var ++ py " " ++ py "=" ++ R
    ++ _clean_code_content (drop_while Re.not_space (py " other:"))
         (py ".py").
Proof.
  split; [reflexivity|]. split; [reflexivity|]. split; [reflexivity|].
  exact (comparison_is_redacted (py ".py")
           (py "os.getenv(" ++ dquote ++ py "REPLACEMENT_KEY" ++ dquote
              ++ py ")")
           (py "self.") (py " ") (py " other:") eq_refl eq_refl eq_refl).
Defined.

(** ** Redaction keeps the lines *)

Lemma line_feeds_app a b : line_feeds (a ++ b) = line_feeds a + line_feeds b.
Proof. unfold line_feeds. now rewrite filter_app, length_app. Qed.

Lemma line_feeds_none p s :
  (forall c, p c = true -> c <> 10%N) ->
  forallb p s = true -> line_feeds s = 0.
Proof.
  intros Hp Hall. unfold line_feeds.
  induction s as [|c t IH]; [reflexivity|].
  cbn [forallb] in Hall. apply andb_true_iff in Hall as [Hc Ht].
  cbn [filter]. destruct (N.eqb_spec 10 c) as [<-|_].
  - now destruct (Hp _ Hc).
  - now apply IH.
Qed.

Lemma not_space_no_line_feed c : Re.not_space c = true -> c <> 10%N.
Proof. intros Hc ->. discriminate Hc. Qed.

Lemma quote_no_line_feed c : Re.quote c = true -> c <> 10%N.
Proof. intros Hc ->. discriminate Hc. Qed.

Lemma value_no_line_feed v rest : value_of v rest -> line_feeds v = 0.
Proof.
  intros [v' rest' Hq | v' rest' _ Htok _ _].
  - destruct Hq as [q1 body q2 H1 H2 Hbody].
    change (q1 :: body ++ [q2]) with ([q1] ++ body ++ [q2]).
    rewrite !line_feeds_app.
    rewrite (line_feeds_none Re.quote [q1] quote_no_line_feed)
      by (cbn; now rewrite H1).
    rewrite (line_feeds_none Re.quote [q2] quote_no_line_feed)
      by (cbn; now rewrite H2).
    rewrite (line_feeds_none
               (fun c => Re.dot c && negb (Re.quote c)) body);
      [reflexivity| |exact Hbody].
    intros c Hc ->. discriminate Hc.
  - apply (line_feeds_none Re.not_space);
      [exact not_space_no_line_feed|exact Htok].
Qed.

Lemma redacted_line_feeds R s out :
  line_feeds R = 0 -> redacted R s out -> line_feeds out = line_feeds s.
Proof.
  intros HR Hred.
  induction Hred as [|c t out _ _ IH|s lhs v rest out Ho _ IH].
  - reflexivity.
  - change (c :: out) with ([c] ++ out). change (c :: t) with ([c] ++ t).
    now rewrite !line_feeds_app, IH.
  - destruct Ho as (-> & _ & Hv).
    rewrite !line_feeds_app, HR, IH, (value_no_line_feed _ _ Hv).
    reflexivity.
Qed.

(** X8. Redaction never adds or removes a line: the text that comes back has
    as many line feeds as the text that went in, so that what is left of the
    code keeps its line numbers. *)
Theorem redaction_keeps_line_count (content file_extension : str) :
  line_feeds (_clean_code_content content file_extension)
  = line_feeds content.
Proof.
  pose proof (replacement_cases file_extension) as Hc.
  destruct (is_hint file_extension).
  - destruct Hc as (R & E & _).
    destruct (clean_code_content_redact content _ _ E) as [Hplain ->].
    apply (redacted_line_feeds R); [|apply redact_redacted].
    unfold plain_token in Hplain. destruct R as [|x R]; [reflexivity|].
    apply andb_true_iff in Hplain as [_ Hall].
    apply (line_feeds_none Re.not_space);
      [exact not_space_no_line_feed|exact Hall].
  - unfold _clean_code_content. now rewrite Hc.
Qed.

(** ** Uploads and the requests of a push *)

Section UploadFacts.

Context `{Collaborators}.

Lemma upload_eq (req : request) w :
  try_except
    (resp <- send req ;; raise_for_status resp ;; ret true)
    (except_RequestException false) w
  = (upload_result (http (sent w) req), logged w req).
Proof.
  unfold try_except, bind, send, raise_for_status, except_RequestException,
    upload_result, ret, raise, logged.
  destruct (http (sent w) req) as [resp|e].
  - destruct (status_error resp); reflexivity.
  - destruct (is_RequestException e); reflexivity.
Qed.

Lemma create_file_with_encoding_eq
    repo_owner repo_name file_path content encoding message w :
  let req := PutContents repo_owner repo_name file_path message content
               encoding in
  create_file_with_encoding repo_owner repo_name file_path content encoding
    message w
  = (upload_result (http (sent w) req), logged w req).
Proof. apply upload_eq. Qed.

Lemma process_file_eq repo_owner repo_name file_info commit_message
    status_placeholder content w :
  read file_info = Ok content ->
  let req := upload_request repo_owner repo_name commit_message file_info
               content in
  _process_file repo_owner repo_name file_info commit_message
    status_placeholder w
  = (upload_result (http (sent w) req),
     {| sent := sent w ++ [req];
        shown := shown w ++ process_events status_placeholder content |}).
Proof.
  intros Hread req. unfold _process_file, bind at 1, lift. rewrite Hread.
  unfold req, upload_request, encoded_content, process_events.
  destruct status_placeholder as [p|]; cbn [when];
    destruct (_is_binary content);
    try destruct (utf8_decode content) as [decoded|];
    unfold bind, cell, show, ret; cbn [sent shown];
    rewrite create_file_with_encoding_eq; unfold logged; cbn [sent shown];
    rewrite <- ?app_assoc, ?app_nil_r; reflexivity.
Qed.

Lemma process_file_unreadable repo_owner repo_name file_info commit_message
    status_placeholder e w :
  read file_info = Raise e ->
  _process_file repo_owner repo_name file_info commit_message
    status_placeholder w
  = (Raise e, w).
Proof.
  intros Hread. unfold _process_file, bind at 1, lift. now rewrite Hread.
Qed.

(** X9. [create_file] on a text that UTF-8 encodes, one that holds no
    surrogate, sends one request, the text encoded as UTF-8 and then as
    base64, whatever comes of it; it returns [True] when the API answers
    without an error status and [False] when the request fails with a
    [RequestException] or the status is an error, and only an exception of
    another class leaves it. On a text that holds a surrogate the encoding
    of line 59, before the [try] statement, raises [UnicodeEncodeError]:
    the exception leaves the function and no request is sent. *)
Theorem create_file_outcome repo_owner repo_name file_path content message w :
  let req := PutContents repo_owner repo_name file_path message
               (b64encode (utf8_encode content)) (py "base64") in
  create_file repo_owner repo_name file_path content message w
  = if encodable content then
      (match http (sent w) req with
       | Answered resp => Ok (negb (status_error resp))
       | Failed e => if is_RequestException e then Ok false else Raise e
       end,
       {| sent := sent w ++ [req]; shown := shown w |})
    else (Raise UnicodeEncodeError, w).
Proof.
  cbv zeta. unfold create_file.
  destruct (encodable content); [apply upload_eq|reflexivity].
Qed.

(** X10. An entry that is classified as binary, or whose bytes are no UTF-8,
    is uploaded as it is, whatever its extension: the one request of
    [_process_file] carries the base64 text of the bytes of the entry, and
    nothing is redacted. *)
Theorem binary_entry_uploaded_unchanged repo_owner repo_name file_info
    commit_message status_placeholder content w :
  read file_info = Ok content ->
  _is_binary content = true \/ utf8_decode content = None ->
  sent (snd (_process_file repo_owner repo_name file_info commit_message
               status_placeholder w))
  = sent w
    ++ [PutContents repo_owner repo_name
          (_clean_file_path (filename file_info) repo_name) commit_message
          (b64encode content) (py "base64")].
Proof.
  intros Hread Hraw. rewrite (process_file_eq _ _ _ _ _ _ _ Hread).
  cbn [snd sent]. unfold upload_request, encoded_content.
  destruct Hraw as [-> | Hraw]; [reflexivity|].
  rewrite Hraw. now destruct (_is_binary content).
Qed.

(** X11. An entry whose bytes are all printable ASCII, tabs, line feeds or
    carriage returns and decode as UTF-8 is uploaded redacted: the one
    request of [_process_file] carries the base64 text of the UTF-8 bytes of
    what [_clean_code_content] makes of the decoded text under the extension
    of the normalized path. *)
Theorem text_entry_uploaded_redacted repo_owner repo_name file_info
    commit_message status_placeholder content decoded_content w :
  read file_info = Ok content ->
  forallb is_text_char content = true ->
  utf8_decode content = Some decoded_content ->
  let file_path := _clean_file_path (filename file_info) repo_name in
  sent (snd (_process_file repo_owner repo_name file_info commit_message
               status_placeholder w))
  = sent w
    ++ [PutContents repo_owner repo_name file_path commit_message
          (b64encode
             (utf8_encode
                (_clean_code_content decoded_content
                   (splitext_ext file_path))))
          (py "base64")].
Proof.
  intros Hread Htext Hdecode file_path.
  rewrite (process_file_eq _ _ _ _ _ _ _ Hread).
  cbn [snd sent]. unfold upload_request, encoded_content.
  assert (Hbinary : _is_binary content = false).
  { destruct content as [|b content]; [reflexivity|].
    rewrite is_binary_unfold
      by (try discriminate; now apply text_has_no_null).
    rewrite text_chars_all by exact Htext. apply div_self_not_below. }
  now rewrite Hbinary, Hdecode.
Qed.

(** X12. When the bytes of an entry cannot be read, [_process_file] ends
    with the exception of the reading before anything else: no request is
    sent and nothing is shown. When they can, what it returns is the verdict
    of the API on the one upload: [True] exactly when the API answers it
    without an error status. *)
Theorem process_file_verdict repo_owner repo_name file_info commit_message
    status_placeholder w :
  match read file_info with
  | Raise e =>
      _process_file repo_owner repo_name file_info commit_message
        status_placeholder w
      = (Raise e, w)
  | Ok content =>
      let req := upload_request repo_owner repo_name commit_message
                   file_info content in
      sent (snd (_process_file repo_owner repo_name file_info
                   commit_message status_placeholder w))
      = sent w ++ [req] /\
      (fst (_process_file repo_owner repo_name file_info commit_message
              status_placeholder w) = Ok true
       <-> exists resp,
             http (sent w) req = Answered resp /\ status_error resp = false)
  end.
Proof.
  destruct (read file_info) as [content|e] eqn:Hread.
  - cbv zeta. rewrite (process_file_eq _ _ _ _ _ _ _ Hread).
    cbn [fst snd sent]. split; [reflexivity|].
    unfold upload_result.
    destruct (http (sent w) _) as [resp|e].
    + destruct (status_error resp) eqn:Hs; cbn [negb].
      * split; [discriminate|]. intros (resp' & [= <-] & Hs'). congruence.
      * split; [|reflexivity]. intros _. now exists resp.
    + split.
      * destruct (is_RequestException e); discriminate.
      * intros (resp & Habs & _). discriminate Habs.
  - now apply process_file_unreadable.
Qed.

End UploadFacts.

Section PushFacts.

Context `{Collaborators} {W : Type}.

Variables repo_owner repo_name commit_message : str.

Implicit Types (x : W) (file_info : ZipInfo) (l : locals) (w : world).

Local Abbreviation turn := (loop_body repo_owner repo_name commit_message).
Local Abbreviation loop := (for_each repo_owner repo_name commit_message).
Local Abbreviation push zip_content :=
  (push_zip_to_repo repo_owner repo_name zip_content commit_message).
Local Abbreviation uploads :=
  (flat_map (uploads_of repo_owner repo_name commit_message)).

Lemma world_same w : {| sent := sent w ++ []; shown := shown w ++ [] |} = w.
Proof. destruct w. simpl. now rewrite !app_nil_r. Qed.

Lemma loop_event_wider total_files lo hi lo' hi' ev :
  lo' <= lo -> hi <= hi' ->
  loop_event total_files lo hi ev = true ->
  loop_event total_files lo' hi' ev = true.
Proof.
  intros Hlo Hhi. destruct ev as [|lv m|p lv m|p| |c t|]; simpl; auto.
  rewrite !andb_true_iff, !Nat.ltb_lt, !Nat.leb_le. intuition lia.
Qed.

Lemma progress_event total_files lo hi c :
  lo < c <= hi -> loop_event total_files lo hi (Progress c total_files) = true.
Proof.
  intros Hc. unfold loop_event.
  rewrite Nat.eqb_refl, !andb_true_iff, Nat.ltb_lt, Nat.leb_le. tauto.
Qed.

Lemma process_events_loop total_files lo hi p content :
  forallb (loop_event total_files lo hi) (process_events (Some p) content)
  = true.
Proof.
  unfold process_events. destruct (_is_binary content); [reflexivity|].
  destruct (utf8_decode content); reflexivity.
Qed.

(** One turn of the loop of a push with a container: it ends normally,
    sends the upload of the entry if there is one, and shows only events
    of the loop. *)
Lemma loop_body_run x total_files file_info l w :
  exists l' evs,
    turn (Some x) total_files file_info l w
    = (Ok l', {| sent := sent w ++ uploads [file_info];
                 shown := shown w ++ evs |}) /\
    current_file l' = current_file l + count_files [file_info] /\
    success_count l'
    = success_count l + accepted (sent w) (uploads [file_info]) /\
    forallb (loop_event total_files (current_file l) (current_file l')) evs
    = true.
Proof.
  unfold loop_body, count_files, uploads_of, is_attempted.
  cbn [flat_map filter]. rewrite app_nil_r.
  destruct (is_dir file_info); cbn [negb andb List.length].
  { exists l, []. rewrite world_same. repeat split; simpl; lia. }
  destruct (_clean_file_path (filename file_info) repo_name)
    as [|c path] eqn:Hpath.
  { exists (next_file l), []. rewrite world_same.
    repeat split; simpl; lia. }
  unfold bind. rewrite open_row_eq, attempt_file_eq.
  cbn [opened row_events].
  unfold call_process_file, load_status_placeholder, bind.
  cbn [status_placeholder assign_placeholder ret].
  set (p := Placeholder (c :: path)).
  set (l0 := assign_placeholder p (next_file l)).
  assert (Hrow : forall hi, S (current_file l) <= hi ->
            forallb (loop_event total_files (current_file l) hi)
              [Progress (current_file (next_file l)) total_files; Columns;
               Shown Markdown (FilePath (c :: path)); NewPlaceholder p]
            = true).
  { intros hi Hhi. cbn [forallb].
    rewrite progress_event by (simpl; lia). reflexivity. }
  destruct (read file_info) as [content|e] eqn:Hread.
  - rewrite (process_file_eq _ _ _ _ _ _ _ Hread).
    cbn [showing sent shown accepted].
    set (req := upload_request _ _ _ _ _).
    destruct (upload_result (http (sent w) req)) as [[|]|e];
      (eexists; eexists; split;
       [unfold showing; cbn [sent shown reported status_placeholder
          count_success count_error l0 assign_placeholder];
        rewrite <- !app_assoc; reflexivity|];
       split; [simpl; lia|]; split; [simpl; lia|];
       rewrite !forallb_app, Hrow, process_events_loop by (simpl; lia);
       reflexivity).
  - rewrite (process_file_unreadable _ _ _ _ _ _ _ Hread).
    eexists. eexists. split.
    + unfold showing.
      cbn [sent shown reported status_placeholder count_error l0
           assign_placeholder].
      rewrite app_nil_r, <- !app_assoc. reflexivity.
    + split; [simpl; lia|]. split; [simpl; lia|].
      rewrite !forallb_app, Hrow by (simpl; lia). reflexivity.
Qed.

Lemma accepted_app history reqs later :
  accepted history (reqs ++ later)
  = accepted history reqs + accepted (history ++ reqs) later.
Proof.
  revert history. induction reqs as [|req reqs IH]; intros history.
  - simpl. now rewrite app_nil_r.
  - cbn [app accepted]. rewrite IH, <- app_assoc. cbn [app]. lia.
Qed.

(** The loop of a push with a container: it runs to the end of the
    archive, sends the uploads of the entries in their order, counts a
    success for every upload that the API accepts, and shows only events
    of the loop. *)
Lemma for_each_run x total_files infolist l w :
  exists l' evs,
    loop (Some x) total_files infolist l w
    = (Ok l', {| sent := sent w ++ uploads infolist;
                 shown := shown w ++ evs |}) /\
    current_file l' = current_file l + count_files infolist /\
    success_count l' = success_count l + accepted (sent w) (uploads infolist) /\
    forallb (loop_event total_files (current_file l) (current_file l')) evs
    = true.
Proof.
  revert l w. induction infolist as [|file_info later IH]; intros l w.
  - exists l, []. rewrite world_same. repeat split.
    + unfold count_files. simpl. lia.
    + simpl. lia.
  - cbn [for_each]. unfold bind.
    destruct (loop_body_run x total_files file_info l w)
      as (l1 & evs1 & E1 & Hc1 & Hs1 & Hev1).
    rewrite E1.
    destruct (IH l1 {| sent := sent w ++ uploads [file_info];
                       shown := shown w ++ evs1 |})
      as (l' & evs2 & E2 & Hc2 & Hs2 & Hev2).
    rewrite E2. cbn [sent shown] in Hs2 |- *.
    assert (Hcount : count_files (file_info :: later)
                     = count_files [file_info] + count_files later).
    { unfold count_files. cbn [filter].
      destruct (negb (is_dir file_info)); reflexivity. }
    cbn [flat_map] in E1, Hs1, Hs2. rewrite app_nil_r in Hs1, Hs2.
    exists l', (evs1 ++ evs2). split; [|split; [|split]].
    + cbn [flat_map]. now rewrite <- !app_assoc.
    + lia.
    + cbn [flat_map]. rewrite accepted_app. lia.
    + rewrite forallb_app. apply andb_true_iff. split.
      * rewrite forallb_forall in Hev1 |- *. intros ev Hin.
        apply (loop_event_wider total_files (current_file l)
                 (current_file l1)); [lia|lia|now apply Hev1].
      * rewrite forallb_forall in Hev2 |- *. intros ev Hin.
        apply (loop_event_wider total_files (current_file l1)
                 (current_file l')); [lia|lia|now apply Hev2].
Qed.

(** What a push shows before the creation request, when the creation
    fails, before the loop and after it. *)
Local Abbreviation creating status_container :=
  (match status_container with
   | Some _ => [Shown Info (CreatingRepository repo_name)]
   | None => []
   end).
Local Abbreviation opening status_container :=
  (header_events status_container ++ creating status_container).
Local Abbreviation failure status_container :=
  (match status_container with
   | Some _ => [Shown Error RepositoryCreationFailed]
   | None => []
   end).
Local Abbreviation bar status_container :=
  (match status_container with
   | Some _ => [NewProgressBar]
   | None => []
   end).
Local Abbreviation closing status_container l :=
  (match status_container with
   | Some _ =>
       [ProgressEmpty;
        Shown Success (PushCompleted (success_count l) (error_count l)
                         repo_owner repo_name)]
   | None => []
   end).

(** The push, by the archive and by the outcome of the creation. *)
Lemma push_cases zip_content (status_container : option W) w :
  match ZipFile zip_content with
  | None =>
      push zip_content status_container w
      = (Raise BadZipFile, showing w (header_events status_container))
  | Some infolist =>
      let w1 := {| sent := sent w ++ [PostRepo repo_name false];
                   shown := shown w ++ opening status_container |} in
      match fst (create_repository repo_name false w) with
      | Raise e => push zip_content status_container w = (Raise e, w1)
      | Ok created =>
          if truthy created then
            exists l w2,
              loop status_container (count_files infolist) infolist
                initial_locals (showing w1 (bar status_container))
              = (Ok l, w2) /\
              push zip_content status_container w
              = (Ok true, showing w2 (closing status_container l))
          else
            push zip_content status_container w
            = (Ok false, showing w1 (failure status_container))
      end
  end.
Proof.
  assert (Hhead : forall w,
            when status_container
              (fun _ => show Columns ;;
                        show (Shown Markdown HeaderFile) ;;
                        show (Shown Markdown HeaderStatus) ;;
                        show (Shown Markdown HeaderProgress)) w
            = (Ok tt, showing w (header_events status_container))).
  { intros w'. destruct status_container; cbn [when header_events].
    - unfold bind, show, showing. cbn [sent shown].
      now rewrite <- !app_assoc.
    - unfold ret. now rewrite showing_nil. }
  set (w0 := showing w (opening status_container)).
  assert (Hcreating :
            when status_container
              (fun _ => show (Shown Info (CreatingRepository repo_name)))
              (showing w (header_events status_container))
            = (Ok tt, w0)).
  { unfold w0. destruct status_container; cbn [when header_events].
    - unfold show, showing. cbn [sent shown]. now rewrite <- !app_assoc.
    - unfold ret. now rewrite app_nil_r. }
  destruct (ZipFile zip_content) as [infolist|] eqn:Hzip.
  2:{ unfold push_zip_to_repo. unfold bind at 1. rewrite Hhead.
      unfold bind at 1, open_zip. now rewrite Hzip. }
  cbv zeta. set (w1 := {| sent := _; shown := _ |}).
  assert (Hcreate : create_repository repo_name false w0
                    = (fst (create_repository repo_name false w), w1)).
  { pose proof (create_repository_shown repo_name false w
                  (opening status_container)) as Hfst.
    pose proof (create_repository_world repo_name false w0) as Hsnd.
    fold w0 in Hfst.
    destruct (create_repository repo_name false w0) as [r w'].
    cbn [fst snd] in Hfst, Hsnd. now subst r w'. }
  assert (Hpush : push zip_content status_container w
                  = match fst (create_repository repo_name false w) with
                    | Ok created =>
                        (if negb (truthy created) then
                           when status_container
                             (fun _ =>
                                show (Shown Error RepositoryCreationFailed)) ;;
                           ret false
                         else
                           try_except
                             (again <- open_zip zip_content ;;
                              when status_container
                                (fun _ => show NewProgressBar) ;;
                              l <- loop status_container
                                     (count_files infolist) again
                                     initial_locals ;;
                              when status_container
                                (fun _ =>
                                   show ProgressEmpty ;;
                                   show (Shown Success
                                           (PushCompleted (success_count l)
                                              (error_count l) repo_owner
                                              repo_name))) ;;
                              ret true)
                             (fun e =>
                                if is_BadZipFile e then
                                  Some (when status_container
                                          (fun _ =>
                                             show (Shown Error InvalidZip)) ;;
                                        ret false)
                                else
                                  Some (when status_container
                                          (fun _ =>
                                             show (Shown Error (ZipError e))) ;;
                                        ret false))) w1
                    | Raise e => (Raise e, w1)
                    end).
  { unfold push_zip_to_repo. unfold bind at 1. rewrite Hhead.
    unfold bind at 1, open_zip at 1. rewrite Hzip. cbn [ret].
    unfold bind at 1. rewrite Hcreating. unfold bind at 1.
    rewrite Hcreate.
    now destruct (fst (create_repository repo_name false w)). }
  rewrite Hpush. clear Hpush.
  destruct (fst (create_repository repo_name false w)) as [created|e];
    [|reflexivity].
  destruct (truthy created); cbn [negb].
  - unfold try_except, bind, open_zip. rewrite Hzip. cbn [ret].
    assert (Hbar : when status_container (fun _ => show NewProgressBar) w1
                   = (Ok tt, showing w1 (bar status_container))).
    { destruct status_container; cbn [when]; [reflexivity|].
      unfold ret. now rewrite showing_nil. }
    rewrite Hbar.
    destruct (for_each_total repo_owner repo_name commit_message
                status_container (count_files infolist) infolist
                initial_locals (showing w1 (bar status_container)))
      as (l & w2 & E & _).
    exists l, w2. split; [exact E|]. rewrite E.
    destruct status_container; cbn [when].
    + unfold bind, show, showing. cbn [sent shown].
      now rewrite <- !app_assoc.
    + unfold ret. now rewrite showing_nil.
  - destruct status_container; cbn [when].
    + reflexivity.
    + unfold bind, ret. now rewrite showing_nil.
Qed.

(** X13. On an archive that opens and whose entries all have a name,
    the value that a push returns depends on the creation of the
    repository only, never on what becomes of the files: an exception of
    the creation that is no [RequestException] goes on upwards; otherwise
    the push returns [True] when the creation gave a non-empty address and
    [False] when it gave none. (Up to Python 3.11 an entry with an empty
    name makes [is_dir] raise in the first pass, line 118.) *)
Theorem push_result zip_content (status_container : option W) infolist w :
  ZipFile zip_content = Some infolist ->
  Forall (fun file_info => filename file_info <> []) infolist ->
  fst (push_zip_to_repo repo_owner repo_name zip_content commit_message
         status_container w)
  = match fst (create_repository repo_name false w) with
    | Ok created => Ok (truthy created)
    | Raise e => Raise e
    end.
Proof.
  intros Hzip _.
  pose proof (push_cases zip_content status_container w) as Hc.
  rewrite Hzip in Hc. cbv zeta in Hc.
  destruct (fst (create_repository repo_name false w)) as [created|e];
    [|now rewrite Hc].
  destruct (truthy created); [|now rewrite Hc].
  destruct Hc as (l & w2 & _ & ->). reflexivity.
Qed.

(** X14. With a container, on an archive that opens, once the repository is
    created: the requests of the push are the creation and then one upload
    for every entry that is attempted and can be read, in the order of the
    archive, each to the normalized path of its entry; what the API replies
    to an upload changes nothing of the uploads that follow. *)
Theorem push_requests zip_content x infolist url w :
  ZipFile zip_content = Some infolist ->
  fst (create_repository repo_name false w) = Ok (Some url) ->
  url <> [] ->
  sent (snd (push_zip_to_repo repo_owner repo_name zip_content
               commit_message (Some x) w))
  = sent w
    ++ PostRepo repo_name false
       :: flat_map (uploads_of repo_owner repo_name commit_message) infolist.
Proof.
  intros Hzip Hrepo Hurl.
  pose proof (push_cases zip_content (Some x) w) as Hc.
  rewrite Hzip, Hrepo in Hc. cbv zeta in Hc.
  destruct url as [|c url]; [congruence|]. cbn [truthy] in Hc.
  destruct Hc as (l & w2 & E & ->).
  destruct (for_each_run x (count_files infolist) infolist initial_locals
              (showing {| sent := sent w ++ [PostRepo repo_name false];
                          shown := shown w ++ opening (Some x) |}
                 [NewProgressBar]))
    as (l' & evs & E' & _).
  rewrite E in E'. injection E' as El Ew. subst l' w2.
  cbn [snd showing sent]. now rewrite <- app_assoc.
Qed.

(** X15. The tally that ends a push with a container is exact: the number of
    files it reports as uploaded is the number of uploads that the API
    accepted, and together with the number it reports as skipped or failed
    it makes the number of entries that the push attempted. *)
Theorem push_tally zip_content x infolist url w :
  ZipFile zip_content = Some infolist ->
  fst (create_repository repo_name false w) = Ok (Some url) ->
  url <> [] ->
  exists evs uploaded failed,
    shown (snd (push_zip_to_repo repo_owner repo_name zip_content
                  commit_message (Some x) w))
    = shown w ++ evs
      ++ [Shown Success
            (PushCompleted uploaded failed repo_owner repo_name)] /\
    uploaded
    = accepted (sent w ++ [PostRepo repo_name false])
        (flat_map (uploads_of repo_owner repo_name commit_message)
           infolist) /\
    uploaded + failed = attempted repo_name infolist.
Proof.
  intros Hzip Hrepo Hurl.
  pose proof (push_cases zip_content (Some x) w) as Hc.
  rewrite Hzip, Hrepo in Hc. cbv zeta in Hc.
  destruct url as [|c url]; [congruence|]. cbn [truthy] in Hc.
  destruct Hc as (l & w2 & E & ->).
  destruct (for_each_run x (count_files infolist) infolist initial_locals
              (showing {| sent := sent w ++ [PostRepo repo_name false];
                          shown := shown w ++ opening (Some x) |}
                 [NewProgressBar]))
    as (l' & evs & E' & _ & Hs & _).
  destruct (for_each_total repo_owner repo_name commit_message (Some x)
              (count_files infolist) infolist initial_locals
              (showing {| sent := sent w ++ [PostRepo repo_name false];
                          shown := shown w ++ opening (Some x) |}
                 [NewProgressBar]))
    as (l'' & w'' & E'' & Hsum).
  rewrite E in E', E''.
  injection E' as El Ew. injection E'' as El' _. subst l' l'' w2.
  exists (opening (Some x) ++ [NewProgressBar] ++ evs ++ [ProgressEmpty]),
    (success_count l), (error_count l).
  split; [|split; [exact Hs|exact Hsum]].
  cbn [snd showing shown]. rewrite <- !app_assoc. reflexivity.
Qed.

(** Everything that a push shows: no report of the two outer handlers, and
    a progress bar that stays within the total. *)
Lemma push_shows zip_content (status_container : option W) w :
  exists evs,
    shown (snd (push zip_content status_container w)) = shown w ++ evs /\
    forallb (fun ev => negb (is_zip_report ev) && within_total ev) evs
    = true.
Proof.
  pose proof (push_cases zip_content status_container w) as Hc.
  destruct (ZipFile zip_content) as [infolist|].
  2:{ rewrite Hc. exists (header_events status_container).
      split; [reflexivity|]. now destruct status_container. }
  cbv zeta in Hc.
  destruct (fst (create_repository repo_name false w)) as [created|e].
  2:{ rewrite Hc. exists (opening status_container).
      split; [reflexivity|]. now destruct status_container. }
  destruct (truthy created).
  2:{ rewrite Hc.
      exists (opening status_container ++ failure status_container).
      split; [cbn; now rewrite <- app_assoc|]. now destruct status_container. }
  destruct Hc as (l & w2 & E & ->).
  destruct status_container as [x|].
  - destruct (for_each_run x (count_files infolist) infolist initial_locals
                (showing {| sent := sent w ++ [PostRepo repo_name false];
                            shown := shown w ++ opening (Some x) |}
                   [NewProgressBar]))
      as (l' & evs & E' & Hcount & _ & Hevs).
    rewrite E in E'. injection E' as El Ew. subst l' w2.
    exists (opening (Some x) ++ [NewProgressBar] ++ evs
            ++ closing (Some x) l).
    split; [cbn [snd showing shown]; now rewrite <- !app_assoc|].
    rewrite !forallb_app. cbn [initial_locals current_file] in Hcount, Hevs.
    replace (forallb _ evs) with true; [reflexivity|].
    symmetry. rewrite forallb_forall in Hevs |- *. intros ev Hin.
    specialize (Hevs ev Hin). rewrite Hcount in Hevs.
    destruct ev as [|lv m|p lv m|p| |c t|]; try reflexivity.
    + now destruct lv, m.
    + unfold loop_event in Hevs.
      rewrite !andb_true_iff, Nat.eqb_eq, Nat.ltb_lt, Nat.leb_le in Hevs.
      destruct Hevs as [[-> Hlo] Hhi].
      unfold is_zip_report, within_total. cbn [negb andb].
      apply andb_true_iff. split; apply Nat.leb_le; lia.
  - destruct (for_each_no_container (W := W) repo_owner repo_name
                commit_message
                (count_files infolist) infolist initial_locals
                (showing {| sent := sent w ++ [PostRepo repo_name false];
                            shown := shown w ++ opening (@None W) |} [])
                eq_refl)
      as (l' & E' & _).
    rewrite E in E'. injection E' as El Ew. subst l' w2.
    exists []. split; [|reflexivity].
    cbn [snd showing shown header_events]. now rewrite !app_nil_r.
Qed.

(** X16. The progress bar of a push is never asked for more than the whole:
    every count that it is set to lies between one and the number of files
    of the archive it is shown against, so that the quotient of line 145 is
    never above one and its divisor is never zero. *)
Theorem progress_within_total zip_content (status_container : option W) w :
  exists evs,
    shown (snd (push_zip_to_repo repo_owner repo_name zip_content
                  commit_message status_container w))
    = shown w ++ evs /\
    forall c t, In (Progress c t) evs -> 1 <= c <= t.
Proof.
  destruct (push_shows zip_content status_container w) as (evs & E & Hevs).
  exists evs. split; [exact E|]. intros c t Hin.
  rewrite forallb_forall in Hevs. specialize (Hevs _ Hin).
  unfold is_zip_report, within_total in Hevs. cbn [negb andb] in Hevs.
  rewrite andb_true_iff, !Nat.leb_le in Hevs. lia.
Qed.

(** X17. The two outer handlers of the push never run: whatever the archive
    and the API do, the push shows neither the report of an invalid archive
    nor the report of an error while processing the archive. An invalid
    archive is met by the first opening, outside the [try] statement, and
    inside it the loop catches what its files raise. *)
Theorem push_never_reports_archive_error
    zip_content (status_container : option W) w :
  exists evs,
    shown (snd (push_zip_to_repo repo_owner repo_name zip_content
                  commit_message status_container w))
    = shown w ++ evs /\
    ~ In (Shown Error InvalidZip) evs /\
    forall e, ~ In (Shown Error (ZipError e)) evs.
Proof.
  destruct (push_shows zip_content status_container w) as (evs & E & Hevs).
  exists evs. split; [exact E|]. rewrite forallb_forall in Hevs.
  split; [|intros e]; intros Hin; specialize (Hevs _ Hin);
    discriminate Hevs.
Qed.

(** X18. When the API answers the creation request without an error status
    but its reply cannot be read for the address (the key [html_url] is
    missing, say), the exception is no [RequestException]: it escapes
    [create_repository] and the push, which ends with it after the one
    request, without the report of a failed creation. *)
Theorem unreadable_creation_reply_escapes
    zip_content (status_container : option W) infolist resp e w :
  ZipFile zip_content = Some infolist ->
  http (sent w) (PostRepo repo_name false) = Answered resp ->
  status_error resp = false ->
  html_url resp = Raise e ->
  is_RequestException e = false ->
  push_zip_to_repo repo_owner repo_name zip_content commit_message
    status_container w
  = (Raise e,
     {| sent := sent w ++ [PostRepo repo_name false];
        shown :=
          shown w ++ header_events status_container
          ++ match status_container with
             | Some _ => [Shown Info (CreatingRepository repo_name)]
             | None => []
             end |}).
Proof.
  intros Hzip Hhttp Hstatus Hurl He.
  pose proof (push_cases zip_content status_container w) as Hc.
  rewrite Hzip in Hc. cbv zeta in Hc.
  assert (Hrepo : fst (create_repository repo_name false w) = Raise e).
  { unfold create_repository, try_except, bind, send, raise_for_status,
      lift, except_RequestException.
    rewrite Hhttp, Hstatus. cbn. now rewrite Hurl, He. }
  now rewrite Hrepo in Hc.
Qed.

(** X19. A file whose name is the repository name itself has an empty
    normalized path: the loop passes over it after it has counted it for the
    progress, sending and showing nothing and counting neither a success nor
    an error. *)
Theorem entry_named_as_repository_is_dropped
    (status_container : option W) total_files file_info l w :
  is_dir file_info = false ->
  filename file_info = repo_name ->
  ~ In slash repo_name ->
  loop_body repo_owner repo_name commit_message status_container
    total_files file_info l w
  = (Ok (next_file l), w).
Proof.
  intros Hdir Hname Hslash. unfold loop_body. rewrite Hdir, Hname.
  unfold _clean_file_path.
  rewrite split_segment by now apply free_of_In.
  destruct (str_eqb_spec repo_name repo_name); [reflexivity|congruence].
Qed.

End PushFacts.

Lemma binary_entry_uploaded_unchanged_witness :
  let content := [137; 80; 78; 71; 0]%N in
  read bundle_logo = Ok content /\
  (_is_binary content = true \/ @utf8_decode bundle_world content = None) /\
  sent (snd (@_process_file bundle_world (py "me") (py "myrepo") bundle_logo
               (py "Initial commit") None empty_world))
  = [PutContents (py "me") (py "myrepo") (py "logo.png")
       (py "Initial commit") content (py "base64")].
Proof.
  cbv zeta. split; [reflexivity|]. split; [left; reflexivity|].
  exact (@binary_entry_uploaded_unchanged bundle_world (py "me")
           (py "myrepo") bundle_logo (py "Initial commit") None
           [137; 80; 78; 71; 0]%N empty_world eq_refl
           (or_introl eq_refl)).
Defined.

Lemma text_entry_uploaded_redacted_witness :
  read bundle_config = Ok bundle_secret /\
  forallb is_text_char bundle_secret = true /\
  @utf8_decode bundle_world bundle_secret = Some bundle_secret /\
  sent (snd (@_process_file bundle_world (py "me") (py "myrepo")
               bundle_config (py "Initial commit") None empty_world))
  = [PutContents (py "me") (py "myrepo") (py "src/config.py")
       (py "Initial commit")
       (_clean_code_content bundle_secret (splitext_ext (py "src/config.py")))
       (py "base64")].
Proof.
  split; [reflexivity|]. split; [reflexivity|]. split; [reflexivity|].
  exact (@text_entry_uploaded_redacted bundle_world (py "me") (py "myrepo")
           bundle_config (py "Initial commit") None bundle_secret
           bundle_secret empty_world eq_refl eq_refl eq_refl).
Defined.

Lemma push_result_witness :
  @ZipFile bundle_world [] = Some bundle /\
  Forall (fun file_info => filename file_info <> []) bundle /\
  fst (@push_zip_to_repo bundle_world unit (py "me") (py "myrepo") []
         (py "Initial commit") (Some tt) empty_world)
  = Ok true.
Proof.
  assert (Hnames : Forall (fun file_info => filename file_info <> [])
                     bundle).
  { repeat (constructor; [discriminate|]). constructor. }
  split; [reflexivity|]. split; [exact Hnames|].
  exact (@push_result bundle_world unit (py "me") (py "myrepo")
           (py "Initial commit") [] (Some tt) bundle empty_world
           eq_refl Hnames).
Defined.

Lemma push_requests_witness :
  @ZipFile bundle_world [] = Some bundle /\
  fst (@create_repository bundle_world (py "myrepo") false empty_world)
  = Ok (Some demo_url) /\
  demo_url <> [] /\
  sent (snd (@push_zip_to_repo bundle_world unit (py "me") (py "myrepo") []
               (py "Initial commit") (Some tt) empty_world))
  = PostRepo (py "myrepo") false
    :: flat_map (@uploads_of bundle_world (py "me") (py "myrepo")
                   (py "Initial commit")) bundle.
Proof.
  split; [reflexivity|]. split; [reflexivity|]. split; [discriminate|].
  exact (@push_requests bundle_world unit (py "me") (py "myrepo")
           (py "Initial commit") [] tt bundle demo_url empty_world
           eq_refl eq_refl ltac:(discriminate)).
Defined.

Lemma push_tally_witness :
  @ZipFile bundle_world [] = Some bundle /\
  fst (@create_repository bundle_world (py "myrepo") false empty_world)
  = Ok (Some demo_url) /\
  demo_url <> [] /\
  exists evs uploaded failed,
    shown (snd (@push_zip_to_repo bundle_world unit (py "me") (py "myrepo")
                  [] (py "Initial commit") (Some tt) empty_world))
    = evs ++ [Shown Success
                (PushCompleted uploaded failed (py "me") (py "myrepo"))] /\
    uploaded
    = @accepted bundle_world [PostRepo (py "myrepo") false]
        (flat_map (@uploads_of bundle_world (py "me") (py "myrepo")
                     (py "Initial commit")) bundle) /\
    uploaded + failed = attempted (py "myrepo") bundle.
Proof.
  split; [reflexivity|]. split; [reflexivity|]. split; [discriminate|].
  exact (@push_tally bundle_world unit (py "me") (py "myrepo")
           (py "Initial commit") [] tt bundle demo_url empty_world
           eq_refl eq_refl ltac:(discriminate)).
Defined.

Lemma unreadable_creation_reply_escapes_witness :
  let resp := {| status_error := false;
                 html_url := Raise (KeyError (py "html_url")) |} in
  @ZipFile demo_no_address [80; 75; 3; 4]%N = Some demo_archive /\
  @http demo_no_address [] (PostRepo (py "myrepo") false) = Answered resp /\
  status_error resp = false /\
  html_url resp = Raise (KeyError (py "html_url")) /\
  is_RequestException (KeyError (py "html_url")) = false /\
  @push_zip_to_repo demo_no_address unit (py "me") (py "myrepo")
    [80; 75; 3; 4]%N (py "Initial commit") None empty_world
  = (Raise (KeyError (py "html_url")),
     {| sent := [PostRepo (py "myrepo") false]; shown := [] |}).
Proof.
  cbv zeta. do 5 (split; [reflexivity|]).
  exact (@unreadable_creation_reply_escapes demo_no_address unit (py "me")
           (py "myrepo") (py "Initial commit") [80; 75; 3; 4]%N None
           demo_archive _ _ empty_world
           eq_refl eq_refl eq_refl eq_refl eq_refl).
Defined.

Lemma entry_named_as_repository_is_dropped_witness :
  is_dir named_as_repository = false /\
  filename named_as_repository = py "myrepo" /\
  ~ In slash (py "myrepo") /\
  @loop_body demo unit (py "me") (py "myrepo") (py "Initial commit")
    (Some tt) 1 named_as_repository initial_locals empty_world
  = (Ok (next_file initial_locals), empty_world).
Proof.
  assert (Hslash : ~ In slash (py "myrepo")).
  { intros Hin. simpl in Hin.
    repeat (destruct Hin as [Hin|Hin]; [discriminate Hin|]).
    exact Hin. }
  split; [reflexivity|]. split; [reflexivity|]. split; [exact Hslash|].
  exact (@entry_named_as_repository_is_dropped demo unit (py "me")
           (py "myrepo") (py "Initial commit") (Some tt) 1
           named_as_repository initial_locals empty_world
           eq_refl eq_refl Hslash).
Defined.

(** ** The prompt and the answers of the model *)

Lemma history_context_lines chat_history :
  history_context (Some chat_history)
  = flat_map history_line (recent_messages chat_history).
Proof. now destruct chat_history. Qed.

Lemma recent_messages_window older recent :
  List.length recent = 3 -> recent_messages (older ++ recent) = recent.
Proof.
  intros Hlen. unfold recent_messages. rewrite length_app, Hlen.
  destruct older as [|m older].
  - simpl. reflexivity.
  - assert (E : (3 <? List.length (m :: older) + 3) = true)
      by (apply Nat.ltb_lt; simpl; lia).
    rewrite E, Nat.add_sub. rewrite skipn_app, Nat.sub_diag, skipn_all.
    reflexivity.
Qed.

(** X20. Only the last three messages of the history reach the prompt: what
    was said before them changes nothing. *)
Theorem history_window prompt (older recent : list chat_message) :
  List.length recent = 3 ->
  full_prompt prompt (Some (older ++ recent))
  = full_prompt prompt (Some recent).
Proof.
  intros Hlen. unfold full_prompt. rewrite !history_context_lines.
  rewrite recent_messages_window by exact Hlen.
  pose proof (recent_messages_window [] recent Hlen) as E.
  cbn [app] in E. now rewrite E.
Qed.

Lemma history_window_witness :
  List.length (skipn 2 demo_history) = 3 /\
  full_prompt (py "And now?") (Some demo_history)
  = full_prompt (py "And now?") (Some (skipn 2 demo_history)).
Proof.
  split; [reflexivity|].
  exact (history_window (py "And now?") (firstn 2 demo_history)
           (skipn 2 demo_history) eq_refl).
Defined.

Lemma recent_messages_nonempty m ms : recent_messages (m :: ms) <> [].
Proof.
  unfold recent_messages.
  destruct (3 <? List.length (m :: ms)) eqn:E; [|discriminate].
  apply Nat.ltb_lt in E. intros Hnil.
  apply (f_equal (@List.length _)) in Hnil.
  rewrite length_skipn in Hnil. cbn [List.length] in Hnil. lia.
Qed.

(** X21. The prompt goes to the model as it is exactly when there is no
    history, none given or an empty one; any message of a history puts lines
    before it. *)
Theorem prompt_unchanged_iff_no_history prompt chat_history :
  full_prompt prompt chat_history = prompt
  <-> chat_history = None \/ chat_history = Some [].
Proof.
  split.
  - destruct chat_history as [[|m ms]|]; [now right| |now left].
    intros Hsame. exfalso. unfold full_prompt in Hsame.
    rewrite history_context_lines in Hsame.
    pose proof (recent_messages_nonempty m ms) as Hne.
    destruct (recent_messages (m :: ms)) as [|m' ms']; [congruence|].
    cbn [flat_map] in Hsame. unfold history_line at 1 in Hsame.
    destruct (role m') as [|c r]; cbn in Hsame;
      apply (f_equal (@List.length _)) in Hsame;
      cbn in Hsame; rewrite ?length_app in Hsame; cbn in Hsame;
      rewrite ?length_app in Hsame; cbn in Hsame; lia.
  - intros [-> | ->]; reflexivity.
Qed.

Section AnswerFacts.

Context `{Bedrock}.

Lemma read_reply_has_response params v :
  read_reply params = Ok v -> contains (py "response") v = Ok true.
Proof.
  unfold read_reply, bind_result.
  destruct (converse params) as [response|]; [|discriminate].
  destruct (getitem response _) as [output|]; [|discriminate].
  destruct (getitem output _) as [message|]; [|discriminate].
  destruct (getitem message _) as [blocks|]; [|discriminate].
  destruct (elements blocks) as [bs|]; [|discriminate].
  destruct (first_with _ bs) as [block|]; [|discriminate].
  destruct (getitem block _) as [tool_use|]; [|discriminate].
  destruct (getitem tool_use _) as [input|]; [|discriminate].
  destruct (contains _ input) as [[|]|] eqn:E; [| |discriminate].
  - now intros [= <-].
  - intros [= <-]. reflexivity.
Qed.

(** X22. [get_response] never raises. What it returns is [None] or a value
    that is true and holds [response]: the input of a tool invocation that
    has the key, or the [generic_request] made in its place. *)
Theorem get_response_answers prompt chat_history system_prompt :
  exists v,
    get_response prompt chat_history system_prompt = Ok v /\
    (v = PyNone \/
     (py_truthy v = true /\ contains (py "response") v = Ok true)).
Proof.
  unfold get_response, get_completion.
  destruct (read_reply _) as [v|e] eqn:E.
  - destruct (py_truthy v) eqn:Hv.
    + exists v. split; [reflexivity|]. right. split; [exact Hv|].
      now apply (read_reply_has_response _ _ E).
    + exists PyNone. split; [reflexivity|now left].
  - exists PyNone. split; [|now left]. now destruct e.
Qed.

Lemma first_with_none key blocks :
  Forall (fun b => contains key b = Ok false) blocks ->
  first_with key blocks = Ok PyNone.
Proof.
  intros Hall. induction Hall as [|b blocks Hb _ IH]; simpl;
    [reflexivity|now rewrite Hb].
Qed.

(** X23. An answer of the model without any tool invocation is lost: no
    block holds [toolUse], the lookup of the tool invocation is made on
    [None] and raises [TypeError], which [get_completion] does not catch,
    and [get_response] returns [None] in place of the text of the model. *)
Theorem answer_without_tool_use_is_lost
    prompt chat_history system_prompt response output message blocks :
  converse (converse_api_params prompt chat_history (Some qoonity_head))
  = Ok response ->
  getitem response (py "output") = Ok output ->
  getitem output (py "message") = Ok message ->
  getitem message (py "content") = Ok (PyList blocks) ->
  Forall (fun b => contains (py "toolUse") b = Ok false) blocks ->
  get_completion prompt chat_history (Some qoonity_head)
  = Raise (TypeError (py "not subscriptable with a str")) /\
  get_response prompt chat_history system_prompt = Ok PyNone.
Proof.
  intros E Ho Hm Hc Hall.
  assert (Hraise : get_completion prompt chat_history (Some qoonity_head)
                   = Raise (TypeError (py "not subscriptable with a str"))).
  { unfold get_completion, read_reply.
    rewrite E. cbn [bind_result]. rewrite Ho. cbn [bind_result].
    rewrite Hm. cbn [bind_result]. rewrite Hc. cbn [bind_result elements].
    rewrite (first_with_none _ _ Hall). reflexivity. }
  split; [exact Hraise|]. unfold get_response. now rewrite Hraise.
Qed.

End AnswerFacts.

Lemma answer_without_tool_use_is_lost_witness :
  let blocks := [PyDict [(py "text", PyStr (py "Hi"))]] in
  Forall (fun b => contains (py "toolUse") b = Ok false) blocks /\
  @get_response text_only_bedrock (py "Hi") None None = Ok PyNone.
Proof.
  assert (Hall : Forall (fun b => contains (py "toolUse") b = Ok false)
                   [PyDict [(py "text", PyStr (py "Hi"))]]).
  { constructor; [reflexivity|constructor]. }
  split; [exact Hall|].
  exact (proj2 (@answer_without_tool_use_is_lost text_only_bedrock
                  (py "Hi") None None _ _ _ _
                  eq_refl eq_refl eq_refl eq_refl Hall)).
Defined.
